(** * Chord and key inference pipeline of PianoTrainer (src/backend/chord_detector.py)

    A shallow embedding of [ChordProgressionDetector]: the chord template bank,
    the frame classifier, the temporal smoother, the frame-to-time conversion,
    the progression miner and the key estimator, together with the helpers
    around them: segment simplification, naming of chord functions, the
    progression and transition statistics, and the pitch-class features.

    Numbers.  The Python code computes with IEEE doubles.  Template vectors and
    similarity scores are modelled with exact real numbers ([R]); an executable
    exact evaluator over [Q] is proved to agree with the real model and is used
    to run the classifier on concrete inputs.  Times and durations, which are
    ratios of integers, are modelled with [Q].  The key estimator is written
    once over an abstract number interface and instantiated with a
    double-like type: exact reals extended with the two infinities and NaN. *)

From Stdlib Require Import String Ascii List Bool Arith ZArith QArith Qround
  Reals Qreals Lra Lia Psatz.
Import ListNotations.
Open Scope string_scope.
Open Scope list_scope.

(** ** Strings and lists *)

Definition str_ends_with (suffix s : string) : bool :=
  (String.length suffix <=? String.length s)%nat &&
  String.eqb (substring (String.length s - String.length suffix)
                        (String.length suffix) s) suffix.

(** [str.split(sep)] for a one-character separator. *)
Fixpoint split_on (sep : ascii) (s : string) : list string :=
  match s with
  | EmptyString => [EmptyString]
  | String c rest =>
      if Ascii.eqb c sep then EmptyString :: split_on sep rest
      else match split_on sep rest with
           | w :: ws => String c w :: ws
           | [] => [String c EmptyString]
           end
  end.

(** Python's [dict.get(k)] on a dict seen as its list of items. *)
Fixpoint lookup {A} (k : string) (d : list (string * A)) : option A :=
  match d with
  | [] => None
  | (k', v) :: d' => if String.eqb k k' then Some v else lookup k d'
  end.

(** [a[i] = x] on a fixed-size numpy array; indices are always in range
    here (they are taken mod 12), out of range leaves the list unchanged. *)
Fixpoint set_nth {A} (l : list A) (i : nat) (x : A) : list A :=
  match l, i with
  | [], _ => []
  | _ :: t, O => x :: t
  | h :: t, S i' => h :: set_nth t i' x
  end.

(** Mapping a fallible function over a list; the first failure aborts. *)
Fixpoint map_option {A B} (f : A -> option B) (l : list A) : option (list B) :=
  match l with
  | [] => Some []
  | x :: xs => match f x with
               | None => None
               | Some y => option_map (cons y) (map_option f xs)
               end
  end.

(** Apply [f] to the second component of every pair. *)
Definition map_snd {A B} (f : A -> B) (l : list (string * A)) : list (string * B) :=
  map (fun p => (fst p, f (snd p))) l.

(** ** Chord type tables ([_get_chord_templates], [_init_chord_complexity]) *)

Definition roots : list (string * nat) :=
  [("C", 0); ("C#", 1); ("D", 2); ("D#", 3); ("E", 4); ("F", 5);
   ("F#", 6); ("G", 7); ("G#", 8); ("A", 9); ("A#", 10); ("B", 11)]%nat.

Definition chord_types : list (string * list nat) := [
  ("maj", [0; 4; 7]);
  ("min", [0; 3; 7]);
  ("dim", [0; 3; 6]);
  ("aug", [0; 4; 8]);
  ("sus2", [0; 2; 7]);
  ("sus4", [0; 5; 7]);
  ("maj/3", [4; 7; 12]);
  ("min/3", [3; 7; 12]);
  ("dim/3", [3; 6; 12]);
  ("aug/3", [4; 8; 12]);
  ("sus2/2", [2; 7; 12]);
  ("sus4/4", [5; 7; 12]);
  ("maj/5", [7; 12; 16]);
  ("min/5", [7; 12; 15]);
  ("dim/5", [6; 12; 15]);
  ("aug/5", [8; 12; 16]);
  ("sus2/5", [7; 12; 14]);
  ("sus4/5", [7; 12; 17]);
  ("7", [0; 4; 7; 10]);
  ("maj7", [0; 4; 7; 11]);
  ("min7", [0; 3; 7; 10]);
  ("dim7", [0; 3; 6; 9]);
  ("hdim7", [0; 3; 6; 10]);
  ("minmaj7", [0; 3; 7; 11]);
  ("aug7", [0; 4; 8; 10]);
  ("maj7#5", [0; 4; 8; 11]);
  ("7/3", [4; 7; 10; 12]);
  ("maj7/3", [4; 7; 11; 12]);
  ("min7/3", [3; 7; 10; 12]);
  ("dim7/3", [3; 6; 9; 12]);
  ("hdim7/3", [3; 6; 10; 12]);
  ("minmaj7/3", [3; 7; 11; 12]);
  ("aug7/3", [4; 8; 10; 12]);
  ("maj7#5/3", [4; 8; 11; 12]);
  ("7/5", [7; 10; 12; 16]);
  ("maj7/5", [7; 11; 12; 16]);
  ("min7/5", [7; 10; 12; 15]);
  ("dim7/5", [6; 9; 12; 15]);
  ("hdim7/5", [6; 10; 12; 15]);
  ("minmaj7/5", [7; 11; 12; 15]);
  ("aug7/5", [8; 10; 12; 16]);
  ("maj7#5/5", [8; 11; 12; 16]);
  ("7/b7", [10; 12; 16; 19]);
  ("maj7/7", [11; 12; 16; 19]);
  ("min7/b7", [10; 12; 15; 19]);
  ("dim7/bb7", [9; 12; 15; 18]);
  ("hdim7/b7", [10; 12; 15; 18]);
  ("minmaj7/7", [11; 12; 15; 19]);
  ("aug7/b7", [10; 12; 16; 20]);
  ("maj7#5/7", [11; 12; 16; 20]);
  ("maj7drop2", [0; 7; 11; 16]);
  ("min7drop2", [0; 7; 10; 15]);
  ("7drop2", [0; 7; 10; 16]);
  ("maj7drop3", [0; 4; 11; 19]);
  ("min7drop3", [0; 3; 10; 19]);
  ("7drop3", [0; 4; 10; 19]);
  ("maj7spread", [0; 7; 11; 19]);
  ("min7spread", [0; 7; 10; 19]);
  ("7spread", [0; 7; 10; 19]);
  ("quartal", [0; 5; 10]);
  ("quartal7", [0; 5; 10; 15]);
  ("quartal9", [0; 5; 10; 15; 20]);
  ("cluster", [0; 1; 2]);
  ("cluster7", [0; 1; 2; 3]);
  ("cluster9", [0; 1; 2; 3; 4]);
  ("shell7", [0; 7; 10]);
  ("shellmaj7", [0; 7; 11]);
  ("shellmin7", [0; 7; 10]);
  ("ustmaj7", [0; 4; 7; 11; 14; 18]);
  ("ustmin7", [0; 3; 7; 10; 14; 17]);
  ("ust7", [0; 4; 7; 10; 14; 18]);
  ("maj7open", [0; 7; 11; 19]);
  ("min7open", [0; 7; 10; 19]);
  ("7open", [0; 7; 10; 19]);
  ("maj7close", [0; 4; 7; 11]);
  ("min7close", [0; 3; 7; 10]);
  ("7close", [0; 4; 7; 10]);
  ("rootless7", [4; 7; 10; 14]);
  ("rootlessmaj7", [4; 7; 11; 14]);
  ("rootlessmin7", [3; 7; 10; 14]);
  ("kb7", [0; 4; 7; 10; 14; 17]);
  ("kbmaj7", [0; 4; 7; 11; 14; 17]);
  ("kbmin7", [0; 3; 7; 10; 14; 17]);
  ("be7", [0; 4; 7; 10; 14; 18]);
  ("bemaj7", [0; 4; 7; 11; 14; 18]);
  ("bemin7", [0; 3; 7; 10; 14; 18]);
  ("mt7", [0; 4; 7; 10; 14; 18; 21]);
  ("mtmaj7", [0; 4; 7; 11; 14; 18; 21]);
  ("mtmin7", [0; 3; 7; 10; 14; 18; 21]);
  ("hh7", [0; 4; 7; 10; 14; 17; 21]);
  ("hhmaj7", [0; 4; 7; 11; 14; 17; 21]);
  ("hhmin7", [0; 3; 7; 10; 14; 17; 21]);
  ("cc7", [0; 4; 7; 10; 14; 18; 21]);
  ("ccmaj7", [0; 4; 7; 11; 14; 18; 21]);
  ("ccmin7", [0; 3; 7; 10; 14; 18; 21]);
  ("lydian", [0; 4; 7; 11; 14; 18]);
  ("mixolydian", [0; 4; 7; 10; 14; 17]);
  ("dorian", [0; 3; 7; 10; 14; 17]);
  ("phrygian", [0; 3; 7; 10; 13; 17]);
  ("locrian", [0; 3; 6; 10; 13; 17]);
  ("mystic", [0; 4; 6; 7; 11]);
  ("petrushka", [0; 4; 7; 12; 16; 19]);
  ("hendrix", [0; 4; 7; 10; 15]);
  ("mu", [0; 4; 7; 11; 14]);
  ("so", [0; 4; 7; 10; 14; 17])
]%nat.

Definition CHORD_COMPLEXITY : list (string * nat) := [
  ("maj", 1);
  ("min", 1);
  ("dim", 1);
  ("aug", 1);
  ("sus2", 1);
  ("sus4", 1);
  ("maj/3", 2);
  ("min/3", 2);
  ("dim/3", 2);
  ("aug/3", 2);
  ("sus2/2", 2);
  ("sus4/4", 2);
  ("maj/5", 2);
  ("min/5", 2);
  ("dim/5", 2);
  ("aug/5", 2);
  ("sus2/5", 2);
  ("sus4/5", 2);
  ("7", 2);
  ("maj7", 2);
  ("min7", 2);
  ("dim7", 2);
  ("hdim7", 2);
  ("minmaj7", 2);
  ("aug7", 2);
  ("maj7#5", 2);
  ("7/3", 3);
  ("maj7/3", 3);
  ("min7/3", 3);
  ("dim7/3", 3);
  ("hdim7/3", 3);
  ("minmaj7/3", 3);
  ("aug7/3", 3);
  ("maj7#5/3", 3);
  ("7/5", 3);
  ("maj7/5", 3);
  ("min7/5", 3);
  ("dim7/5", 3);
  ("hdim7/5", 3);
  ("minmaj7/5", 3);
  ("aug7/5", 3);
  ("maj7#5/5", 3);
  ("7/b7", 3);
  ("maj7/7", 3);
  ("min7/b7", 3);
  ("dim7/bb7", 3);
  ("hdim7/b7", 3);
  ("minmaj7/7", 3);
  ("aug7/b7", 3);
  ("maj7#5/7", 3);
  ("maj7drop2", 3);
  ("min7drop2", 3);
  ("7drop2", 3);
  ("maj7drop3", 3);
  ("min7drop3", 3);
  ("7drop3", 3);
  ("maj7spread", 3);
  ("min7spread", 3);
  ("7spread", 3);
  ("quartal", 2);
  ("quartal7", 3);
  ("quartal9", 4);
  ("cluster", 2);
  ("cluster7", 3);
  ("cluster9", 4);
  ("shell7", 2);
  ("shellmaj7", 2);
  ("shellmin7", 2);
  ("ustmaj7", 4);
  ("ustmin7", 4);
  ("ust7", 4);
  ("maj7open", 3);
  ("min7open", 3);
  ("7open", 3);
  ("maj7close", 2);
  ("min7close", 2);
  ("7close", 2);
  ("rootless7", 3);
  ("rootlessmaj7", 3);
  ("rootlessmin7", 3);
  ("kb7", 4);
  ("kbmaj7", 4);
  ("kbmin7", 4);
  ("be7", 4);
  ("bemaj7", 4);
  ("bemin7", 4);
  ("mt7", 5);
  ("mtmaj7", 5);
  ("mtmin7", 5);
  ("hh7", 5);
  ("hhmaj7", 5);
  ("hhmin7", 5);
  ("cc7", 5);
  ("ccmaj7", 5);
  ("ccmin7", 5);
  ("lydian", 4);
  ("mixolydian", 4);
  ("dorian", 4);
  ("phrygian", 4);
  ("locrian", 4);
  ("mystic", 3);
  ("petrushka", 4);
  ("hendrix", 3);
  ("mu", 3);
  ("so", 4)
]%nat.

Definition chord_name (root_name chord_type : string) : string :=
  (root_name ++ ":" ++ chord_type)%string.

(** ** Chord template bank *)

Module Templates.

Open Scope R_scope.

Definition sqnorm (v : list R) : R := fold_right (fun x acc => x * x + acc) 0 v.

Definition l2norm (v : list R) : R := sqrt (sqnorm v).

(** [sklearn.preprocessing.normalize(v.reshape(1,-1), axis=1)]: divide by the
    L2 norm; a zero norm is replaced by 1, so a zero vector is returned as is. *)
Definition normalize (v : list R) : list R :=
  let n := l2norm v in
  let n' := if Req_EM_T n 0 then 1 else n in
  map (fun x => x / n') v.

(** The 0/1 array built for one root and one interval list. *)
Definition raw_template (root_idx : nat) (intervals : list nat) : list Z :=
  fold_left (fun t interval => set_nth t ((root_idx + interval) mod 12) 1%Z)
            intervals (repeat 0%Z 12).

Definition template_of (root_idx : nat) (intervals : list nat) : list R :=
  normalize (map IZR (raw_template root_idx intervals)).

(** [self.CHORD_TEMPLATES] after [__init__]: for every root, for every chord
    type, [f"{root_name}:{chord_type}"] maps to the normalised template. *)
Definition CHORD_TEMPLATES : list (string * list R) :=
  flat_map (fun '(root_name, root_idx) =>
              map (fun '(chord_type, intervals) =>
                     (chord_name root_name chord_type, template_of root_idx intervals))
                  chord_types)
           roots.

End Templates.

(** ** Frame-to-time conversion ([convert_frames_to_time]) *)

(** A segment dict [{'chord', 'start_time', 'end_time', 'duration'}]. *)
Record segment := {
  chord : string;
  start_time : Q;
  end_time : Q;
  duration : Q
}.

(** [duration * hop_length / sr] *)
Definition frames_to_seconds (frames : nat) (sr hop_length : Z) : Q :=
  (inject_Z (Z.of_nat frames * hop_length) / inject_Z sr)%Q.

(** The loop of [convert_frames_to_time], [current_time] threaded along. *)
Fixpoint convert_from (chord_sequence : list (string * nat)) (sr hop_length : Z)
    (current_time : Q) : list segment :=
  match chord_sequence with
  | [] => []
  | (c, frames) :: rest =>
      let duration_seconds := frames_to_seconds frames sr hop_length in
      {| chord := c;
         start_time := current_time;
         end_time := (current_time + duration_seconds)%Q;
         duration := duration_seconds |}
      :: convert_from rest sr hop_length (current_time + duration_seconds)%Q
  end.

Definition convert_frames_to_time (chord_sequence : list (string * nat)) (sr hop_length : Z)
    : list segment :=
  convert_from chord_sequence sr hop_length 0%Q.

Definition no_segment : segment :=
  {| chord := "N"; start_time := 0; end_time := 0; duration := 0 |}.

(** ** Temporal smoother ([identify_chords], [_apply_temporal_smoothing]) *)

Definition count_label (x : string) (l : list string) : nat :=
  length (filter (String.eqb x) l).

(** The keys of [Counter(l)], in first-occurrence order. *)
Definition first_occurrences (l : list string) : list string :=
  fold_left (fun acc x => if existsb (String.eqb x) acc then acc else acc ++ [x]) l [].

(** [Counter(chord_buffer).most_common(1)[0][0]]: the first key with the
    largest count; [None] stands for the [IndexError] on an empty buffer. *)
Definition most_common (buf : list string) : option string :=
  match first_occurrences buf with
  | [] => None
  | x :: xs =>
      Some (fst (fold_left (fun '(best, bc) y =>
                              let c := count_label y buf in
                              if (bc <? c)%nat then (y, c) else (best, bc))
                           xs (x, count_label x buf)))
  end.

(** [chord_name.endswith(':cluster')] *)
Definition is_cluster_label (c : string) : bool := str_ends_with ":cluster" c.

(** The test applied to a finished run before it is appended. *)
Definition eligible (min_duration_frames : nat) (c : string) (d : nat) : bool :=
  (min_duration_frames <=? d)%nat &&
  (negb (is_cluster_label c) || (min_duration_frames * 2 <=? d)%nat).

Definition emit_run (min_duration_frames : nat) (out : list (string * nat))
    (current : option string) (d : nat) : list (string * nat) :=
  match current with
  | Some c => if eligible min_duration_frames c d then out ++ [(c, d)] else out
  | None => out
  end.

(** [chord_buffer.append(best_chord); if len(chord_buffer) > window_size: chord_buffer.pop(0)] *)
Definition window_push (window_size : nat) (buf : list string) (best : string) : list string :=
  let buf' := buf ++ [best] in
  if (window_size <? length buf')%nat then tl buf' else buf'.

Definition opt_str_eqb (a b : option string) : bool :=
  match a, b with
  | Some x, Some y => String.eqb x y
  | None, None => true
  | _, _ => false
  end.

Record smoother := mk_smoother {
  chord_sequence : list (string * nat);
  current_chord : option string;
  current_chord_duration : nat;
  chord_buffer : list string
}.

Definition smoother_init : smoother := mk_smoother [] None 0 [].

(** The body of the frame loop of [identify_chords] after [best_chord] is known. *)
Definition smoother_step (window_size min_duration_frames : nat) (st : smoother)
    (best_chord : string) : option smoother :=
  let buf := window_push window_size (chord_buffer st) best_chord in
  if (length buf =? window_size)%nat then
    match most_common buf with
    | None => None
    | Some smoothed =>
        if opt_str_eqb (Some smoothed) (current_chord st) then
          Some (mk_smoother (chord_sequence st) (current_chord st)
                            (S (current_chord_duration st)) buf)
        else
          Some (mk_smoother (emit_run min_duration_frames (chord_sequence st)
                                      (current_chord st) (current_chord_duration st))
                            (Some smoothed) 1 buf)
    end
  else Some (mk_smoother (chord_sequence st) (current_chord st)
                         (current_chord_duration st) buf).

Fixpoint smoother_run (window_size min_duration_frames : nat) (st : smoother)
    (labels : list string) : option smoother :=
  match labels with
  | [] => Some st
  | b :: bs =>
      match smoother_step window_size min_duration_frames st b with
      | None => None
      | Some st' => smoother_run window_size min_duration_frames st' bs
      end
  end.

(** The frame loop and the final flush of [identify_chords], applied to the
    frame-level labels. *)
Definition smooth_labels (window_size min_duration_frames : nat) (labels : list string)
    : option (list (string * nat)) :=
  match smoother_run window_size min_duration_frames smoother_init labels with
  | None => None
  | Some st => Some (emit_run min_duration_frames (chord_sequence st)
                              (current_chord st) (current_chord_duration st))
  end.

(** The stream of smoothed labels alone: one majority label per frame once
    the window is full. *)
Fixpoint majority_from (window_size : nat) (buf : list string) (labels : list string)
    : option (list string) :=
  match labels with
  | [] => Some []
  | b :: bs =>
      let buf' := window_push window_size buf b in
      if (length buf' =? window_size)%nat then
        match most_common buf' with
        | None => None
        | Some m => option_map (cons m) (majority_from window_size buf' bs)
        end
      else majority_from window_size buf' bs
  end.

(** Maximal runs of equal labels with their lengths. *)
Fixpoint runs_from (cur : string) (d : nat) (stream : list string) : list (string * nat) :=
  match stream with
  | [] => [(cur, d)]
  | x :: xs => if String.eqb x cur then runs_from cur (S d) xs
               else (cur, d) :: runs_from x 1 xs
  end.

Definition runs (stream : list string) : list (string * nat) :=
  match stream with
  | [] => []
  | x :: xs => runs_from x 1 xs
  end.

(** ** Configuration ([self.config]) *)

Record config := {
  chroma_sr : Z;
  hop_length : Z;
  detection_threshold : Q;
  min_duration_frames : nat;
  window_size : nat;
  similarity_threshold : Q;
  bass_weight : Q;
  harmonic_weight : Q;
  min_chord_duration : Q;
  max_chord_gap : Q;
  cluster_threshold : Q;
  min_progression_duration : Q
}.

Definition default_config : config := {|
  chroma_sr := 22050;
  hop_length := 512;
  detection_threshold := 3 # 4;
  min_duration_frames := 15;
  window_size := 9;
  similarity_threshold := 1 # 5;
  bass_weight := 6 # 5;
  harmonic_weight := 21 # 20;
  min_chord_duration := 4 # 5;
  max_chord_gap := 3 # 10;
  cluster_threshold := 17 # 20;
  min_progression_duration := 2
|}.

(** ** Frame-level classifier, generic in the type of similarity scores

    [ge_q s q] is [s >= q], [gt_s a b] is [a > b] and [gap_gt a b q] is
    [a - b > q] on scores. *)

Section Classifier.

Variable S : Type.
Variable ge_q : S -> Q -> bool.
Variable gt_s : S -> S -> bool.
Variable gap_gt : S -> S -> Q -> bool.

(** [sorted(items, key=lambda x: x[1], reverse=True)]: a stable sort by
    decreasing score (equal scores keep their order). *)
Fixpoint insert_desc (x : string * S) (l : list (string * S)) : list (string * S) :=
  match l with
  | [] => [x]
  | y :: l' => if gt_s (snd y) (snd x) then y :: insert_desc x l' else x :: y :: l'
  end.

Definition sort_desc (l : list (string * S)) : list (string * S) :=
  fold_right insert_desc [] l.

(** [_get_chord_candidates], given the similarity of every template. *)
Definition get_chord_candidates (cfg : config) (threshold : Q) (similarities : list (string * S))
    : list (string * S) :=
  sort_desc (filter (fun '(chord_name, similarity) =>
                       if is_cluster_label chord_name
                       then ge_q similarity (cluster_threshold cfg)
                       else ge_q similarity threshold)
                    similarities).

(** [root, chord_type = chord.split(':')]; [None] is the [ValueError] raised
    when the name does not have exactly one colon. *)
Definition chord_type_of (chord : string) : option string :=
  match split_on ":" chord with
  | [_; chord_type] => Some chord_type
  | _ => None
  end.

Definition complexity_of (chord_type : string) : nat :=
  match lookup chord_type CHORD_COMPLEXITY with Some c => c | None => 10%nat end.

(** [_prefer_simpler_chord] on a non-empty list (it is only called with the
    two best names): [min(complexities, key=complexities.get)] keeps the
    first name of least complexity. *)
Definition prefer_simpler_chord (first : string) (others : list string) : option string :=
  match map_option (fun chord => option_map (fun t => (chord, complexity_of t))
                                            (chord_type_of chord))
                   (first :: others) with
  | Some ((c0, k0) :: rest) =>
      Some (fst (fold_left (fun '(best, kb) '(chord, k) =>
                              if (k <? kb)%nat then (chord, k) else (best, kb))
                           rest (c0, k0)))
  | _ => None
  end.

(** [_select_best_chord]; [None] only if [_prefer_simpler_chord] raises. *)
Definition select_best_chord (cfg : config) (chord_candidates : list (string * S)) : option string :=
  match chord_candidates with
  | [] => Some "N"
  | [(n0, _)] => Some n0
  | (n0, s0) :: (n1, s1) :: _ =>
      if gap_gt s0 s1 (similarity_threshold cfg) then Some n0
      else prefer_simpler_chord n0 [n1]
  end.

Definition classify_scores (cfg : config) (threshold : Q) (similarities : list (string * S))
    : option string :=
  select_best_chord cfg (get_chord_candidates cfg threshold similarities).

End Classifier.

Arguments insert_desc {S} gt_s x l.
Arguments sort_desc {S} gt_s l.
Arguments get_chord_candidates {S} ge_q gt_s cfg threshold similarities.
Arguments select_best_chord {S} gap_gt cfg chord_candidates.
Arguments classify_scores {S} ge_q gt_s gap_gt cfg threshold similarities.

(** ** The classifier on real vectors *)

Module Classify.
Import Templates.
Open Scope R_scope.

Fixpoint dot (v t : list R) : R :=
  match v, t with
  | x :: v', y :: t' => x * y + dot v' t'
  | _, _ => 0
  end.

(** [_enhance_chroma_vector]: bins 0 and 4 times [bass_weight], bin 7 times
    [harmonic_weight], then L2 normalisation. *)
Definition enhance_chroma_vector (cfg : config) (chroma_vector : list R) : list R :=
  let e0 := set_nth chroma_vector 0 (nth 0 chroma_vector 0 * Q2R (bass_weight cfg)) in
  let e4 := set_nth e0 4 (nth 4 e0 0 * Q2R (bass_weight cfg)) in
  let e7 := set_nth e4 7 (nth 7 e4 0 * Q2R (harmonic_weight cfg)) in
  normalize e7.

Definition similarities (chroma_vector : list R) : list (string * R) :=
  map (fun '(name, template) => (name, dot chroma_vector template)) CHORD_TEMPLATES.

Definition ge_R (s : R) (q : Q) : bool := if Rle_dec (Q2R q) s then true else false.
Definition gt_R (a b : R) : bool := if Rlt_dec b a then true else false.
Definition gap_R (a b : R) (q : Q) : bool := if Rlt_dec (Q2R q) (a - b) then true else false.

Definition chord_candidates (cfg : config) (threshold : Q) (chroma_vector : list R)
    : list (string * R) :=
  get_chord_candidates ge_R gt_R cfg threshold
    (similarities (enhance_chroma_vector cfg chroma_vector)).

(** One frame of [identify_chords]: enhance, score, filter, select. *)
Definition classify_frame (cfg : config) (threshold : Q) (chroma_vector : list R) : option string :=
  classify_scores ge_R gt_R gap_R cfg threshold
    (similarities (enhance_chroma_vector cfg chroma_vector)).

(** A chroma matrix is its list of 12 rows; [chroma[:, frame]]. *)
Definition column (chroma : list (list R)) (frame : nat) : list R :=
  map (fun row => nth frame row 0) chroma.

Definition num_frames (chroma : list (list R)) : nat :=
  match chroma with row :: _ => length row | [] => 0 end.

(** [identify_chords(chroma, threshold, min_duration_frames)]; the optional
    arguments fall back to the configuration when absent or zero
    ([threshold or self.config[...]]). *)
Definition identify_chords (cfg : config) (threshold : option Q)
    (min_duration_frames_arg : option nat) (chroma : list (list R))
    : option (list (string * nat)) :=
  let thr := match threshold with
             | Some t => if Qeq_bool t 0 then detection_threshold cfg else t
             | None => detection_threshold cfg
             end in
  let mdf := match min_duration_frames_arg with
             | Some (S n) => S n
             | _ => min_duration_frames cfg
             end in
  match map_option (fun frame => classify_frame cfg thr (column chroma frame))
                   (seq 0 (num_frames chroma)) with
  | None => None
  | Some labels => smooth_labels (window_size cfg) mdf labels
  end.

End Classify.

(** ** Exact evaluation of the classifier

    The real model is not executable.  Every vector the classifier touches
    is a positive multiple of a rational vector, so every similarity is
    [d / sqrt (|a|^2 |b|^2)] with [d], [|a|^2], [|b|^2] rational.  A real [x]
    is represented by its signed square [x * |x|], which is rational here and
    order-preserving; the lemmas of [ExactFacts] show that the evaluator
    below computes the same labels as [Classify]. *)

Module Exact.
Open Scope Q_scope.

Fixpoint dotQ (a b : list Q) : Q :=
  match a, b with
  | x :: a', y :: b' => x * y + dotQ a' b'
  | _, _ => 0
  end.

Definition sqnormQ (a : list Q) : Q := fold_right (fun x acc => x * x + acc) 0 a.

Definition absQ (x : Q) : Q := if Qle_bool 0 x then x else - x.

(** Signed square [x * |x|]. *)
Definition ss (x : Q) : Q := x * absQ x.

(** The weights of [_enhance_chroma_vector], before normalisation. *)
Definition weighted (cfg : config) (u : list Q) : list Q :=
  let e0 := set_nth u 0 (nth 0 u 0 * bass_weight cfg) in
  let e4 := set_nth e0 4 (nth 4 e0 0 * bass_weight cfg) in
  set_nth e4 7 (nth 7 e4 0 * harmonic_weight cfg).

(** Signed square of the cosine of [a] and [b]. *)
Definition ssim (a b : list Q) : Q :=
  let d := dotQ a b in
  let s := d * d / (sqnormQ a * sqnormQ b) in
  if Qle_bool 0 d then s else - s.

Definition RAW_TEMPLATES : list (string * list Z) :=
  flat_map (fun '(root_name, root_idx) =>
              map (fun '(chord_type, intervals) =>
                     (chord_name root_name chord_type, Templates.raw_template root_idx intervals))
                  chord_types)
           roots.

Definition similaritiesQ (cfg : config) (u : list Q) : list (string * Q) :=
  map (fun '(name, raw) => (name, ssim (weighted cfg u) (map inject_Z raw))) RAW_TEMPLATES.

Definition ge_Q (x q : Q) : bool := Qle_bool (ss q) x.
Definition gt_Q (x y : Q) : bool := negb (Qle_bool x y).

(** [a - b > c] from the signed squares [x] of [a] and [y] of [b]: with
    [L = |x| + |y| - c^2], [(a - b)^2 - c^2 = L - 2ab] and [ab] has signed
    square [x y]. *)
Definition gap_Q (x y c : Q) : bool :=
  let L := absQ x + absQ y - c * c in
  if Qle_bool 0 c
  then negb (Qle_bool x y) && negb (Qle_bool (ss L) (4 * (x * y)))
  else negb (Qle_bool x y && Qle_bool (4 * (x * y)) (ss L)).

(** The real number whose signed square is [x]. *)
Definition sroot (x : R) : R :=
  if Rle_dec 0 x then sqrt x else (- sqrt (- x))%R.

Definition to_R (x : Q) : R := sroot (Q2R x).

Definition classify_exact (cfg : config) (threshold : Q) (u : list Q) : option string :=
  classify_scores ge_Q gt_Q gap_Q cfg threshold (similaritiesQ cfg u).

Definition candidates_exact (cfg : config) (threshold : Q) (u : list Q) : list (string * Q) :=
  get_chord_candidates ge_Q gt_Q cfg threshold (similaritiesQ cfg u).

End Exact.

(** ** Inputs and readings used by the properties *)

(** A chroma matrix whose 40 columns all equal the normalised C-major
    template ([np.tile(template[:, None], (1, 40))]). *)
Definition chroma_cmaj40 : list (list R) :=
  map (fun x => repeat x 40) (Templates.template_of 0 [0; 4; 7]%nat).

(** Pitch classes C, C#, D, D#, F and F# sounding with equal energy. *)
Definition chroma_cluster_probe : list Q := [1; 1; 1; 1; 0; 1; 1; 0; 0; 0; 0; 0]%Q.

(** The factor [_enhance_chroma_vector] applies to bin [i] before normalising. *)
Definition enhance_bin_factor (cfg : config) (i : nat) : R :=
  match i with
  | 0%nat | 4%nat => Q2R (bass_weight cfg)
  | 7%nat => Q2R (harmonic_weight cfg)
  | _ => 1%R
  end.


(** ** Progression mining ([detect_chord_progression]) *)

Module Progressions.
Open Scope Q_scope.

(** [a < b] on floats. *)
Definition qlt (a b : Q) : bool := negb (Qle_bool b a).

(** The first loop: drop short cluster segments and short segments, and
    merge a segment into the current one when it has the same chord and the
    gap is below [max_chord_gap]; the merged entry's duration is
    [current_end - current_start]. *)
Fixpoint filter_from (cfg : config) (cur : option (string * Q * Q)) (segs : list segment)
    : list segment :=
  match segs with
  | [] =>
      match cur with
      | Some (c, st, en) =>
          [{| chord := c; start_time := st; end_time := en; duration := en - st |}]
      | None => []
      end
  | s :: rest =>
      if is_cluster_label (chord s) && qlt (duration s) (min_progression_duration cfg)
      then filter_from cfg cur rest
      else if qlt (duration s) (min_chord_duration cfg)
      then filter_from cfg cur rest
      else match cur with
           | None => filter_from cfg (Some (chord s, start_time s, end_time s)) rest
           | Some (c, st, en) =>
               if String.eqb (chord s) c && qlt (start_time s - en) (max_chord_gap cfg)
               then filter_from cfg (Some (c, st, end_time s)) rest
               else {| chord := c; start_time := st; end_time := en; duration := en - st |}
                    :: filter_from cfg (Some (chord s, start_time s, end_time s)) rest
           end
  end.

Fixpoint pattern_eqb (p q : list string) : bool :=
  match p, q with
  | [], [] => true
  | x :: p', y :: q' => String.eqb x y && pattern_eqb p' q'
  | _, _ => false
  end.

(** [chord_patterns[pattern] += 1] on a dict kept in insertion order. *)
Fixpoint bump (acc : list (list string * nat)) (p : list string) : list (list string * nat) :=
  match acc with
  | [] => [(p, 1%nat)]
  | (q, n) :: acc' => if pattern_eqb q p then (q, S n) :: acc' else (q, n) :: bump acc' p
  end.

Definition count_patterns (patterns : list (list string)) : list (list string * nat) :=
  fold_left bump patterns [].

(** [tuple(filtered_sequence[j]['chord'] for j in range(i, i + length))] *)
Definition pattern_at (filtered : list segment) (i len : nat) : list string :=
  map chord (firstn len (skipn i filtered)).

Definition windows (filtered : list segment) (len : nat) : list (list string) :=
  filter (fun p => negb (existsb is_cluster_label p))
         (map (fun i => pattern_at filtered i len) (seq 0 (length filtered - (len - 1)))).

Definition sum_durations (l : list segment) : Q := fold_right (fun s acc => duration s + acc) 0 l.

Record progression_info := {
  progression : list string;
  count : nat;
  prog_length : nat;
  avg_duration : Q;
  function : string
}.

Section Mining.

(** [_analyze_chord_function]: a name for the pattern; it does not affect
    which patterns are kept or their order. *)
Variable analyze_chord_function : list string -> string.

(** The progressions of one length: a pattern is kept when its count is at
    least [max(2, int(len(filtered) / (length * 2)))] and the average
    duration of [filtered_sequence[i]] for [i in range(len(pattern))] is at
    least [min_progression_duration]. *)
Definition progressions_of_length (cfg : config) (filtered : list segment) (len : nat)
    : list progression_info :=
  flat_map (fun '(pattern, cnt) =>
              if (Nat.max 2 (length filtered / (len * 2)) <=? cnt)%nat then
                let avg := sum_durations (firstn (length pattern) filtered) / inject_Z (Z.of_nat len) in
                if Qle_bool (min_progression_duration cfg) avg
                then [{| progression := pattern; count := cnt; prog_length := len;
                         avg_duration := avg; function := analyze_chord_function pattern |}]
                else []
              else [])
           (count_patterns (windows filtered len)).

(** The key [(x['count'], -x['length'])] of [sorted(..., reverse=True)]:
    [key_gt p q] when the key of [p] is larger. *)
Definition key_gt (p q : progression_info) : bool :=
  (count q <? count p)%nat || ((count p =? count q)%nat && (prog_length p <? prog_length q)%nat).

Fixpoint insert_prog (x : progression_info) (l : list progression_info) : list progression_info :=
  match l with
  | [] => [x]
  | y :: l' => if key_gt y x then y :: insert_prog x l' else x :: y :: l'
  end.

Definition sort_progressions (l : list progression_info) : list progression_info :=
  fold_right insert_prog [] l.

Definition detect_chord_progression (cfg : config) (simplified_sequence : list segment)
    : list progression_info :=
  match simplified_sequence with
  | [] => []
  | _ :: _ =>
      let filtered := filter_from cfg None simplified_sequence in
      let all_progressions :=
        flat_map (fun len => if (length filtered <=? len)%nat then []
                             else progressions_of_length cfg filtered len) [2; 4]%nat in
      firstn 3 (sort_progressions all_progressions)
  end.

End Mining.

(** The order of the result: count descending, then length ascending. *)
Definition ranked_before (p q : progression_info) : Prop :=
  (count q < count p)%nat \/ (count p = count q /\ (prog_length p <= prog_length q)%nat).

Fixpoint ranked (l : list progression_info) : Prop :=
  match l with
  | x :: ((y :: _) as rest) => ranked_before x y /\ ranked rest
  | _ => True
  end.

(** A segment as it leaves the first loop when it is neither dropped nor
    merged. *)
Definition fseg (s : segment) : segment :=
  {| chord := chord s; start_time := start_time s; end_time := end_time s;
     duration := end_time s - start_time s |}.

(** The first loop keeps [s] (it is neither a short cluster nor short). *)
Definition kept (cfg : config) (s : segment) : bool :=
  negb (is_cluster_label (chord s) && qlt (duration s) (min_progression_duration cfg)) &&
  negb (qlt (duration s) (min_chord_duration cfg)).

Fixpoint adjacent_distinct (c : string) (l : list segment) : Prop :=
  match l with
  | [] => True
  | s :: rest => chord s <> c /\ adjacent_distinct (chord s) rest
  end.

(** [windows] read on the chord names alone. *)
Definition chord_windows (chords : list string) (len : nat) : list (list string) :=
  filter (fun p => negb (existsb is_cluster_label p))
         (map (fun i => firstn len (skipn i chords)) (seq 0 (length chords - (len - 1)))).

End Progressions.

(** Eight 3-second segments alternating C major and G major. *)
Definition alternating_segments : list segment :=
  map (fun i => {| chord := if Nat.even i then "C:maj" else "G:maj";
                   start_time := inject_Z (3 * Z.of_nat i);
                   end_time := inject_Z (3 * Z.of_nat i + 3);
                   duration := 3 |})
      (seq 0 8).

(** ** Key estimation ([estimate_key]) *)

Module KeyEstimation.

Definition root_notes : list string :=
  ["C"; "C#"; "D"; "D#"; "E"; "F"; "F#"; "G"; "G#"; "A"; "A#"; "B"].

(** [f"{root_notes[i]} {mode}"] *)
Definition key_name (i : nat) (mode : string) : string :=
  (nth i root_notes "" ++ " " ++ mode)%string.

(** The 24 keys in the order the per-method dicts insert them. *)
Definition key_labels : list string :=
  flat_map (fun i => [key_name i "Major"; key_name i "Minor"]) (seq 0 12).

(** [d[k] = f(d.get(k, dflt))] on an insertion-ordered dict. *)
Fixpoint dict_update {A} (k : string) (f : A -> A) (dflt : A)
    (d : list (string * A)) : list (string * A) :=
  match d with
  | [] => [(k, f dflt)]
  | (k', v) :: d' =>
      if String.eqb k k' then (k', f v) :: d' else (k', v) :: dict_update k f dflt d'
  end.

(** [list.index(x)]; [None] is the [ValueError]. *)
Fixpoint index_of (x : string) (l : list string) : option nat :=
  match l with
  | [] => None
  | y :: l' => if String.eqb x y then Some 0%nat
               else option_map S (index_of x l')
  end.

(** [str.split()] for strings whose only whitespace is the space. *)
Definition py_split_ws (s : string) : list string :=
  filter (fun w => negb (String.eqb w "")) (split_on " " s).

Definition KS_MAJOR : list Q :=
  [635#100; 223#100; 348#100; 233#100; 438#100; 409#100;
   252#100; 519#100; 239#100; 366#100; 229#100; 288#100].
Definition KS_MINOR : list Q :=
  [633#100; 268#100; 352#100; 538#100; 260#100; 353#100;
   254#100; 475#100; 398#100; 269#100; 334#100; 317#100].
Definition TKP_MAJOR : list Q :=
  [748#1000; 60#1000; 488#1000; 82#1000; 670#1000; 460#1000;
   96#1000; 715#1000; 104#1000; 366#1000; 57#1000; 400#1000].
Definition TKP_MINOR : list Q :=
  [712#1000; 84#1000; 474#1000; 618#1000; 49#1000; 460#1000;
   105#1000; 747#1000; 404#1000; 67#1000; 133#1000; 330#1000].

(** [functions] of [analyze_chord_progressions], by chord type. *)
Definition chord_functions_of (chord_type : string) : list (string * list string) :=
  if existsb (String.eqb chord_type) ["maj"; "maj7"; "maj6"] then
    [("Major", ["I"; "IV"; "V"]); ("Minor", ["III"; "VI"; "VII"])]
  else if existsb (String.eqb chord_type) ["min"; "min7"; "min6"] then
    [("Major", ["ii"; "iii"; "vi"]); ("Minor", ["i"; "iv"; "v"])]
  else if existsb (String.eqb chord_type) ["7"; "9"; "11"] then
    [("Major", ["V"]); ("Minor", ["V"])]
  else [("Major", []); ("Minor", [])].

Definition ML_CHORD_TYPES : list string :=
  ["maj"; "min"; "7"; "maj7"; "min7"; "dim"; "aug"; "sus2"; "sus4"].

(** [weights] of [combine_key_scores], in dict order. *)
Definition KEY_WEIGHTS : list (string * Q) :=
  [("krumhansl", 2#10); ("temperley", 2#10); ("chord_prog", 3#10);
   ("chroma_stats", 1#10); ("ml", 2#10)].

(** The estimator is written over a number type [num] with the operations of
    numpy's doubles that it uses: literals, [+ - * /], [sqrt] and [>]. *)
Section Estimator.
Variable num : Type.
Variable of_Q : Q -> num.
Variables add sub mul div : num -> num -> num.
Variable sqrt_ : num -> num.
Variable gt : num -> num -> bool.

Definition of_nat (n : nat) : num := of_Q (inject_Z (Z.of_nat n)).

(** [np.sum] *)
Definition nsum (l : list num) : num := fold_left add l (of_Q 0).

(** [np.sum(a * b)] *)
Definition ndot (a b : list num) : num :=
  nsum (map (fun p => mul (fst p) (snd p)) (combine a b)).

(** [np.mean] of a vector *)
Definition nmean (v : list num) : num := div (nsum v) (of_nat (length v)).

(** [np.var] of a vector (population variance) *)
Definition nvar (v : list num) : num :=
  let m := nmean v in
  div (nsum (map (fun x => mul (sub x m) (sub x m)) v)) (of_nat (length v)).

(** [np.roll(a, k)] *)
Definition np_roll (a : list num) (k : nat) : list num :=
  let n := length a in
  let k' := k mod n in
  skipn (n - k') a ++ firstn (n - k') a.

(** [np.clip(x, -1, 1)]; a NaN stays NaN since both comparisons fail. *)
Definition clip (x : num) : num :=
  let y := if gt (of_Q (-1)) x then of_Q (-1) else x in
  if gt y (of_Q 1) then of_Q 1 else y.

(** [np.corrcoef(x, y)[0, 1]]: the covariance with [ddof = 1], divided by
    the standard deviation of [x] and then by that of [y], then clipped. *)
Definition corrcoef01 (x y : list num) : num :=
  let dx := map (fun a => sub a (nmean x)) x in
  let dy := map (fun a => sub a (nmean y)) y in
  let scale := div (of_Q 1) (of_nat (length x - 1)) in
  let cxy := mul (ndot dx dy) scale in
  let cxx := mul (ndot dx dx) scale in
  let cyy := mul (ndot dy dy) scale in
  clip (div (div cxy (sqrt_ cxx)) (sqrt_ cyy)).

(** The dict filled by [scores[f"{root} Major"] = ...; scores[f"{root} Minor"] = ...]
    for [i] in [range(12)]; its 24 keys are distinct. *)
Definition key_scores (major minor : nat -> num) : list (string * num) :=
  flat_map (fun i => [(key_name i "Major", major i); (key_name i "Minor", minor i)])
           (seq 0 12).

Definition normalize_profile (p : list num) : list num :=
  map (fun x => div x (nsum p)) p.

Definition krumhansl_schmuckler (chroma_vector : list num) : list (string * num) :=
  let major_profile := normalize_profile (map of_Q KS_MAJOR) in
  let minor_profile := normalize_profile (map of_Q KS_MINOR) in
  key_scores (fun i => corrcoef01 (np_roll major_profile i) chroma_vector)
             (fun i => corrcoef01 (np_roll minor_profile i) chroma_vector).

Definition temperley_kostka_payne (chroma_vector : list num) : list (string * num) :=
  key_scores (fun i => ndot (np_roll (map of_Q TKP_MAJOR) i) chroma_vector)
             (fun i => ndot (np_roll (map of_Q TKP_MINOR) i) chroma_vector).

(** [chord_functions[mode][function] += duration] for every function of the
    chord; a label that does not split into two parts on [':'] raises a
    [ValueError] that skips it. *)
Definition add_chord_functions (cf : list (string * list (string * num)))
    (s : segment) : list (string * list (string * num)) :=
  if String.eqb (chord s) "N" then cf
  else match split_on ":" (chord s) with
       | [root; chord_type] =>
           fold_left (fun cf mf =>
               fold_left (fun cf f =>
                   dict_update (fst mf)
                     (fun inner => dict_update f (fun x => add x (of_Q (duration s)))
                                                 (of_Q 0) inner) [] cf)
                 (snd mf) cf)
             (chord_functions_of chord_type) cf
       | _ => cf
       end.

Definition analyze_chord_progressions (chord_sequence : list segment)
    : list (string * list (string * num)) :=
  fold_left add_chord_functions chord_sequence [].

Definition analyze_chroma_statistics (chroma : list (list num)) : list (string * num) :=
  let mean_chroma := map nmean chroma in
  let var_chroma := map nvar chroma in
  let strength := map (fun m => div m (nsum mean_chroma)) mean_chroma in
  let stability := map (fun v => div (of_Q 1) (add (of_Q 1) v)) var_chroma in
  let importance := map (fun p => mul (fst p) (snd p)) (combine strength stability) in
  key_scores (fun i => nth i importance (of_Q 0)) (fun i => nth i importance (of_Q 0)).

(** [chord_types[t] += duration] over the labels; a label without [':']
    raises an [IndexError] that skips it. *)
Definition add_chord_type (ct : list (string * num)) (s : segment) : list (string * num) :=
  if String.eqb (chord s) "N" then ct
  else match split_on ":" (chord s) with
       | _ :: chord_type :: _ =>
           dict_update chord_type (fun x => add x (of_Q (duration s))) (of_Q 0) ct
       | _ => ct
       end.

Definition ml_key_detection (chroma_vector : list num) (chord_sequence : list segment)
    : list (string * num) :=
  let ct := fold_left add_chord_type chord_sequence [] in
  let total_duration := nsum (map snd ct) in
  let ct' := if gt total_duration (of_Q 0)
             then map_snd (fun v => div v total_duration) ct else ct in
  let features := chroma_vector ++
                  map (fun t => match lookup t ct' with Some v => v | None => of_Q 0 end)
                      ML_CHORD_TYPES in
  let f i := nth i features (of_Q 0) in
  key_scores
    (fun i => add (add (add (of_Q 0) (mul (f i) (of_Q 2)))
                       (mul (f ((i + 7) mod 12)) (of_Q (15#10))))
                  (mul (f ((i + 4) mod 12)) (of_Q (12#10))))
    (fun i => add (add (add (of_Q 0) (mul (f i) (of_Q 2)))
                       (mul (f ((i + 7) mod 12)) (of_Q (15#10))))
                  (mul (f ((i + 3) mod 12)) (of_Q (12#10)))).

(** The values of [methods_scores]: four flat dicts of key scores, and the
    nested dict of [analyze_chord_progressions]. *)
Inductive method_result :=
| Flat (d : list (string * num))
| Nested (d : list (string * list (string * num))).

Definition method_keys (m : method_result) : list string :=
  match m with Flat d => map fst d | Nested d => map fst d end.

(** [methods_scores[method].get(key, 0) * weight]; multiplying the inner dict
    of the nested result by a float raises a [TypeError] ([None]). *)
Definition weighted_term (m : method_result) (key : string) (w : Q) : option num :=
  match m with
  | Flat d => Some (mul (match lookup key d with Some v => v | None => of_Q 0 end) (of_Q w))
  | Nested d => match lookup key d with
                | Some _ => None
                | None => Some (mul (of_Q 0) (of_Q w))
                end
  end.

Definition combined_score (methods_scores : list (string * method_result)) (key : string)
    : option num :=
  fold_left (fun acc nw =>
      match acc with
      | None => None
      | Some a => match lookup (fst nw) methods_scores with
                  | None => Some a
                  | Some m => option_map (add a) (weighted_term m key (snd nw))
                  end
      end) KEY_WEIGHTS (Some (of_Q 0)).

(** The keys of the first non-empty method dict. *)
Definition available_keys (methods_scores : list (string * method_result)) : list string :=
  match find (fun m => match method_keys m with [] => false | _ => true end)
             (map snd methods_scores) with
  | Some m => method_keys m
  | None => []
  end.

(** [combine_key_scores]; an exception is caught and gives [{}]. *)
Definition combine_key_scores (methods_scores : list (string * method_result))
    : list (string * num) :=
  match available_keys methods_scores with
  | [] => []
  | keys => match map_option (fun key => option_map (pair key)
                                            (combined_score methods_scores key)) keys with
            | Some fs => fs
            | None => []
            end
  end.

(** [max(final_scores.items(), key=lambda x: x[1])]: the first item whose
    score no later item exceeds. *)
Definition py_max (items : list (string * num)) : option (string * num) :=
  match items with
  | [] => None
  | p :: rest => Some (fold_left (fun best q => if gt (snd q) (snd best) then q else best)
                                 rest p)
  end.

(** Steps 4 and 5 of [estimate_key] on a non-empty [final_scores]; the
    value [v] of the winning item is [final_scores[estimated_key]].  An
    [IndexError] or [ValueError] reaches the outer handler. *)
Definition finalize_key (final_scores : list (string * num)) : string :=
  match py_max final_scores with
  | None => "Unknown Key"
  | Some (estimated_key, v) =>
      if str_ends_with "Major" estimated_key then
        match py_split_ws estimated_key with
        | [] => "Unknown Key"
        | w :: _ =>
            match index_of w root_notes with
            | None => "Unknown Key"
            | Some idx =>
                let relative_minor := (nth ((idx + 9) mod 12) root_notes "" ++ " Minor")%string in
                match lookup relative_minor final_scores with
                | Some s => if gt s (mul v (of_Q (9#10))) then relative_minor
                            else estimated_key
                | None => estimated_key
                end
            end
        end
      else estimated_key
  end.

(** Step 1: [np.sum(chroma, axis=1)], normalized, or the uniform vector. *)
Definition key_chroma_vector (chroma : list (list num)) : list num :=
  let cv := map nsum chroma in
  if gt (nsum cv) (of_Q 0) then map (fun x => div x (nsum cv)) cv
  else repeat (div (of_Q 1) (of_Q 12)) 12.

(** Step 2: [methods_scores]. *)
Definition key_methods_scores (chroma : list (list num)) (chroma_vector : list num)
    (chord_sequence : list segment) : list (string * method_result) :=
  [("krumhansl", Flat (krumhansl_schmuckler chroma_vector));
   ("temperley", Flat (temperley_kostka_payne chroma_vector));
   ("chord_prog", Nested (analyze_chord_progressions chord_sequence));
   ("chroma_stats", Flat (analyze_chroma_statistics chroma));
   ("ml", Flat (ml_key_detection chroma_vector chord_sequence))].

(** [estimate_key chroma chord_sequence], for the 12-row chroma matrix given
    as its rows. *)
Definition estimate_key (chroma : list (list num)) (chord_sequence : list segment) : string :=
  let final_scores :=
    combine_key_scores (key_methods_scores chroma (key_chroma_vector chroma) chord_sequence) in
  match final_scores with
  | [] => "Unknown Key"
  | _ => finalize_key final_scores
  end.

End Estimator.

Arguments Flat {num} d.
Arguments Nested {num} d.

End KeyEstimation.

(** Doubles as exact reals extended with the two infinities and NaN;
    rounding and the sign of zero are not modelled. *)
Module Double.
Open Scope R_scope.

Inductive fl : Type := Fin (r : R) | PInf | NInf | NaN.

Definition of_Q (q : Q) : fl := Fin (Q2R q).

Definition inf_of_sign (a : R) : fl := if Rlt_dec 0 a then PInf else NInf.

Definition fneg (x : fl) : fl :=
  match x with Fin a => Fin (- a) | PInf => NInf | NInf => PInf | NaN => NaN end.

Definition fadd (x y : fl) : fl :=
  match x with
  | NaN => NaN
  | PInf => match y with NaN | NInf => NaN | _ => PInf end
  | NInf => match y with NaN | PInf => NaN | _ => NInf end
  | Fin a => match y with Fin b => Fin (a + b) | _ => y end
  end.

Definition fsub (x y : fl) : fl := fadd x (fneg y).

Definition fmul (x y : fl) : fl :=
  match x, y with
  | NaN, _ => NaN
  | _, NaN => NaN
  | Fin a, Fin b => Fin (a * b)
  | Fin a, PInf | PInf, Fin a => if Req_EM_T a 0 then NaN else inf_of_sign a
  | Fin a, NInf | NInf, Fin a => if Req_EM_T a 0 then NaN else fneg (inf_of_sign a)
  | PInf, PInf | NInf, NInf => PInf
  | PInf, NInf | NInf, PInf => NInf
  end.

Definition fdiv (x y : fl) : fl :=
  match x, y with
  | NaN, _ => NaN
  | _, NaN => NaN
  | Fin a, Fin b =>
      if Req_EM_T b 0 then (if Req_EM_T a 0 then NaN else inf_of_sign a)
      else Fin (a / b)
  | Fin _, _ => Fin 0
  | PInf, Fin b => if Req_EM_T b 0 then PInf else inf_of_sign b
  | NInf, Fin b => if Req_EM_T b 0 then NInf else fneg (inf_of_sign b)
  | _, _ => NaN
  end.

Definition fsqrt (x : fl) : fl :=
  match x with
  | Fin a => if Rlt_dec a 0 then NaN else Fin (sqrt a)
  | PInf => PInf
  | _ => NaN
  end.

(** [x > y]; every comparison with a NaN is false. *)
Definition fgt (x y : fl) : bool :=
  match x, y with
  | NaN, _ | _, NaN => false
  | PInf, PInf => false
  | PInf, _ => true
  | NInf, _ => false
  | Fin _, PInf => false
  | Fin _, NInf => true
  | Fin a, Fin b => if Rlt_dec b a then true else false
  end.

Definition estimate_key : list (list fl) -> list segment -> string :=
  KeyEstimation.estimate_key fl of_Q fadd fsub fmul fdiv fsqrt fgt.

Definition finalize_key : list (string * fl) -> string :=
  KeyEstimation.finalize_key fl of_Q fmul fgt.

Definition py_max : list (string * fl) -> option (string * fl) :=
  KeyEstimation.py_max fl fgt.

End Double.

(** A silent chroma matrix: 12 pitch classes, 4 frames, no energy. *)
Definition silent_chroma : list (list R) := repeat (repeat 0%R 4) 12.

(** ** Sequence simplification ([simplify_chord_sequence]) *)

Module Simplify.
Open Scope Q_scope.

(** The loop of [simplify_chord_sequence].  [prev] is [prev_chord], the last
    entry of [simplified]: the code appends the input dict itself and later
    widens it in place through [prev_chord], so the entry stays open to
    merging until a different chord is appended or the loop ends.  (The
    in-place update also changes the caller's dict; the only caller,
    [analyze_youtube_video], does not read the time-based sequence again.) *)
Fixpoint simplify_from (min_duration : Q) (prev : option segment) (segs : list segment)
    : list segment :=
  match segs with
  | [] => match prev with Some p => [p] | None => [] end
  | s :: rest =>
      if String.eqb (chord s) "N" || Progressions.qlt (duration s) min_duration
      then simplify_from min_duration prev rest
      else match prev with
           | Some p =>
               if String.eqb (chord p) (chord s)
               then simplify_from min_duration
                      (Some {| chord := chord p; start_time := start_time p;
                               end_time := end_time s;
                               duration := end_time s - start_time p |}) rest
               else p :: simplify_from min_duration (Some s) rest
           | None => simplify_from min_duration (Some s) rest
           end
  end.

Definition simplify_chord_sequence (chord_sequence : list segment) (min_duration : Q)
    : list segment :=
  simplify_from min_duration None chord_sequence.

(** The default [min_duration=0.5]. *)
Definition default_min_duration : Q := 1#2.

End Simplify.

(** ** Naming a progression ([_analyze_chord_function]) *)

Module ChordFunction.

(** [":" in chord] *)
Definition has_colon (s : string) : bool :=
  existsb (fun c => Ascii.eqb c ":") (list_ascii_of_string s).

(** One step of the first loop: a chord that is not ["N"] and has a colon
    contributes [chord.split(":")[1]]; any other chord resets the list. *)
Definition collect_chord_type (chord_types : list string) (chord : string) : list string :=
  if negb (String.eqb chord "N") && has_colon chord
  then chord_types ++ [nth 1 (split_on ":" chord) ""]
  else [].

Definition chord_types_of (progression : list string) : list string :=
  fold_left collect_chord_type progression [].

(** The dict literal [common_patterns], entry by entry as written. *)
Definition common_patterns_literal : list (list string * string) := [
  (["maj"; "maj"; "min"; "maj"], "I-IV-ii-V (Major key)");
  (["maj"; "min"; "maj"; "maj"], "I-ii-V-IV (Major key)");
  (["maj"; "min"; "maj"], "I-vi-IV (Major key)");
  (["maj"; "maj"; "min"; "maj"], "I-V-vi-IV (Pop progression)");
  (["min"; "maj"; "maj"], "vi-IV-V (Major key)");
  (["maj"; "maj"; "maj"; "maj"], "I-V-vi-IV (Major key)");
  (["maj"; "min"; "min"; "maj"], "I-vi-ii-V (Jazz turnaround)");
  (["min"; "dim"; "maj"; "min"], "i-ii-III-iv (Minor key)");
  (["min"; "maj"; "min"], "i-III-VII (Minor key)");
  (["min"; "min"; "maj"; "maj"], "i-iv-III-VII (Minor key)");
  (["min"; "maj"; "maj"; "min"], "i-III-VII-iv (Minor key)");
  (["min"; "maj"; "min"; "maj"], "i-VII-vi-III (Minor key)");
  (["7"; "7"; "7"; "7"], "I7-IV7-V7-IV7 (Blues)");
  (["7"; "7"; "7"], "I7-IV7-V7 (Blues)");
  (["maj7"; "min7"; "7"; "maj7"], "IMaj7-iim7-V7-IMaj7 (Jazz)");
  (["min7"; "7"; "maj7"], "iim7-V7-IMaj7 (Jazz ii-V-I)");
  (["min7"; "hdim7"; "7"; "min7"], "iim7-V7/V-V7-im7 (Jazz minor)")].

(** [d[k] = v] on an insertion-ordered dict with tuple keys: a repeated key
    keeps its first position and takes the later value. *)
Fixpoint dict_set (d : list (list string * string)) (k : list string) (v : string)
    : list (list string * string) :=
  match d with
  | [] => [(k, v)]
  | (k', v') :: d' =>
      if Progressions.pattern_eqb k' k then (k', v) :: d' else (k', v') :: dict_set d' k v
  end.

(** The dict the literal builds. *)
Definition common_patterns : list (list string * string) :=
  fold_left (fun d '(k, v) => dict_set d k v) common_patterns_literal [].

(** [chord_type_tuple[i:i+pattern_len] == pattern] for some
    [i in range(len(chord_type_tuple) - pattern_len + 1)], under the guard
    [pattern_len <= len(chord_type_tuple)]. *)
Definition occurs_in (pattern chord_type_tuple : list string) : bool :=
  (length pattern <=? length chord_type_tuple)%nat &&
  existsb (fun i => Progressions.pattern_eqb
                      (firstn (length pattern) (skipn i chord_type_tuple)) pattern)
          (seq 0 (length chord_type_tuple - length pattern + 1)).

(** The loop over [common_patterns.items()]: the name of the first pattern
    that occurs. *)
Fixpoint first_match (patterns : list (list string * string)) (chord_type_tuple : list string)
    : option string :=
  match patterns with
  | [] => None
  | (pattern, name) :: rest =>
      if occurs_in pattern chord_type_tuple then Some name else first_match rest chord_type_tuple
  end.

Definition mem_pattern (p : list string) (l : list (list string)) : bool :=
  existsb (Progressions.pattern_eqb p) l.

(** The cadence tests on [tuple(chord_types[-2:])], and the fallback. *)
Definition cadence_name (chord_types : list string) : string :=
  if (2 <=? length chord_types)%nat then
    let last_two := skipn (length chord_types - 2) chord_types in
    if mem_pattern last_two [["7"; "maj"]; ["maj"; "maj"]] then "Authentic Cadence"
    else if mem_pattern last_two [["maj"; "7"]; ["7"; "7"]] then "Half Cadence"
    else if mem_pattern last_two [["maj"; "min"]; ["min"; "maj"]] then "Deceptive Cadence"
    else if mem_pattern last_two [["maj"; "maj7"]; ["7"; "maj7"]] then "Jazz Cadence"
    else "Custom Progression"
  else "Custom Progression".

Definition analyze_chord_function (progression : list string) : string :=
  match chord_types_of progression with
  | [] => "Unknown"
  | chord_types =>
      match first_match common_patterns chord_types with
      | Some name => name
      | None => cadence_name chord_types
      end
  end.

End ChordFunction.

(** ** Chord statistics ([_calculate_distribution], [_analyze_transitions],
    [_analyze_chord_progressions], [_calculate_harmonic_context],
    [_calculate_chord_error]) *)

Module Features.
Open Scope Q_scope.

(** [counts[item] = counts.get(item, 0) + 1] over [items]. *)
Definition count_items (items : list string) : list (string * nat) :=
  fold_left (fun counts item => KeyEstimation.dict_update item S 0%nat counts) items [].

Definition ratio (v total : nat) : Q := inject_Z (Z.of_nat v) / inject_Z (Z.of_nat total).

Definition calculate_distribution (items : list string) : list (string * Q) :=
  let total := length items in
  map (fun '(k, v) => (k, ratio v total)) (count_items items).

(** [f"{sequence[i]}-{sequence[i+1]}"] for [i in range(len(sequence) - 1)]. *)
Definition transition_strings (sequence : list string) : list string :=
  map (fun i => (nth i sequence "" ++ "-" ++ nth (S i) sequence "")%string)
      (seq 0 (length sequence - 1)).

Definition analyze_transitions (sequence : list string) : list (string * Q) :=
  let transitions := count_items (transition_strings sequence) in
  let total := fold_left Nat.add (map snd transitions) 0%nat in
  if (0 <? total)%nat then map (fun '(k, v) => (k, ratio v total)) transitions else [].

(** [a, b = s.split(':')]; [None] is the [ValueError] when [s] does not
    have exactly one colon. *)
Definition split_pair (s : string) : option (string * string) :=
  match split_on ":" s with
  | [a; b] => Some (a, b)
  | _ => None
  end.

(** The dict [features] of [_analyze_chord_progressions]. *)
Record progression_features := {
  chord_type_distribution : list (string * Q);
  root_distribution : list (string * Q);
  avg_duration : Q;
  duration_std : R;
  chord_transitions : list (string * Q);
  root_transitions : list (string * Q)
}.

(** The loop: ["N"] and labels that do not split into two parts are
    skipped; the others give a type, a root and a duration. *)
Fixpoint collect_parts (chords : list segment) : list string * list string * list Q :=
  match chords with
  | [] => ([], [], [])
  | s :: rest =>
      let '(types, roots, durs) := collect_parts rest in
      if String.eqb (chord s) "N" then (types, roots, durs)
      else match split_pair (chord s) with
           | Some (root, chord_type) => (chord_type :: types, root :: roots, duration s :: durs)
           | None => (types, roots, durs)
           end
  end.

Definition q_mean (xs : list Q) : Q :=
  fold_left Qplus xs 0 / inject_Z (Z.of_nat (length xs)).

(** [np.std]: the population standard deviation. *)
Definition q_std (xs : list Q) : R :=
  sqrt (Q2R (fold_left Qplus (map (fun x => (x - q_mean xs) * (x - q_mean xs)) xs) 0
             / inject_Z (Z.of_nat (length xs)))).

(** [None] is the empty dict returned for an empty list of chords. *)
Definition analyze_chord_progressions (chords : list segment) : option progression_features :=
  match chords with
  | [] => None
  | _ :: _ =>
      let '(chord_types, chord_roots, durations) := collect_parts chords in
      Some {| chord_type_distribution := calculate_distribution chord_types;
              root_distribution := calculate_distribution chord_roots;
              avg_duration := match durations with [] => 0 | _ => q_mean durations end;
              duration_std := match durations with [] => 0%R | _ => q_std durations end;
              chord_transitions := analyze_transitions chord_types;
              root_transitions := analyze_transitions chord_roots |}
  end.

(** [progression.get(name, {})] *)
Definition get_distribution (sel : progression_features -> list (string * Q))
    (progression : option progression_features) : list (string * Q) :=
  match progression with Some f => sel f | None => [] end.

Definition calculate_harmonic_context (chord : string) (progression : option progression_features)
    : Q :=
  let chord_type := if ChordFunction.has_colon chord then nth 1 (split_on ":" chord) "" else chord in
  let score := match lookup chord_type (get_distribution chord_type_distribution progression) with
               | Some v => 0 + v | None => 0 end in
  let root := if ChordFunction.has_colon chord then nth 0 (split_on ":" chord) "" else chord in
  match lookup root (get_distribution root_distribution progression) with
  | Some v => score + v
  | None => score
  end.

(** The weights [0.7] and [0.3] are read as exact rationals. *)
Definition calculate_chord_error (predicted true_ : string) : Q :=
  if String.eqb predicted "N" || String.eqb true_ "N" then 1
  else match split_pair predicted, split_pair true_ with
       | Some (pred_root, pred_type), Some (true_root, true_type) =>
           (7#10) * (if String.eqb pred_root true_root then 0 else 1) +
           (3#10) * (if String.eqb pred_type true_type then 0 else 1)
       | _, _ => 1
       end.

End Features.

(** ** Signal features ([_find_peaks], [_calculate_entropy],
    [_calculate_pitch_class_distribution]) *)

Module Signal.
Open Scope R_scope.

(** [_find_peaks] over any element type with its [>]. *)
Definition find_peaks {A} (gt : A -> A -> bool) (d : A) (signal : list A) : list nat :=
  filter (fun i => gt (nth i signal d) (nth (i - 1) signal d) &&
                   gt (nth i signal d) (nth (S i) signal d))
         (seq 1 (length signal - 2)).

Definition log2 (x : R) : R := ln x / ln 2.

Definition rsum (l : list R) : R := fold_right Rplus 0 l.

Definition positive (p : R) : bool := if Rlt_dec 0 p then true else false.

(** [-np.sum(d * np.log2(d))] over [d = distribution[distribution > 0]]. *)
Definition calculate_entropy (distribution : list R) : R :=
  - rsum (map (fun p => p * log2 p) (filter positive distribution)).

Definition row_mean (row : list R) : R := rsum row / INR (length row).

Definition row_var (row : list R) : R :=
  rsum (map (fun x => (x - row_mean row) * (x - row_mean row)) row) / INR (length row).

Definition gt_real (a b : R) : bool := if Rlt_dec b a then true else false.

Record pitch_features := {
  pitch_strength : list R;
  pitch_stability : list R;
  pitch_entropy : R;
  pitch_peaks : list nat;
  pitch_contrast : R
}.

(** [np.max(strength) - np.min(strength)] *)
Definition contrast (strength : list R) : R :=
  fold_left Rmax (tl strength) (hd 0 strength) - fold_left Rmin (tl strength) (hd 0 strength).

Definition calculate_pitch_class_distribution (chroma : list (list R)) : pitch_features :=
  let mean_chroma := map row_mean chroma in
  let var_chroma := map row_var chroma in
  let strength := if Rlt_dec 0 (rsum mean_chroma)
                  then map (fun m => m / rsum mean_chroma) mean_chroma
                  else repeat (1 / 12) 12 in
  {| pitch_strength := strength;
     pitch_stability := map (fun v => 1 / (1 + v)) var_chroma;
     pitch_entropy := calculate_entropy strength;
     pitch_peaks := find_peaks gt_real 0 strength;
     pitch_contrast := contrast strength |}.

End Signal.

(** * Properties *)

(** ** Lists *)

Lemma length_set_nth {A} (l : list A) i x : length (set_nth l i x) = length l.
Proof. revert i; induction l as [|h t IH]; intros [|i]; simpl; auto. Qed.

Lemma nth_set_nth_eq {A} (l : list A) i x d :
  (i < length l)%nat -> nth i (set_nth l i x) d = x.
Proof.
  revert i; induction l as [|h t IH]; intros [|i] Hi; simpl in *; try lia; auto.
  apply IH; lia.
Qed.

Lemma nth_set_nth_neq {A} (l : list A) i j x d :
  i <> j -> nth j (set_nth l i x) d = nth j l d.
Proof.
  revert i j; induction l as [|h t IH]; intros [|i] [|j] Hij; simpl; auto; try lia.
Qed.

(** ** Template bank *)

Module TemplateFacts.
Import Templates.
Open Scope R_scope.

Lemma sqnorm_nonneg v : 0 <= sqnorm v.
Proof. induction v as [|x v IH]; simpl; nra. Qed.

Lemma sqnorm_map_div v c :
  c <> 0 -> sqnorm (map (fun x => x / c) v) = sqnorm v / (c * c).
Proof.
  intros Hc; induction v as [|x v IH]; simpl.
  - field; auto.
  - rewrite IH; field; auto.
Qed.

Lemma nth_sq_le_sqnorm v k : nth k v 0 * nth k v 0 <= sqnorm v.
Proof.
  revert k; induction v as [|x v IH]; intros [|k]; simpl.
  - lra.
  - lra.
  - pose proof (sqnorm_nonneg v); lra.
  - specialize (IH k); nra.
Qed.

Lemma l2norm_pos v : sqnorm v <> 0 -> 0 < l2norm v.
Proof.
  intros H; unfold l2norm; apply sqrt_lt_R0.
  pose proof (sqnorm_nonneg v); lra.
Qed.

(** Normalising a non-zero vector gives a unit vector. *)
Lemma normalize_unit v : sqnorm v <> 0 -> l2norm (normalize v) = 1.
Proof.
  intros H; pose proof (l2norm_pos v H) as Hp.
  unfold normalize; cbv zeta; destruct (Req_EM_T (l2norm v) 0) as [E|_]; [lra|].
  unfold l2norm at 1; rewrite sqnorm_map_div by lra.
  unfold l2norm; rewrite sqrt_sqrt by apply sqnorm_nonneg.
  replace (sqnorm v / sqnorm v) with 1 by (field; auto).
  apply sqrt_1.
Qed.

Lemma nth_normalize v k :
  (k < length v)%nat -> sqnorm v <> 0 -> nth k (normalize v) 0 = nth k v 0 / l2norm v.
Proof.
  intros Hk H; pose proof (l2norm_pos v H).
  unfold normalize; cbv zeta; destruct (Req_EM_T (l2norm v) 0) as [E|_]; [lra|].
  rewrite (nth_indep (map (fun x => x / l2norm v) v) 0 (0 / l2norm v))
    by (rewrite length_map; auto).
  exact (map_nth (fun x => x / l2norm v) v 0 k).
Qed.

Lemma length_normalize v : length (normalize v) = length v.
Proof. unfold normalize; apply length_map. Qed.

Lemma length_raw_template r ivs : length (raw_template r ivs) = 12%nat.
Proof.
  unfold raw_template; generalize (repeat 0%Z 12) (repeat_length 0%Z 12).
  induction ivs as [|iv ivs IH]; intros t Ht; cbn [fold_left]; auto.
  apply IH; rewrite length_set_nth; auto.
Qed.

Lemma raw_template_keeps_one r ivs t j :
  length t = 12%nat -> nth j t 0%Z = 1%Z ->
  nth j (fold_left (fun t interval => set_nth t ((r + interval) mod 12) 1%Z) ivs t) 0%Z = 1%Z.
Proof.
  revert t; induction ivs as [|iv ivs IH]; intros t Ht Hj; cbn [fold_left]; auto.
  apply IH; [rewrite length_set_nth; auto|].
  destruct (Nat.eq_dec ((r + iv) mod 12) j) as [<-|Hne].
  - apply nth_set_nth_eq; rewrite Ht; apply Nat.mod_upper_bound; lia.
  - rewrite nth_set_nth_neq; auto.
Qed.

Lemma raw_template_one r ivs iv :
  In iv ivs -> nth ((r + iv) mod 12) (raw_template r ivs) 0%Z = 1%Z.
Proof.
  unfold raw_template; generalize (repeat 0%Z 12) (repeat_length 0%Z 12).
  induction ivs as [|iv' ivs IH]; intros t Ht Hin; cbn [fold_left In] in *; [contradiction|].
  destruct Hin as [<-|Hin].
  - apply raw_template_keeps_one; [rewrite length_set_nth; auto|].
    apply nth_set_nth_eq; rewrite Ht; apply Nat.mod_upper_bound; lia.
  - apply IH; auto; rewrite length_set_nth; auto.
Qed.

Lemma raw_template_sqnorm r ivs :
  ivs <> [] -> sqnorm (map IZR (raw_template r ivs)) <> 0.
Proof.
  intros Hne; destruct ivs as [|iv ivs]; [congruence|].
  pose proof (raw_template_one r (iv :: ivs) iv (or_introl eq_refl)) as H1.
  pose proof (nth_sq_le_sqnorm (map IZR (raw_template r (iv :: ivs))) ((r + iv) mod 12)) as H2.
  rewrite map_nth, H1 in H2; simpl in H2; lra.
Qed.

Lemma chord_types_nonempty ty ivs : In (ty, ivs) chord_types -> ivs <> [].
Proof.
  intros H; assert (Hall : forallb (fun p => negb (match snd p with [] => true | _ => false end))
                                   chord_types = true) by reflexivity.
  rewrite forallb_forall in Hall; specialize (Hall _ H); simpl in Hall.
  destruct ivs; simpl in *; congruence.
Qed.

Lemma in_chord_templates rn ri ty ivs :
  In (rn, ri) roots -> In (ty, ivs) chord_types ->
  In (chord_name rn ty, template_of ri ivs) CHORD_TEMPLATES.
Proof.
  intros Hr Ht; unfold CHORD_TEMPLATES; apply in_flat_map.
  exists (rn, ri); split; auto.
  apply (in_map (fun '(chord_type, intervals) =>
                   (chord_name rn chord_type, template_of ri intervals)) _ _ Ht).
Qed.

End TemplateFacts.

(** [C2] For every root and every chord type of the interval table, the
    template stored in the bank is a unit vector (L2 norm 1), its entry at
    pitch class (root + interval) mod 12 is positive for every listed
    interval, and it is not the zero vector because every interval list is
    non-empty. *)
Theorem template_bank_unit_positive (rn : string) (ri : nat) (ty : string) (ivs : list nat) :
  In (rn, ri) roots -> In (ty, ivs) chord_types ->
  In (chord_name rn ty, Templates.template_of ri ivs) Templates.CHORD_TEMPLATES /\
  Templates.l2norm (Templates.template_of ri ivs) = 1%R /\
  (forall iv, In iv ivs -> (0 < nth ((ri + iv) mod 12) (Templates.template_of ri ivs) 0)%R) /\
  ivs <> [] /\
  Templates.template_of ri ivs <> repeat 0%R 12.
Proof.
  intros Hr Ht.
  pose proof (TemplateFacts.chord_types_nonempty _ _ Ht) as Hne.
  pose proof (TemplateFacts.raw_template_sqnorm ri _ Hne) as Hs.
  assert (Hpos : forall iv, In iv ivs ->
            (0 < nth ((ri + iv) mod 12) (Templates.template_of ri ivs) 0)%R).
  { intros iv Hiv; unfold Templates.template_of.
    rewrite TemplateFacts.nth_normalize; auto;
      [| rewrite length_map, TemplateFacts.length_raw_template;
         apply Nat.mod_upper_bound; lia].
    rewrite map_nth, TemplateFacts.raw_template_one by auto.
    pose proof (TemplateFacts.l2norm_pos _ Hs).
    apply Rdiv_lt_0_compat; simpl; lra. }
  split; [apply TemplateFacts.in_chord_templates; auto|].
  split; [apply TemplateFacts.normalize_unit; auto|].
  split; [exact Hpos|].
  split; [exact Hne|].
  intros Hz; destruct ivs as [|iv ivs]; [congruence|].
  specialize (Hpos iv (or_introl eq_refl)); rewrite Hz in Hpos.
  assert (Hk : ((ri + iv) mod 12 < 12)%nat) by (apply Nat.mod_upper_bound; lia).
  rewrite nth_repeat in Hpos; lra.
Qed.

(** The interval list of [maj] (witness of [C2] at root C). *)
Lemma template_bank_unit_positive_witness :
  In ("C", 0%nat) roots /\ In ("maj", [0; 4; 7]%nat) chord_types /\
  Templates.l2norm (Templates.template_of 0 [0; 4; 7]%nat) = 1%R.
Proof.
  split; [simpl; auto|]. split; [simpl; auto|].
  apply (template_bank_unit_positive "C" 0 "maj" [0; 4; 7]%nat); simpl; auto.
Defined.

(** [C2] The stated reason is wrong: the root interval 0 is not in every
    interval list ([rootless7] is [4, 7, 10, 14]; no interval is 0 mod 12). *)
Lemma template_root_interval_not_always_present :
  ~ (forall ty ivs, In (ty, ivs) chord_types -> In 0%nat ivs).
Proof.
  intros H.
  assert (Hin : In ("rootless7", [4; 7; 10; 14]%nat) chord_types) by (simpl; tauto).
  specialize (H _ _ Hin); simpl in H; lia.
Qed.

(** ** Frame-to-time conversion *)

Module ConvertFacts.
Open Scope Q_scope.

Lemma length_convert_from cs sr hop t : length (convert_from cs sr hop t) = length cs.
Proof.
  revert t; induction cs as [|[c f] cs IH]; intros t; simpl; auto.
Qed.

Lemma frames_to_seconds_nonneg f sr hop :
  (0 < sr)%Z -> (0 < hop)%Z -> 0 <= frames_to_seconds f sr hop.
Proof.
  intros Hsr Hhop; unfold frames_to_seconds.
  apply Qle_shift_div_l; [unfold Qlt; simpl; lia|].
  rewrite Qmult_0_l; unfold Qle; simpl; nia.
Qed.

Lemma nth_convert_from cs sr hop t i :
  (i < length cs)%nat ->
  let s := nth i (convert_from cs sr hop t) no_segment in
  chord s = fst (nth i cs ("N", 0%nat)) /\
  end_time s = start_time s + duration s /\
  duration s = frames_to_seconds (snd (nth i cs ("N", 0%nat))) sr hop.
Proof.
  revert t i; induction cs as [|[c f] cs IH]; intros t [|i] Hi; simpl in *; try lia.
  - auto.
  - apply IH; lia.
Qed.

Lemma nth_convert_from_next cs sr hop t i :
  (S i < length cs)%nat ->
  start_time (nth (S i) (convert_from cs sr hop t) no_segment) =
  end_time (nth i (convert_from cs sr hop t) no_segment).
Proof.
  revert t i; induction cs as [|[c f] cs IH]; intros t [|i] Hi; simpl in *; try lia.
  - destruct cs as [|[c' f'] cs]; simpl in *; [lia|reflexivity].
  - apply IH; lia.
Qed.

End ConvertFacts.

(** [C1] For every frame-based chord sequence and positive sample rate and
    hop length, [convert_frames_to_time] returns one segment per pair, with
    the pair's label; the first segment starts at 0, each next segment starts
    exactly where the previous one ends (so the list is sorted by start time,
    non-overlapping and gapless), and every segment's duration equals
    [end_time - start_time] and [frame_count * hop_length / sr]. *)
Theorem convert_frames_to_time_gapless (chord_sequence : list (string * nat)) (sr hop_length : Z) :
  (0 < sr)%Z -> (0 < hop_length)%Z ->
  let segs := convert_frames_to_time chord_sequence sr hop_length in
  length segs = length chord_sequence /\
  (forall s, hd_error segs = Some s -> start_time s == 0)%Q /\
  (forall i, (i < length segs)%nat ->
     let s := nth i segs no_segment in
     chord s = fst (nth i chord_sequence ("N", 0%nat)) /\
     duration s == end_time s - start_time s /\
     duration s == inject_Z (Z.of_nat (snd (nth i chord_sequence ("N", 0%nat))) * hop_length)
                   / inject_Z sr)%Q /\
  (forall i, (S i < length segs)%nat ->
     start_time (nth (S i) segs no_segment) == end_time (nth i segs no_segment) /\
     start_time (nth i segs no_segment) <= start_time (nth (S i) segs no_segment))%Q.
Proof.
  intros Hsr Hhop segs; unfold segs, convert_frames_to_time.
  rewrite ConvertFacts.length_convert_from.
  split; [reflexivity|].
  split.
  { destruct chord_sequence as [|[c f] cs]; simpl; intros s Hs; inversion Hs; reflexivity. }
  split.
  { intros i Hi.
    destruct (ConvertFacts.nth_convert_from chord_sequence sr hop_length 0 i Hi)
      as [Hc [He Hd]].
    split; [exact Hc|]. split.
    - rewrite He; ring.
    - rewrite Hd; reflexivity. }
  intros i Hi.
  rewrite ConvertFacts.nth_convert_from_next by exact Hi.
  split; [reflexivity|].
  destruct (ConvertFacts.nth_convert_from chord_sequence sr hop_length 0 i ltac:(lia))
    as [_ [He Hd]].
  rewrite He, Hd.
  pose proof (ConvertFacts.frames_to_seconds_nonneg
                (snd (nth i chord_sequence ("N", 0%nat))) sr hop_length Hsr Hhop).
  apply Qle_minus_iff; ring_simplify; assumption.
Qed.

(** Witness of [C1] at the default rates with a two-segment sequence. *)
Lemma convert_frames_to_time_gapless_witness :
  (0 < 22050)%Z /\ (0 < 512)%Z /\
  length (convert_frames_to_time [("C:maj", 32%nat); ("G:maj", 20%nat)] 22050 512) = 2%nat.
Proof.
  split; [lia|]. split; [lia|].
  destruct (convert_frames_to_time_gapless [("C:maj", 32%nat); ("G:maj", 20%nat)] 22050 512
              ltac:(lia) ltac:(lia)) as [H _].
  exact H.
Defined.

(** ** Temporal smoother *)

Module SmootherFacts.

(** The runs still to come when the smoother is in state [st] and the rest
    of the smoothed stream is [s]. *)
Definition pending (st : smoother) (s : list string) : list (string * nat) :=
  match current_chord st with
  | Some c => runs_from c (current_chord_duration st) s
  | None => runs s
  end.

Definition finish (mdf : nat) (st : smoother) : list (string * nat) :=
  emit_run mdf (chord_sequence st) (current_chord st) (current_chord_duration st).

Lemma emit_run_filter mdf out c d :
  emit_run mdf out (Some c) d =
  out ++ filter (fun '(c', n) => eligible mdf c' n) [(c, d)].
Proof.
  unfold emit_run; cbn [filter]; destruct (eligible mdf c d); auto using app_nil_r.
Qed.

Lemma smoother_run_staged W mdf labels st :
  option_map (finish mdf) (smoother_run W mdf st labels) =
  option_map (fun s => chord_sequence st ++
                       filter (fun '(c, n) => eligible mdf c n) (pending st s))
             (majority_from W (chord_buffer st) labels).
Proof.
  revert st; induction labels as [|b bs IH]; intros st; cbn [smoother_run majority_from].
  - unfold finish, pending; cbn [option_map].
    destruct (current_chord st) as [c|].
    + rewrite emit_run_filter; reflexivity.
    + cbn; rewrite app_nil_r; reflexivity.
  - unfold smoother_step; cbv zeta.
    destruct (length (window_push W (chord_buffer st) b) =? W)%nat; [|apply IH].
    destruct (most_common (window_push W (chord_buffer st) b)) as [m|]; [|reflexivity].
    destruct (opt_str_eqb (Some m) (current_chord st)) eqn:E.
    + rewrite IH; cbn [chord_buffer chord_sequence].
      destruct (majority_from W (window_push W (chord_buffer st) b) bs) as [s|];
        cbn [option_map]; auto.
      unfold pending; cbn [current_chord current_chord_duration].
      destruct (current_chord st) as [c|]; cbn [opt_str_eqb] in E; [|discriminate].
      apply String.eqb_eq in E; subst m; cbn [runs_from]; rewrite String.eqb_refl; reflexivity.
    + rewrite IH; cbn [chord_buffer chord_sequence].
      destruct (majority_from W (window_push W (chord_buffer st) b) bs) as [s|];
        cbn [option_map]; auto.
      unfold pending; cbn [current_chord current_chord_duration].
      destruct (current_chord st) as [c|]; cbn [opt_str_eqb] in E.
      * cbn [runs_from]; rewrite E, emit_run_filter, <- app_assoc; cbn [filter].
        destruct (eligible mdf c (current_chord_duration st)); reflexivity.
      * reflexivity.
Qed.

End SmootherFacts.

(** [C6] In the temporal smoother of [identify_chords], the emitted list is
    exactly the maximal runs of identical smoothed labels that pass the
    eligibility test (length >= min_duration_frames, and, for a label ending
    in ":cluster", length >= 2 * min_duration_frames), in order: a run failing
    the test is dropped whole and never merged into a neighbour, and the
    final run is flushed under the same test. *)
Theorem smoother_emits_eligible_runs (window_size min_duration_frames : nat)
    (labels : list string) :
  smooth_labels window_size min_duration_frames labels =
  option_map (fun stream => filter (fun '(c, n) => eligible min_duration_frames c n)
                                   (runs stream))
             (majority_from window_size [] labels).
Proof.
  unfold smooth_labels.
  pose proof (SmootherFacts.smoother_run_staged window_size min_duration_frames labels
                smoother_init) as H.
  destruct (smoother_run window_size min_duration_frames smoother_init labels);
    simpl in *; exact H.
Qed.

(** ** Exact evaluation agrees with the real model *)

Module ExactFacts.
Import Templates Classify Exact.
Open Scope R_scope.

(** *** Signed square roots *)

Lemma sroot_nonneg x : 0 <= x -> sroot x = sqrt x.
Proof. intros H; unfold sroot; destruct (Rle_dec 0 x); [reflexivity|lra]. Qed.

Lemma sroot_neg x : x < 0 -> sroot x = - sqrt (- x).
Proof. intros H; unfold sroot; destruct (Rle_dec 0 x); [lra|reflexivity]. Qed.

Lemma sroot_sign x : (0 <= x -> 0 <= sroot x) /\ (x < 0 -> sroot x < 0).
Proof.
  split; intros H.
  - rewrite sroot_nonneg by lra; apply sqrt_pos.
  - rewrite sroot_neg by lra.
    assert (0 < sqrt (- x)) by (apply sqrt_lt_R0; lra); lra.
Qed.

Lemma sroot_sq x : sroot x * sroot x = Rabs x.
Proof.
  unfold sroot; destruct (Rle_dec 0 x).
  - rewrite sqrt_sqrt by lra; rewrite Rabs_right; lra.
  - replace (- sqrt (- x) * - sqrt (- x)) with (sqrt (- x) * sqrt (- x)) by ring.
    rewrite sqrt_sqrt by lra; rewrite Rabs_left; lra.
Qed.

Lemma sroot_ss q : sroot (q * Rabs q) = q.
Proof.
  destruct (Rle_dec 0 q) as [H|H].
  - rewrite Rabs_right by lra; rewrite sroot_nonneg by nra.
    apply sqrt_square; lra.
  - rewrite Rabs_left by lra; rewrite sroot_neg by nra.
    replace (- (q * - q)) with ((- q) * (- q)) by ring.
    rewrite sqrt_square; lra.
Qed.

Lemma sroot_lt x y : x < y -> sroot x < sroot y.
Proof.
  intros H; destruct (Rle_dec 0 x) as [Hx|Hx].
  - rewrite !sroot_nonneg by lra; apply sqrt_lt_1; lra.
  - destruct (Rle_dec 0 y) as [Hy|Hy].
    + rewrite sroot_neg, sroot_nonneg by lra.
      assert (0 < sqrt (- x)) by (apply sqrt_lt_R0; lra).
      pose proof (sqrt_pos y); lra.
    + rewrite !sroot_neg by lra.
      assert (sqrt (- y) < sqrt (- x)) by (apply sqrt_lt_1; lra); lra.
Qed.

Lemma sroot_le_iff x y : sroot x <= sroot y <-> x <= y.
Proof.
  split; intros H.
  - destruct (Rle_dec x y) as [|Hn]; auto.
    pose proof (sroot_lt y x ltac:(lra)); lra.
  - destruct (Req_dec x y) as [->|Hne]; [lra|].
    pose proof (sroot_lt x y ltac:(lra)); lra.
Qed.

Lemma sroot_lt_iff x y : sroot x < sroot y <-> x < y.
Proof.
  split; intros H.
  - destruct (Rlt_dec x y) as [|Hn]; auto.
    apply Rnot_lt_le in Hn; apply sroot_le_iff in Hn; lra.
  - apply sroot_lt; exact H.
Qed.

Lemma sroot_mult x y : sroot x * sroot y = sroot (x * y).
Proof.
  assert (Hm : forall a b, 0 <= a -> 0 <= b -> sqrt a * sqrt b = sqrt (a * b))
    by (intros; rewrite sqrt_mult; auto).
  destruct (Req_dec x 0) as [->|Hx].
  { rewrite Rmult_0_l, sroot_nonneg, sqrt_0 by lra; ring. }
  destruct (Req_dec y 0) as [->|Hy].
  { rewrite Rmult_0_r, (sroot_nonneg 0), sqrt_0 by lra; ring. }
  destruct (Rlt_dec 0 x) as [Px|Nx]; destruct (Rlt_dec 0 y) as [Py|Ny].
  - rewrite !sroot_nonneg by nra; apply Hm; lra.
  - rewrite sroot_nonneg, !sroot_neg by nra.
    replace (- (x * y)) with (x * - y) by ring.
    rewrite <- Hm by lra; ring.
  - rewrite sroot_neg, sroot_nonneg, sroot_neg by nra.
    replace (- (x * y)) with (- x * y) by ring.
    rewrite <- Hm by lra; ring.
  - rewrite !sroot_neg, sroot_nonneg by nra.
    replace (x * y) with (- x * - y) by ring.
    rewrite <- Hm by lra; ring.
Qed.

Lemma sroot_0 : sroot 0 = 0.
Proof. rewrite sroot_nonneg by lra; apply sqrt_0. Qed.

(** *** Rationals into reals *)

Lemma Q2R_0 : Q2R 0 = 0.
Proof. unfold Q2R; simpl; lra. Qed.

Lemma Q2R_inject_Z z : Q2R (inject_Z z) = IZR z.
Proof. unfold Q2R, inject_Z; simpl; field. Qed.

Lemma Q2R_inv_any x : Q2R (/ x) = / Q2R x.
Proof.
  destruct (Qeq_dec x 0) as [E|E].
  - rewrite (Qeq_eqR _ _ E), Q2R_0, Rinv_0.
    assert (E' : (/ x == 0)%Q) by (rewrite E; reflexivity).
    rewrite (Qeq_eqR _ _ E'), Q2R_0; reflexivity.
  - apply Q2R_inv; exact E.
Qed.

Lemma Q2R_div_any x y : Q2R (x / y) = Q2R x / Q2R y.
Proof. unfold Qdiv, Rdiv; rewrite Q2R_mult, Q2R_inv_any; reflexivity. Qed.

Lemma Qle_bool_R x y : Qle_bool x y = true <-> Q2R x <= Q2R y.
Proof.
  rewrite Qle_bool_iff; split; [apply Qle_Rle|apply Rle_Qle].
Qed.

Lemma Q2R_absQ x : Q2R (absQ x) = Rabs (Q2R x).
Proof.
  unfold absQ; destruct (Qle_bool 0 x) eqn:E.
  - apply Qle_bool_R in E; rewrite Q2R_0 in E; rewrite Rabs_right; lra.
  - rewrite Q2R_opp; rewrite Rabs_left; [reflexivity|].
    destruct (Rlt_dec (Q2R x) 0) as [|Hn]; auto.
    assert (Hle : Qle_bool 0 x = true) by (apply Qle_bool_R; rewrite Q2R_0; lra).
    congruence.
Qed.

Lemma Q2R_ss x : Q2R (ss x) = Q2R x * Rabs (Q2R x).
Proof. unfold ss; rewrite Q2R_mult, Q2R_absQ; reflexivity. Qed.

Lemma to_R_ss q : to_R (ss q) = Q2R q.
Proof. unfold to_R; rewrite Q2R_ss; apply sroot_ss. Qed.

(** *** The comparisons agree *)

Lemma ge_agree x q : ge_R (to_R x) q = ge_Q x q.
Proof.
  unfold ge_R, ge_Q, to_R.
  destruct (Rle_dec (Q2R q) (sroot (Q2R x))) as [H|H];
    destruct (Qle_bool (ss q) x) eqn:E; auto; exfalso.
  - rewrite <- (to_R_ss q) in H; unfold to_R in H.
    apply (proj1 (sroot_le_iff _ _)) in H.
    assert (Qle_bool (ss q) x = true) by (apply Qle_bool_R; exact H); congruence.
  - apply Qle_bool_R, sroot_le_iff in E; fold (to_R (ss q)) in E.
    rewrite to_R_ss in E; contradiction.
Qed.

Lemma gt_agree x y : gt_R (to_R x) (to_R y) = gt_Q x y.
Proof.
  unfold gt_R, gt_Q, to_R.
  destruct (Rlt_dec (sroot (Q2R y)) (sroot (Q2R x))) as [H|H];
    destruct (Qle_bool x y) eqn:E; simpl; auto; exfalso.
  - apply (proj1 (sroot_lt_iff _ _)) in H; apply Qle_bool_R in E; lra.
  - apply Rnot_lt_le, (proj1 (sroot_le_iff _ _)) in H.
    assert (Qle_bool x y = true) by (apply Qle_bool_R; exact H); congruence.
Qed.

Lemma gap_core a b c :
  (0 <= c -> (c < a - b <-> b < a /\ 2 * (a * b) < a * a + b * b - c * c)) /\
  (c < 0 -> (c < a - b <-> ~ (a <= b /\ 2 * (a * b) <= a * a + b * b - c * c))).
Proof.
  split; intros Hc; split.
  - intros H; split; nra.
  - intros [H1 H2].
    destruct (Rlt_dec c (a - b)) as [|Hn]; auto.
    assert (0 < a - b) by lra; nra.
  - intros H [H1 H2]; nra.
  - intros H; destruct (Rle_dec a b) as [Hab|Hab]; [|lra].
    destruct (Rle_dec (2 * (a * b)) (a * a + b * b - c * c)) as [Hs|Hs]; [tauto|].
    destruct (Rlt_dec c (a - b)) as [|Hn]; auto.
    assert (0 <= b - a) by lra; nra.
Qed.

Lemma sroot_4 : sroot 4 = 2.
Proof.
  rewrite sroot_nonneg by lra.
  replace 4 with (2 * 2) by ring; rewrite sqrt_square; lra.
Qed.

Lemma gap_agree x y c : gap_R (to_R x) (to_R y) c = gap_Q x y c.
Proof.
  unfold gap_R, gap_Q; cbv zeta.
  set (a := to_R x); set (b := to_R y); set (L := (absQ x + absQ y - c * c)%Q).
  assert (HL : Q2R L = a * a + b * b - Q2R c * Q2R c).
  { unfold L, a, b, to_R; rewrite Q2R_minus, Q2R_plus, !Q2R_absQ, Q2R_mult, !sroot_sq.
    reflexivity. }
  assert (HP : Qle_bool (ss L) (4 * (x * y)) = true <-> Q2R L <= 2 * (a * b)).
  { rewrite Qle_bool_R, <- sroot_le_iff, Q2R_ss, sroot_ss, !Q2R_mult.
    rewrite <- sroot_mult, <- sroot_mult.
    replace (Q2R 4) with 4 by (unfold Q2R; simpl; lra).
    rewrite sroot_4; fold (to_R x) (to_R y); fold a b; lra. }
  assert (HP' : Qle_bool (4 * (x * y)) (ss L) = true <-> 2 * (a * b) <= Q2R L).
  { rewrite Qle_bool_R, <- sroot_le_iff, Q2R_ss, sroot_ss, !Q2R_mult.
    rewrite <- sroot_mult, <- sroot_mult.
    replace (Q2R 4) with 4 by (unfold Q2R; simpl; lra).
    rewrite sroot_4; fold (to_R x) (to_R y); fold a b; lra. }
  assert (Hxy : Qle_bool x y = true <-> a <= b).
  { rewrite Qle_bool_R; unfold a, b, to_R; rewrite sroot_le_iff; reflexivity. }
  assert (Bxy : if Qle_bool x y then a <= b else ~ a <= b).
  { destruct (Qle_bool x y); [apply Hxy; reflexivity|intros Hn; apply Hxy in Hn; discriminate]. }
  assert (BP : if Qle_bool (ss L) (4 * (x * y)) then Q2R L <= 2 * (a * b)
               else ~ Q2R L <= 2 * (a * b)).
  { destruct (Qle_bool (ss L) (4 * (x * y)));
      [apply HP; reflexivity|intros Hn; apply HP in Hn; discriminate]. }
  assert (BP' : if Qle_bool (4 * (x * y)) (ss L) then 2 * (a * b) <= Q2R L
                else ~ 2 * (a * b) <= Q2R L).
  { destruct (Qle_bool (4 * (x * y)) (ss L));
      [apply HP'; reflexivity|intros Hn; apply HP' in Hn; discriminate]. }
  clear HP HP' Hxy; rewrite HL in BP, BP'.
  destruct (gap_core a b (Q2R c)) as [G1 G2].
  destruct (Qle_bool 0 c) eqn:Ec.
  - apply Qle_bool_R in Ec; rewrite Q2R_0 in Ec; specialize (G1 Ec).
    destruct (Qle_bool x y); destruct (Qle_bool (ss L) (4 * (x * y))); simpl;
      destruct (Rlt_dec (Q2R c) (a - b)) as [H|H]; try reflexivity; exfalso;
      first [ apply G1 in H; lra | apply H, G1; split; lra ].
  - assert (Hc : Q2R c < 0).
    { destruct (Rlt_dec (Q2R c) 0) as [|Hn]; auto.
      assert (Qle_bool 0 c = true) by (apply Qle_bool_R; rewrite Q2R_0; lra); congruence. }
    specialize (G2 Hc).
    destruct (Qle_bool x y); destruct (Qle_bool (4 * (x * y)) (ss L)); simpl;
      destruct (Rlt_dec (Q2R c) (a - b)) as [H|H]; try reflexivity; exfalso;
      first [ apply G2 in H; apply H; split; lra
            | apply H, G2; intros [H1 H2]; lra ].
Qed.

End ExactFacts.

(** ** The classifier commutes with a score translation *)

Section ClassifierMap.

Variables S1 S2 : Type.
Variable f : S1 -> S2.
Variables (ge1 : S1 -> Q -> bool) (gt1 : S1 -> S1 -> bool) (gap1 : S1 -> S1 -> Q -> bool).
Variables (ge2 : S2 -> Q -> bool) (gt2 : S2 -> S2 -> bool) (gap2 : S2 -> S2 -> Q -> bool).
Hypothesis Hge : forall x q, ge2 (f x) q = ge1 x q.
Hypothesis Hgt : forall x y, gt2 (f x) (f y) = gt1 x y.
Hypothesis Hgap : forall x y q, gap2 (f x) (f y) q = gap1 x y q.

Lemma insert_desc_map_snd x l :
  insert_desc gt2 (fst x, f (snd x)) (map_snd f l) = map_snd f (insert_desc gt1 x l).
Proof.
  induction l as [|y l IH]; simpl; [reflexivity|].
  rewrite Hgt; destruct (gt1 (snd y) (snd x)); simpl; [rewrite IH|]; reflexivity.
Qed.

Lemma sort_desc_map_snd l : sort_desc gt2 (map_snd f l) = map_snd f (sort_desc gt1 l).
Proof.
  induction l as [|x l IH]; [reflexivity|].
  unfold sort_desc in *; simpl; rewrite IH; apply insert_desc_map_snd.
Qed.

Lemma get_chord_candidates_map_snd cfg thr l :
  get_chord_candidates ge2 gt2 cfg thr (map_snd f l)
  = map_snd f (get_chord_candidates ge1 gt1 cfg thr l).
Proof.
  unfold get_chord_candidates; rewrite <- sort_desc_map_snd; f_equal.
  induction l as [|[n x] l IH]; [reflexivity|]; simpl.
  rewrite !Hge; destruct (is_cluster_label n);
    [destruct (ge1 x (cluster_threshold cfg))|destruct (ge1 x thr)];
    simpl; rewrite IH; reflexivity.
Qed.

Lemma select_best_chord_map_snd cfg c :
  select_best_chord gap2 cfg (map_snd f c) = select_best_chord gap1 cfg c.
Proof.
  destruct c as [|[n0 s0] [|[n1 s1] c]]; simpl; try reflexivity.
  rewrite Hgap; reflexivity.
Qed.

Lemma classify_scores_map_snd cfg thr l :
  classify_scores ge2 gt2 gap2 cfg thr (map_snd f l) = classify_scores ge1 gt1 gap1 cfg thr l.
Proof.
  unfold classify_scores; rewrite get_chord_candidates_map_snd;
    apply select_best_chord_map_snd.
Qed.

End ClassifierMap.

(** ** Refinement: the exact evaluator computes the real classifier *)

Module Refinement.
Import Templates Classify Exact TemplateFacts ExactFacts.
Open Scope R_scope.

Lemma dot_Q2R a b : dot (map Q2R a) (map Q2R b) = Q2R (dotQ a b).
Proof.
  revert b; induction a as [|x a IH]; intros [|y b]; simpl; try (symmetry; apply Q2R_0).
  rewrite Q2R_plus, Q2R_mult, IH; reflexivity.
Qed.

Lemma sqnorm_Q2R a : sqnorm (map Q2R a) = Q2R (sqnormQ a).
Proof.
  induction a as [|x a IH]; simpl; [symmetry; apply Q2R_0|].
  unfold sqnormQ in *; simpl; rewrite Q2R_plus, Q2R_mult, IH; reflexivity.
Qed.

Lemma sqnorm_zero_all v : sqnorm v = 0 -> forall x, In x v -> x = 0.
Proof.
  induction v as [|y v IH]; simpl; intros H x Hx; [contradiction|].
  pose proof (sqnorm_nonneg v).
  assert (y * y = 0 /\ sqnorm v = 0) as [Hy Hv] by (split; nra).
  destruct Hx as [<-|Hx]; [nra|auto].
Qed.

Lemma dot_zero_l v w : sqnorm v = 0 -> dot v w = 0.
Proof.
  revert w; induction v as [|x v IH]; intros [|y w] H; simpl; try reflexivity.
  pose proof (sqnorm_zero_all _ H x (or_introl eq_refl)) as Hx.
  simpl in H; subst x; rewrite IH; [ring|lra].
Qed.

Lemma dot_zero_r v w : sqnorm w = 0 -> dot v w = 0.
Proof.
  revert w; induction v as [|x v IH]; intros [|y w] H; simpl; try reflexivity.
  pose proof (sqnorm_zero_all _ H y (or_introl eq_refl)) as Hy.
  simpl in H; subst y; rewrite IH; [ring|lra].
Qed.

Lemma dot_map_div v w c d :
  c <> 0 -> d <> 0 ->
  dot (map (fun x => x / c) v) (map (fun x => x / d) w) = dot v w / (c * d).
Proof.
  intros Hc Hd; revert w; induction v as [|x v IH]; intros [|y w]; simpl;
    try (field; auto).
  rewrite IH; field; auto.
Qed.

Lemma normalize_as_div v :
  normalize v = map (fun x => x / (if Req_EM_T (l2norm v) 0 then 1 else l2norm v)) v.
Proof. reflexivity. Qed.

Lemma normalize_zero v : sqnorm v = 0 -> normalize v = map (fun x => x / 1) v.
Proof.
  intros H; rewrite normalize_as_div; unfold l2norm; rewrite H, sqrt_0.
  destruct (Req_EM_T 0 0); [reflexivity|lra].
Qed.

Lemma normalize_pos v : sqnorm v <> 0 -> normalize v = map (fun x => x / sqrt (sqnorm v)) v.
Proof.
  intros H; pose proof (l2norm_pos v H) as Hp.
  rewrite normalize_as_div; destruct (Req_EM_T (l2norm v) 0); [lra|reflexivity].
Qed.

Lemma normalize_is_div v : exists c, 0 < c /\ normalize v = map (fun x => x / c) v.
Proof.
  destruct (Req_dec (sqnorm v) 0) as [H|H].
  - exists 1; split; [lra|apply normalize_zero; auto].
  - exists (sqrt (sqnorm v)); split; [apply (l2norm_pos v H)|apply normalize_pos; auto].
Qed.

Lemma Q2R_ssim a b :
  Q2R (ssim a b) = Q2R (dotQ a b) * Rabs (Q2R (dotQ a b)) / (Q2R (sqnormQ a) * Q2R (sqnormQ b)).
Proof.
  unfold ssim; cbv zeta.
  destruct (Qle_bool 0 (dotQ a b)) eqn:E.
  - apply Qle_bool_R in E; rewrite Q2R_0 in E.
    rewrite Q2R_div_any, !Q2R_mult, Rabs_right by lra; reflexivity.
  - assert (Hn : Q2R (dotQ a b) < 0).
    { destruct (Rlt_dec (Q2R (dotQ a b)) 0) as [|Hn]; auto.
      assert (Qle_bool 0 (dotQ a b) = true) by (apply Qle_bool_R; rewrite Q2R_0; lra).
      congruence. }
    rewrite Q2R_opp, Q2R_div_any, !Q2R_mult, Rabs_left by lra; unfold Rdiv; ring.
Qed.

(** The cosine of two normalised rational vectors, as computed by [ssim]. *)
Lemma similarity_exact a b :
  dot (normalize (map Q2R a)) (normalize (map Q2R b)) = to_R (ssim a b).
Proof.
  unfold to_R; rewrite Q2R_ssim, <- dot_Q2R, <- !sqnorm_Q2R.
  set (va := map Q2R a); set (vb := map Q2R b).
  destruct (Req_dec (sqnorm va) 0) as [Ha|Ha].
  - rewrite (dot_zero_l va vb Ha), normalize_zero by exact Ha.
    destruct (normalize_is_div vb) as [c [Hc ->]].
    rewrite dot_map_div by lra; rewrite dot_zero_l by exact Ha.
    rewrite Rmult_0_l; unfold Rdiv; rewrite !Rmult_0_l, sroot_0; reflexivity.
  - destruct (Req_dec (sqnorm vb) 0) as [Hb|Hb].
    + rewrite (dot_zero_r va vb Hb), (normalize_zero vb) by exact Hb.
      destruct (normalize_is_div va) as [c [Hc ->]].
      rewrite dot_map_div by lra; rewrite dot_zero_r by exact Hb.
      rewrite Rmult_0_l; unfold Rdiv; rewrite !Rmult_0_l, sroot_0; reflexivity.
    + pose proof (l2norm_pos va Ha) as Pa; pose proof (l2norm_pos vb Hb) as Pb.
      unfold l2norm in Pa, Pb.
      rewrite (normalize_pos va Ha), (normalize_pos vb Hb), dot_map_div by lra.
      set (D := dot va vb).
      pose proof (sqrt_sqrt (sqnorm va) (sqnorm_nonneg va)) as Sa.
      pose proof (sqrt_sqrt (sqnorm vb) (sqnorm_nonneg vb)) as Sb.
      set (q := D / (sqrt (sqnorm va) * sqrt (sqnorm vb))).
      assert (Hq : D * Rabs D / (sqnorm va * sqnorm vb) = q * Rabs q).
      { unfold q, Rdiv; rewrite Rabs_mult, Rabs_inv, (Rabs_right (_ * _)) by nra.
        rewrite <- Sa at 1; rewrite <- Sb at 1; field; lra. }
      rewrite Hq, sroot_ss; reflexivity.
Qed.

Lemma nth_map_d {A B} (f : A -> B) a0 b0 (H : f a0 = b0) w i :
  nth i (map f w) b0 = f (nth i w a0).
Proof. subst b0; apply map_nth. Qed.

Lemma set_nth_map {A B} (f : A -> B) w i x :
  set_nth (map f w) i (f x) = map f (set_nth w i x).
Proof.
  revert i; induction w as [|y w IH]; intros [|i]; simpl; try reflexivity.
  rewrite IH; reflexivity.
Qed.

Lemma normalize_scale v c : 0 < c -> normalize (map (fun x => x / c) v) = normalize v.
Proof.
  intros Hc.
  destruct (Req_dec (sqnorm v) 0) as [H|H].
  - assert (H' : sqnorm (map (fun x => x / c) v) = 0)
      by (rewrite sqnorm_map_div, H by lra; unfold Rdiv; ring).
    rewrite (normalize_zero _ H'), (normalize_zero _ H), map_map.
    apply map_ext_in; intros x Hx; rewrite (sqnorm_zero_all v H x Hx).
    unfold Rdiv; ring.
  - assert (H' : sqnorm (map (fun x => x / c) v) <> 0).
    { rewrite sqnorm_map_div by lra; intros E.
      apply H; apply (f_equal (fun t => t * (c * c))) in E.
      rewrite Rmult_0_l in E; rewrite <- E; field; lra. }
    rewrite (normalize_pos _ H'), (normalize_pos _ H), map_map, sqnorm_map_div by lra.
    pose proof (l2norm_pos v H) as Hp; unfold l2norm in Hp.
    rewrite sqrt_div_alt, sqrt_square by nra.
    apply map_ext; intros x; field; lra.
Qed.

Lemma enhance_step_div c w i k :
  0 < c ->
  set_nth (map (fun x => x / c) w) i (nth i (map (fun x => x / c) w) 0 * k)
  = map (fun x => x / c) (set_nth w i (nth i w 0 * k)).
Proof.
  intros Hc.
  rewrite (nth_map_d (fun x => x / c) 0 0) by (unfold Rdiv; ring).
  replace (nth i w 0 / c * k) with ((fun x => x / c) (nth i w 0 * k)) by (simpl; field; lra).
  exact (set_nth_map (fun x => x / c) w i (nth i w 0 * k)).
Qed.

Lemma enhance_scale cfg v c :
  0 < c -> enhance_chroma_vector cfg (map (fun x => x / c) v) = enhance_chroma_vector cfg v.
Proof.
  intros Hc; unfold enhance_chroma_vector; cbv zeta.
  rewrite !enhance_step_div by exact Hc; apply normalize_scale; exact Hc.
Qed.

Lemma enhance_step_Q w i k :
  set_nth (map Q2R w) i (nth i (map Q2R w) 0 * Q2R k)
  = map Q2R (set_nth w i (nth i w 0%Q * k)%Q).
Proof.
  rewrite (nth_map_d Q2R 0%Q 0) by apply Q2R_0.
  rewrite <- Q2R_mult; exact (set_nth_map Q2R w i (nth i w 0%Q * k)%Q).
Qed.

(** The enhanced vector of a normalised rational chroma column is the
    normalised [weighted] vector. *)
Lemma enhance_exact cfg u :
  enhance_chroma_vector cfg (normalize (map Q2R u)) = normalize (map Q2R (weighted cfg u)).
Proof.
  destruct (normalize_is_div (map Q2R u)) as [c [Hc ->]].
  rewrite enhance_scale by exact Hc.
  unfold enhance_chroma_vector, weighted; cbv zeta.
  rewrite !enhance_step_Q; reflexivity.
Qed.

Lemma CHORD_TEMPLATES_raw :
  CHORD_TEMPLATES = map_snd (fun r => normalize (map Q2R (map inject_Z r))) RAW_TEMPLATES.
Proof.
  unfold CHORD_TEMPLATES, RAW_TEMPLATES.
  induction roots as [|[rn ri] rs IH]; [reflexivity|].
  cbn [flat_map]; unfold map_snd in *; rewrite map_app, IH, map_map; f_equal.
  apply map_ext; intros [ty ivs]; cbn [fst snd]; unfold template_of; do 2 f_equal.
  rewrite map_map; apply map_ext; intros z; symmetry; apply Q2R_inject_Z.
Qed.

Lemma similarities_exact cfg u :
  similarities (enhance_chroma_vector cfg (normalize (map Q2R u)))
  = map_snd to_R (similaritiesQ cfg u).
Proof.
  rewrite enhance_exact; unfold similarities, similaritiesQ.
  rewrite CHORD_TEMPLATES_raw; unfold map_snd; rewrite !map_map.
  apply map_ext; intros [n r]; simpl; f_equal; apply similarity_exact.
Qed.

Lemma chord_candidates_exact cfg thr u :
  chord_candidates cfg thr (normalize (map Q2R u)) = map_snd to_R (candidates_exact cfg thr u).
Proof.
  unfold chord_candidates, candidates_exact; rewrite similarities_exact.
  apply get_chord_candidates_map_snd; [apply ge_agree|apply gt_agree].
Qed.

Lemma classify_frame_exact cfg thr u :
  classify_frame cfg thr (normalize (map Q2R u)) = classify_exact cfg thr u.
Proof.
  unfold classify_frame, classify_exact; rewrite similarities_exact.
  apply classify_scores_map_snd; [apply ge_agree|apply gt_agree|apply gap_agree].
Qed.

End Refinement.

(** ** Membership facts for the classifier and the smoother *)

Module LabelFacts.

Lemma in_insert_desc {S} (gt : S -> S -> bool) x l p :
  In p (insert_desc gt x l) <-> p = x \/ In p l.
Proof.
  induction l as [|y l IH]; simpl; [intuition (subst; auto)|].
  destruct (gt (snd y) (snd x)); simpl; rewrite ?IH; intuition (subst; auto).
Qed.

Lemma in_sort_desc {S} (gt : S -> S -> bool) l p : In p (sort_desc gt l) <-> In p l.
Proof.
  induction l as [|x l IH]; simpl; [tauto|].
  unfold sort_desc in *; simpl; rewrite in_insert_desc, IH; intuition (subst; auto).
Qed.

Lemma in_get_chord_candidates {S} (ge : S -> Q -> bool) (gt : S -> S -> bool) cfg thr sims n s :
  In (n, s) (get_chord_candidates ge gt cfg thr sims) <->
  In (n, s) sims /\
  (if is_cluster_label n then ge s (cluster_threshold cfg) else ge s thr) = true.
Proof.
  unfold get_chord_candidates; rewrite in_sort_desc, filter_In; reflexivity.
Qed.





Lemma map_option_const {A B} (f : A -> option B) l y :
  (forall x, In x l -> f x = Some y) -> map_option f l = Some (repeat y (length l)).
Proof.
  induction l as [|x l IH]; simpl; intros H; [reflexivity|].
  rewrite H by (left; reflexivity); rewrite IH by auto; reflexivity.
Qed.

(** Every label the smoother emits comes from its input. *)
Section SmootherLabels.

Variable P : string -> Prop.

Lemma first_occurrences_in l x : In x (first_occurrences l) -> In x l.
Proof.
  unfold first_occurrences.
  assert (G : forall acc, In x (fold_left (fun acc x => if existsb (String.eqb x) acc
                                                    then acc else acc ++ [x]) l acc) ->
                       In x acc \/ In x l).
  { induction l as [|y l IH]; simpl; intros acc H; [left; exact H|].
    destruct (existsb (String.eqb y) acc); apply IH in H;
      rewrite ?in_app_iff in H; simpl in H; tauto. }
  intros H; destruct (G [] H) as [[]|]; auto.
Qed.







End SmootherLabels.

End LabelFacts.

(** ** The C-major example *)

Module CMajorExample.
Import Templates Classify Exact TemplateFacts ExactFacts Refinement LabelFacts.

Lemma nth_repeat_lt {A} (x d : A) n j : (j < n)%nat -> nth j (repeat x n) d = x.
Proof.
  revert j; induction n as [|n IH]; intros [|j] Hj; simpl; try lia; auto.
  apply IH; lia.
Qed.

Lemma column_cmaj40 j : (j < 40)%nat -> column chroma_cmaj40 j = template_of 0 [0; 4; 7]%nat.
Proof.
  intros Hj; unfold column, chroma_cmaj40; rewrite map_map.
  transitivity (map (fun x => x) (template_of 0 [0; 4; 7]%nat)); [|apply map_id].
  apply map_ext; intros x; apply nth_repeat_lt; exact Hj.
Qed.

Lemma num_frames_cmaj40 : num_frames chroma_cmaj40 = 40%nat.
Proof.
  unfold num_frames, chroma_cmaj40.
  pose proof (length_normalize (map IZR (raw_template 0 [0; 4; 7]%nat))) as L.
  rewrite length_map, length_raw_template in L; unfold template_of.
  destruct (normalize (map IZR (raw_template 0 [0; 4; 7]%nat))); simpl in *;
    [discriminate|reflexivity].
Qed.

Lemma template_of_Q ri ivs :
  template_of ri ivs = normalize (map Q2R (map inject_Z (raw_template ri ivs))).
Proof.
  unfold template_of; f_equal; rewrite map_map; apply map_ext; intros z.
  symmetry; apply Q2R_inject_Z.
Qed.

Lemma classify_cmaj :
  classify_frame default_config (3 # 4) (template_of 0 [0; 4; 7]%nat) = Some "C:maj".
Proof. rewrite template_of_Q, classify_frame_exact; vm_compute; reflexivity. Qed.

Lemma identify_chords_default chroma :
  identify_chords default_config None None chroma =
  match map_option (fun frame => classify_frame default_config (3 # 4) (column chroma frame))
                   (seq 0 (num_frames chroma)) with
  | None => None
  | Some labels => smooth_labels 9 15 labels
  end.
Proof. reflexivity. Qed.

Lemma identify_cmaj40 :
  identify_chords default_config None None chroma_cmaj40 = Some [("C:maj", 32%nat)].
Proof.
  rewrite identify_chords_default, num_frames_cmaj40.
  rewrite (map_option_const _ _ "C:maj").
  - vm_compute; reflexivity.
  - intros j Hj; apply in_seq in Hj.
    rewrite column_cmaj40 by lia; apply classify_cmaj.
Qed.

End CMajorExample.

(** ** Bin weights and bank labels *)

Module ClaimHelpers.
Import Templates Classify.

Lemma nth_set_nth_scale (l : list R) i j k :
  nth j (set_nth l i (nth i l 0 * k)) 0 = if Nat.eqb j i then (nth j l 0 * k)%R else nth j l 0.
Proof.
  revert i j; induction l as [|x l IH]; intros i j.
  - destruct i, j; simpl;
      repeat match goal with |- context [Nat.eqb ?a ?b] => destruct (Nat.eqb a b) end; ring.
  - destruct i, j; simpl; auto.
Qed.




End ClaimHelpers.

(** ** Properties of the frame classifier *)

Module ClassifierClaims.
Import Templates Classify Exact TemplateFacts ExactFacts Refinement LabelFacts CMajorExample
  ClaimHelpers.

(** C3 (amended): with the default configuration, 40 frames of the
    normalised C-major template give one pair [("C:maj", 32)]: the first
    eight frames only fill the 9-frame smoothing window.  The converted
    segment is [C:maj] from 0 to 32 * 512 / 22050 seconds (8192/11025 s),
    shorter than 40 frames. *)
Theorem cmaj40_single_segment_32_frames :
  identify_chords default_config None None chroma_cmaj40 = Some [("C:maj", 32%nat)] /\
  exists s, convert_frames_to_time [("C:maj", 32%nat)]
              (chroma_sr default_config) (hop_length default_config) = [s] /\
            chord s = "C:maj" /\ (start_time s == 0)%Q /\
            (end_time s == 8192 # 11025)%Q /\ (duration s == 8192 # 11025)%Q /\
            ~ (duration s == frames_to_seconds 40 (chroma_sr default_config)
                                               (hop_length default_config))%Q.
Proof.
  split; [exact identify_cmaj40|].
  eexists; split; [reflexivity|].
  split; [reflexivity|]; vm_compute; repeat split; try reflexivity; discriminate.
Qed.

(** C3 (counterexample): the 40-frame C-major input does not give the
    single pair [("C:maj", 40)]. *)
Lemma cmaj40_not_forty_frames :
  identify_chords default_config None None chroma_cmaj40 <> Some [("C:maj", 40%nat)].
Proof. rewrite identify_cmaj40; intros H; inversion H. Qed.

(** C4 (as coded): [_enhance_chroma_vector] scales the fixed bins 0 and 4 by
    [bass_weight] and the fixed bin 7 by [harmonic_weight], whatever the
    chord root, and then divides every bin by one positive number.  Bin 4 is
    the major third above bin 0, not its fifth; the fifth, bin 7, gets
    [harmonic_weight]. *)
Theorem enhance_fixed_bins cfg v :
  exists c, (0 < c)%R /\
  forall i, nth i (enhance_chroma_vector cfg v) 0%R = (nth i v 0 * enhance_bin_factor cfg i / c)%R.
Proof.
  unfold enhance_chroma_vector; cbv zeta.
  match goal with |- context [normalize ?e] =>
    destruct (normalize_is_div e) as [c [Hc ->]] end.
  exists c; split; [exact Hc|]; intros i.
  rewrite (nth_map_d (fun x => (x / c)%R) 0%R 0%R) by (unfold Rdiv; ring).
  rewrite !nth_set_nth_scale.
  destruct i as [|[|[|[|[|[|[|[|i]]]]]]]]; simpl; unfold Rdiv; ring.
Qed.

(** C5 (amended): a template survives filtering iff its score is at least
    [cluster_threshold] when its name ends with [":cluster"], and at least
    the detection threshold otherwise (the types [cluster7] and [cluster9]
    use the detection threshold); with no candidate the frame is ["N"]. *)
Theorem candidate_filter_thresholds cfg thr v :
  (forall n s,
     In (n, s) (chord_candidates cfg thr v) <->
     In (n, s) (similarities (enhance_chroma_vector cfg v)) /\
     (if is_cluster_label n then (Q2R (cluster_threshold cfg) <= s)%R else (Q2R thr <= s)%R)) /\
  (chord_candidates cfg thr v = [] -> classify_frame cfg thr v = Some "N").
Proof.
  split.
  - intros n s; unfold chord_candidates; rewrite in_get_chord_candidates.
    unfold ge_R; destruct (is_cluster_label n);
      [destruct (Rle_dec (Q2R (cluster_threshold cfg)) s)
      |destruct (Rle_dec (Q2R thr) s)]; intuition discriminate.
  - unfold chord_candidates, classify_frame, classify_scores; intros H; rewrite H; reflexivity.
Qed.

(** C5 (counterexample): for the chroma of C, C#, D, D#, F and F#, the
    template [C:cluster7] is a candidate at the default detection threshold
    with a score below [cluster_threshold]. *)
Lemma cluster7_candidate_below_cluster_threshold :
  exists s, In ("C:cluster7", s)
              (chord_candidates default_config (detection_threshold default_config)
                                (normalize (map Q2R chroma_cluster_probe))) /\
            (s < Q2R (cluster_threshold default_config))%R.
Proof.
  rewrite chord_candidates_exact.
  assert (E : existsb (fun p => String.eqb (fst p) "C:cluster7" &&
                                Qeq_bool (snd p) (1102500000000 # 1610000000000))
                      (candidates_exact default_config (detection_threshold default_config)
                                        chroma_cluster_probe) = true)
    by (vm_compute; reflexivity).
  apply existsb_exists in E; destruct E as [[n x] [Hin Hp]].
  apply andb_true_iff in Hp; destruct Hp as [Hn Hx]; simpl in Hn, Hx.
  apply String.eqb_eq in Hn; subst n; apply Qeq_bool_iff in Hx.
  exists (to_R x); split.
  - apply (in_map (fun p => (fst p, to_R (snd p))) _ _ Hin).
  - rewrite <- (to_R_ss (cluster_threshold default_config)); unfold to_R.
    apply sroot_lt_iff; rewrite (Qeq_eqR _ _ Hx).
    apply Qlt_Rlt; vm_compute; reflexivity.
Qed.



End ClassifierClaims.

(** ** Facts about the progression miner *)

Module ProgressionFacts.
Import Progressions.

Lemma key_gt_false x y : key_gt y x = false -> ranked_before x y.
Proof.
  unfold key_gt, ranked_before; intros H.
  apply orb_false_iff in H as [H1 H2]; apply Nat.ltb_ge in H1.
  destruct (Nat.eq_dec (count y) (count x)) as [E|E]; [|left; lia].
  right; split; [lia|].
  rewrite (proj2 (Nat.eqb_eq _ _) E) in H2; simpl in H2; apply Nat.ltb_ge in H2; lia.
Qed.

Lemma key_gt_true x y : key_gt y x = true -> ranked_before y x.
Proof.
  unfold key_gt, ranked_before; intros H.
  apply orb_true_iff in H as [H|H]; [apply Nat.ltb_lt in H; left; lia|].
  apply andb_true_iff in H as [H1 H2]; apply Nat.eqb_eq in H1; apply Nat.ltb_lt in H2.
  right; split; lia.
Qed.

Lemma ranked_before_not_gt x y : ranked_before x y -> key_gt y x = false.
Proof.
  unfold key_gt, ranked_before; intros H.
  apply orb_false_iff; split.
  - apply Nat.ltb_ge; lia.
  - destruct (Nat.eqb (count y) (count x)) eqn:E; [|reflexivity].
    apply Nat.eqb_eq in E; simpl; apply Nat.ltb_ge; lia.
Qed.

Lemma key_gt_irrefl x : key_gt x x = false.
Proof. unfold key_gt; rewrite !Nat.ltb_irrefl, andb_false_r; reflexivity. Qed.

Lemma ranked_before_trans x y z : ranked_before x y -> ranked_before y z -> ranked_before x z.
Proof. unfold ranked_before; lia. Qed.

Lemma insert_prog_ranked x l : ranked l -> ranked (insert_prog x l).
Proof.
  induction l as [|y l IH]; intros H; [exact I|].
  cbn [insert_prog]; destruct (key_gt y x) eqn:E.
  - destruct l as [|z l'].
    + split; [apply key_gt_true; exact E|exact I].
    + destruct H as [Hyz Hr]; specialize (IH Hr).
      cbn [insert_prog] in IH |- *; destruct (key_gt z x) eqn:E2.
      * split; assumption.
      * split; [apply key_gt_true; exact E|exact IH].
  - split; [apply key_gt_false; exact E|exact H].
Qed.

Lemma sort_ranked l : ranked (sort_progressions l).
Proof.
  induction l as [|x l IH]; [exact I|].
  unfold sort_progressions in *; simpl; apply insert_prog_ranked; exact IH.
Qed.

Lemma firstn_ranked n l : ranked l -> ranked (firstn n l).
Proof.
  revert n; induction l as [|x l IH]; intros n H; destruct n as [|n]; simpl; auto.
  destruct l as [|y l']; destruct n as [|n]; simpl; auto.
  split; [apply H|apply (IH (S n)); apply H].
Qed.

Lemma in_insert_prog x l y : In y (insert_prog x l) <-> y = x \/ In y l.
Proof.
  induction l as [|z l IH]; simpl; [intuition (subst; auto)|].
  destruct (key_gt z x); simpl; rewrite ?IH; intuition (subst; auto).
Qed.

Lemma in_sort_prog l y : In y (sort_progressions l) <-> In y l.
Proof.
  induction l as [|x l IH]; simpl; [tauto|].
  unfold sort_progressions in *; simpl; rewrite in_insert_prog, IH; intuition (subst; auto).
Qed.

Lemma ranked_all l : forall x, ranked (x :: l) -> forall y, In y l -> ranked_before x y.
Proof.
  induction l as [|z l IH]; intros x H y Hy; [contradiction|].
  destruct H as [Hxz Hr]; destruct Hy as [<-|Hy]; [exact Hxz|].
  exact (ranked_before_trans x z y Hxz (IH z Hr y Hy)).
Qed.

Lemma sort_head l h rest :
  sort_progressions l = h :: rest -> In h l /\ forall y, In y l -> key_gt y h = false.
Proof.
  intros E; split.
  - apply in_sort_prog; rewrite E; left; reflexivity.
  - intros y Hy; apply in_sort_prog in Hy; rewrite E in Hy.
    destruct Hy as [<-|Hy]; [apply key_gt_irrefl|].
    apply ranked_before_not_gt, (ranked_all rest h); [|exact Hy].
    rewrite <- E; apply sort_ranked.
Qed.

Lemma filter_all_true {A} (f : A -> bool) l : (forall x, In x l -> f x = true) -> filter f l = l.
Proof.
  induction l as [|x l IH]; simpl; intros H; [reflexivity|].
  rewrite H by (left; reflexivity); rewrite IH by auto; reflexivity.
Qed.

Lemma filter_from_distinct cfg segs :
  forall c st en, adjacent_distinct c segs -> forallb (kept cfg) segs = true ->
  filter_from cfg (Some (c, st, en)) segs =
  {| chord := c; start_time := st; end_time := en; duration := en - st |} :: map fseg segs.
Proof.
  induction segs as [|s rest IH]; intros c st en Hd Hk; [reflexivity|].
  cbn [adjacent_distinct forallb] in Hd, Hk; destruct Hd as [Hne Hd].
  apply andb_true_iff in Hk as [Hs Hk]; unfold kept in Hs.
  apply andb_true_iff in Hs as [H1 H2]; apply negb_true_iff in H1, H2.
  cbn [filter_from]; rewrite H1, H2, (proj2 (String.eqb_neq _ _) Hne).
  cbn [andb negb]; rewrite (IH (chord s)) by assumption; reflexivity.
Qed.

Lemma filter_from_none cfg s rest :
  kept cfg s = true -> adjacent_distinct (chord s) rest -> forallb (kept cfg) rest = true ->
  filter_from cfg None (s :: rest) = map fseg (s :: rest).
Proof.
  intros Hs Hd Hk; unfold kept in Hs.
  apply andb_true_iff in Hs as [H1 H2]; apply negb_true_iff in H1, H2.
  cbn [filter_from]; rewrite H1, H2.
  apply filter_from_distinct; assumption.
Qed.

Lemma windows_chords filtered len : windows filtered len = chord_windows (map chord filtered) len.
Proof.
  unfold windows, chord_windows, pattern_at; rewrite length_map; f_equal.
  apply map_ext; intros i; rewrite skipn_map, firstn_map; reflexivity.
Qed.

Lemma in_firstn_in {A} n (l : list A) x : In x (firstn n l) -> In x l.
Proof. intros H; rewrite <- (firstn_skipn n l); apply in_or_app; left; exact H. Qed.

Lemma in_skipn_in {A} n (l : list A) x : In x (skipn n l) -> In x l.
Proof. intros H; rewrite <- (firstn_skipn n l); apply in_or_app; right; exact H. Qed.

Lemma chord_windows_plain l len :
  (forall c, In c l -> is_cluster_label c = false) ->
  chord_windows l len = map (fun i => firstn len (skipn i l)) (seq 0 (length l - (len - 1))).
Proof.
  intros H; unfold chord_windows; apply filter_all_true.
  intros p Hp; apply in_map_iff in Hp; destruct Hp as [i [<- _]].
  apply negb_true_iff; destruct (existsb _ _) eqn:E; [|reflexivity].
  apply existsb_exists in E; destruct E as [c [Hc Hcl]].
  rewrite (H c (in_skipn_in _ _ _ (in_firstn_in _ _ _ Hc))) in Hcl; discriminate.
Qed.

Section Mining.
Variable analyze : list string -> string.

Lemma in_progressions_of_length cfg filtered len y :
  In y (progressions_of_length analyze cfg filtered len) ->
  In (progression y, count y) (count_patterns (windows filtered len)) /\ prog_length y = len.
Proof.
  unfold progressions_of_length; intros H; apply in_flat_map in H.
  destruct H as [[pat cnt] [Hin Hy]].
  destruct (Nat.max 2 (length filtered / (len * 2)) <=? cnt)%nat; [|contradiction].
  cbv zeta in Hy; destruct (Qle_bool _ _); [|contradiction].
  destruct Hy as [<-|[]]; split; [exact Hin|reflexivity].
Qed.

Lemma progressions_of_length_in cfg filtered len pat cnt :
  In (pat, cnt) (count_patterns (windows filtered len)) ->
  (Nat.max 2 (length filtered / (len * 2)) <=? cnt)%nat = true ->
  Qle_bool (min_progression_duration cfg)
           (sum_durations (firstn (length pat) filtered) / inject_Z (Z.of_nat len)) = true ->
  exists p, In p (progressions_of_length analyze cfg filtered len) /\
            progression p = pat /\ count p = cnt /\ prog_length p = len.
Proof.
  intros Hin Hc Hq; eexists; split.
  - unfold progressions_of_length; apply in_flat_map; exists (pat, cnt); split; [exact Hin|].
    rewrite Hc; cbv zeta; rewrite Hq; left; reflexivity.
  - repeat split.
Qed.

End Mining.

Lemma counts_alternating2 A B : String.eqb A B = false -> String.eqb B A = false ->
  count_patterns (map (fun i => firstn 2 (skipn i [A; B; A; B; A; B; A; B])) (seq 0 (8 - (2 - 1))))
  = [([A; B], 4%nat); ([B; A], 3%nat)].
Proof.
  intros E1 E2; unfold count_patterns.
  repeat progress (simpl; rewrite ?E1, ?E2, ?String.eqb_refl); reflexivity.
Qed.

Lemma counts_alternating4 A B : String.eqb A B = false -> String.eqb B A = false ->
  count_patterns (map (fun i => firstn 4 (skipn i [A; B; A; B; A; B; A; B])) (seq 0 (8 - (4 - 1))))
  = [([A; B; A; B], 3%nat); ([B; A; B; A], 2%nat)].
Proof.
  intros E1 E2; unfold count_patterns.
  repeat progress (simpl; rewrite ?E1, ?E2, ?String.eqb_refl); reflexivity.
Qed.

Lemma avg_first_two_ok mp s0 s1 :
  duration s0 == end_time s0 - start_time s0 -> duration s1 == end_time s1 - start_time s1 ->
  mp < duration s0 -> mp < duration s1 ->
  Qle_bool mp (sum_durations [fseg s0; fseg s1] / inject_Z 2) = true.
Proof.
  intros H0 H1 L0 L1; apply ExactFacts.Qle_bool_R.
  unfold sum_durations, fseg; cbn [fold_right duration].
  rewrite ExactFacts.Q2R_div_any, !Q2R_plus, !Q2R_minus, ExactFacts.Q2R_0,
    ExactFacts.Q2R_inject_Z.
  apply Qeq_eqR in H0, H1; rewrite Q2R_minus in H0, H1.
  apply Qlt_Rlt in L0, L1; lra.
Qed.

End ProgressionFacts.

(** ** Properties of the progression miner *)

Module ProgressionClaims.
Import Progressions ProgressionFacts.

(** C7: the mined progressions are ordered by count descending and then by
    length ascending; and for eight segments whose chords alternate between
    two distinct labels [A] and [B] that are neither cluster labels nor
    ["N"], each longer than [min_chord_duration] and
    [min_progression_duration] (with [duration = end_time - start_time]),
    the top progression is [(A, B)] of length 2 with count 4. *)
Theorem progression_ranking (analyze : list string -> string) (cfg : config)
    (segs : list segment) :
  ranked (detect_chord_progression analyze cfg segs) /\
  (forall A B, A <> B -> is_cluster_label A = false -> is_cluster_label B = false ->
     A <> "N" -> B <> "N" ->
     map chord segs = [A; B; A; B; A; B; A; B] ->
     (forall s, In s segs ->
        duration s == end_time s - start_time s /\
        min_chord_duration cfg < duration s /\ min_progression_duration cfg < duration s) ->
     exists p rest, detect_chord_progression analyze cfg segs = p :: rest /\
                    progression p = [A; B] /\ (4 <= count p)%nat /\ count p = 4%nat /\
                    prog_length p = 2%nat).
Proof.
  split.
  { unfold detect_chord_progression; destruct segs; [exact I|].
    apply firstn_ranked, sort_ranked. }
  intros A B HAB HA HB _ _ Hch Hs.
  assert (EAB : String.eqb A B = false) by (apply String.eqb_neq; exact HAB).
  assert (EBA : String.eqb B A = false) by (apply String.eqb_neq; congruence).
  destruct segs as [|s0 [|s1 [|s2 [|s3 [|s4 [|s5 [|s6 [|s7 [|s8 segs]]]]]]]]];
    simpl in Hch; try discriminate Hch.
  injection Hch as E0 E1 E2 E3 E4 E5 E6 E7.
  set (segs := [s0; s1; s2; s3; s4; s5; s6; s7]) in *.
  assert (Hk : forall s, In s segs -> kept cfg s = true).
  { intros s Hin; destruct (Hs s Hin) as [_ [H1 H2]]; unfold kept, qlt.
    rewrite (proj2 (Qle_bool_iff _ _) (Qlt_le_weak _ _ H1)),
            (proj2 (Qle_bool_iff _ _) (Qlt_le_weak _ _ H2)).
    cbn [negb]; rewrite andb_false_r; reflexivity. }
  assert (Hf : filter_from cfg None segs = map fseg segs).
  { apply filter_from_none.
    - apply Hk; left; reflexivity.
    - cbn [adjacent_distinct]; rewrite E0, E1, E2, E3, E4, E5, E6, E7.
      repeat split; congruence.
    - apply forallb_forall; intros s Hin; apply Hk; right; exact Hin. }
  assert (Hchords : map chord (map fseg segs) = [A; B; A; B; A; B; A; B]).
  { simpl; rewrite E0, E1, E2, E3, E4, E5, E6, E7; reflexivity. }
  assert (Hnc : forall c, In c [A; B; A; B; A; B; A; B] -> is_cluster_label c = false).
  { intros c Hc; simpl in Hc; intuition (subst; auto). }
  assert (Hw2 : count_patterns (windows (map fseg segs) 2) = [([A; B], 4%nat); ([B; A], 3%nat)]).
  { rewrite windows_chords, Hchords, chord_windows_plain by exact Hnc.
    apply counts_alternating2; assumption. }
  assert (Hw4 : count_patterns (windows (map fseg segs) 4)
                = [([A; B; A; B], 3%nat); ([B; A; B; A], 2%nat)]).
  { rewrite windows_chords, Hchords, chord_windows_plain by exact Hnc.
    apply counts_alternating4; assumption. }
  unfold detect_chord_progression; cbv beta iota zeta; fold segs; rewrite Hf.
  set (all := flat_map _ [2; 4]%nat).
  assert (Hx : exists x, In x all /\ progression x = [A; B] /\ count x = 4%nat /\
                         prog_length x = 2%nat).
  { destruct (progressions_of_length_in analyze cfg (map fseg segs) 2 [A; B] 4)
      as [x [Hin [Hp [Hc Hl]]]].
    - rewrite Hw2; left; reflexivity.
    - reflexivity.
    - destruct (Hs s0) as [D0 [_ M0]]; [left; reflexivity|].
      destruct (Hs s1) as [D1 [_ M1]]; [right; left; reflexivity|].
      exact (avg_first_two_ok _ s0 s1 D0 D1 M0 M1).
    - exists x; split; [|auto].
      unfold all; apply in_flat_map; exists 2%nat; split; [left; reflexivity|exact Hin]. }
  destruct Hx as [x [Hxin [Hxp [Hxc Hxl]]]].
  destruct (sort_progressions all) as [|h rest] eqn:Es.
  { exfalso; apply (proj2 (in_sort_prog all x)) in Hxin; rewrite Es in Hxin; exact Hxin. }
  destruct (sort_head all h rest Es) as [Hh Hmax].
  specialize (Hmax x Hxin); unfold key_gt in Hmax; rewrite Hxc, Hxl in Hmax.
  apply orb_false_iff in Hmax as [M1 M2]; apply Nat.ltb_ge in M1.
  exists h, (firstn 2 rest); split; [reflexivity|].
  unfold all in Hh; apply in_flat_map in Hh; destruct Hh as [len [Hlen Hh]].
  simpl in Hlen; destruct Hlen as [<-|[<-|[]]]; cbn [length Nat.leb] in Hh;
    apply in_progressions_of_length in Hh; destruct Hh as [Hh Hl].
  - rewrite Hw2 in Hh; destruct Hh as [Hh|[Hh|[]]]; injection Hh as Hp Hc.
    + rewrite <- Hp, <- Hc; repeat split; [lia|exact Hl].
    + lia.
  - rewrite Hw4 in Hh; destruct Hh as [Hh|[Hh|[]]]; injection Hh as Hp Hc; lia.
Qed.

(** The alternating C-major / G-major segments satisfy the hypotheses of
    C7. *)
Lemma progression_ranking_witness :
  exists p rest,
    detect_chord_progression (fun _ => "Unknown") default_config alternating_segments
    = p :: rest /\ progression p = ["C:maj"; "G:maj"] /\ (4 <= count p)%nat /\
    count p = 4%nat /\ prog_length p = 2%nat.
Proof.
  destruct (progression_ranking (fun _ => "Unknown") default_config alternating_segments)
    as [_ H].
  apply H; [discriminate|reflexivity|reflexivity|discriminate|discriminate|reflexivity|].
  intros s Hin; simpl in Hin.
  repeat (destruct Hin as [<-|Hin]; [vm_compute; repeat split; reflexivity|]).
  contradiction.
Defined.

End ProgressionClaims.

(** ** Properties of the key estimator *)

Module KeyFacts.
Import KeyEstimation.

Lemma lookup_map_const {A} (k : string) (z : A) (l : list string) :
  In k l -> lookup k (map (fun k => (k, z)) l) = Some z.
Proof.
  induction l as [|a l IH]; simpl; [intros []|].
  intros [<-|H]; [rewrite String.eqb_refl; reflexivity|].
  destruct (String.eqb k a); [reflexivity|auto].
Qed.

Lemma lookup_notin {A} (k : string) (d : list (string * A)) :
  ~ In k (map fst d) -> lookup k d = None.
Proof.
  induction d as [|[k' v] d IH]; simpl; [reflexivity|].
  intros H; destruct (String.eqb k k') eqn:E.
  - apply String.eqb_eq in E; subst; exfalso; apply H; left; reflexivity.
  - apply IH; intros H'; apply H; right; exact H'.
Qed.

Lemma map_option_total {A B} (f : A -> option B) (g : A -> B) (l : list A) :
  (forall x, In x l -> f x = Some (g x)) -> map_option f l = Some (map g l).
Proof.
  induction l as [|a l IH]; simpl; intros H; [reflexivity|].
  rewrite (H a (or_introl eq_refl)), IH by (intros; apply H; right; assumption).
  reflexivity.
Qed.

Lemma fold_left_preserves {A B} (P : A -> Prop) (step : A -> B -> A) (l : list B) :
  (forall acc b, In b l -> P acc -> P (step acc b)) ->
  forall acc, P acc -> P (fold_left step l acc).
Proof.
  induction l as [|b l IH]; simpl; intros H acc Hacc; [exact Hacc|].
  apply IH; [intros; apply H; [right|]; assumption|].
  apply H; [left; reflexivity|exact Hacc].
Qed.

Lemma dict_update_keys {A} (k : string) (f : A -> A) (dflt : A) (d : list (string * A)) x :
  In x (map fst (dict_update k f dflt d)) -> x = k \/ In x (map fst d).
Proof.
  induction d as [|[k' v] d IH]; simpl.
  - intros [<-|[]]; left; reflexivity.
  - destruct (String.eqb k k'); simpl.
    + intros [<-|H]; right; [left; reflexivity|right; exact H].
    + intros [<-|H]; [right; left; reflexivity|].
      destruct (IH H); [left|right; right]; assumption.
Qed.

Lemma chord_functions_of_fst (ty : string) :
  map fst (chord_functions_of ty) = ["Major"; "Minor"].
Proof.
  unfold chord_functions_of.
  destruct (existsb _ ["maj"; "maj7"; "maj6"]); [reflexivity|].
  destruct (existsb _ ["min"; "min7"; "min6"]); [reflexivity|].
  destruct (existsb _ ["7"; "9"; "11"]); reflexivity.
Qed.

Lemma key_labels_check (s : string) :
  existsb (String.eqb s) key_labels = true -> In s key_labels.
Proof.
  intros H; apply existsb_exists in H as [x [Hx E]].
  apply String.eqb_eq in E; subst; exact Hx.
Qed.

Lemma key_labels_not_modes (k : string) :
  In k key_labels -> k <> "Major" /\ k <> "Minor".
Proof.
  intros H; vm_compute in H.
  repeat (destruct H as [<-|H]; [split; discriminate|]); destruct H.
Qed.

Lemma key_labels_cons : key_labels <> [].
Proof. vm_compute; discriminate. Qed.

Lemma key_name_major (i : nat) : (i < 12)%nat ->
  str_ends_with "Major" (key_name i "Major") = true /\
  py_split_ws (key_name i "Major") = [nth i root_notes ""; "Major"] /\
  index_of (nth i root_notes "") root_notes = Some i.
Proof.
  intros Hi.
  do 12 (destruct i as [|i]; [vm_compute; repeat split; reflexivity|]); lia.
Qed.

Lemma ends_minor_not_major (k : string) :
  str_ends_with "Minor" k = true -> str_ends_with "Major" k = false.
Proof.
  unfold str_ends_with; cbn [String.length].
  intros H; apply andb_true_iff in H as [H1 H2].
  apply String.eqb_eq in H2; rewrite H1, H2; reflexivity.
Qed.

Section Generic.
Variable num : Type.
Variable of_Q : Q -> num.
Variables add sub mul div : num -> num -> num.
Variable sqrt_ : num -> num.
Variable gt : num -> num -> bool.

Lemma key_scores_fst (f g : nat -> num) : map fst (key_scores num f g) = key_labels.
Proof. reflexivity. Qed.

Lemma key_scores_const (f g : nat -> num) (z : num) :
  (forall i, f i = z) -> (forall i, g i = z) ->
  key_scores num f g = map (fun k => (k, z)) key_labels.
Proof.
  intros Hf Hg; unfold key_scores.
  transitivity (flat_map (fun i => [(key_name i "Major", z); (key_name i "Minor", z)])
                         (seq 0 12)); [|reflexivity].
  apply flat_map_ext; intros i; rewrite Hf, Hg; reflexivity.
Qed.

Lemma py_max_in (fs : list (string * num)) p :
  py_max num gt fs = Some p -> In p fs.
Proof.
  destruct fs as [|q rest]; [discriminate|]; cbn [py_max]; intros H; injection H as <-.
  assert (G : forall l b, In b (q :: rest) -> incl l (q :: rest) ->
            In (fold_left (fun best x => if gt (snd x) (snd best) then x else best) l b)
               (q :: rest)).
  { induction l as [|a l IH]; simpl; intros b Hb Hl; [exact Hb|].
    apply IH; [|intros y Hy; apply Hl; right; exact Hy].
    destruct (gt _ _); [apply Hl; left; reflexivity|exact Hb]. }
  apply G; [left; reflexivity|intros y Hy; right; exact Hy].
Qed.

Lemma analyze_chord_progressions_keys (segs : list segment) x :
  In x (map fst (analyze_chord_progressions num of_Q add segs)) -> x = "Major" \/ x = "Minor".
Proof.
  unfold analyze_chord_progressions.
  apply (fold_left_preserves
           (fun cf : list (string * list (string * num)) =>
              forall x, In x (map fst cf) -> x = "Major" \/ x = "Minor"));
    [|intros y []].
  intros cf s _ Hcf; unfold add_chord_functions.
  destruct (String.eqb (chord s) "N"); [exact Hcf|].
  destruct (split_on ":" (chord s)) as [|r [|ty [|]]]; try exact Hcf.
  apply fold_left_preserves; [|exact Hcf].
  intros cf' mf Hmf Hcf'.
  assert (Hm : fst mf = "Major" \/ fst mf = "Minor").
  { apply (in_map fst) in Hmf; rewrite chord_functions_of_fst in Hmf.
    destruct Hmf as [<-|[<-|[]]]; [left|right]; reflexivity. }
  apply fold_left_preserves; [|exact Hcf'].
  intros cf'' f _ Hcf'' y Hy.
  destruct (dict_update_keys _ _ _ _ _ Hy) as [->|Hy']; [exact Hm|exact (Hcf'' y Hy')].
Qed.

Lemma analyze_chord_progressions_lookup (segs : list segment) k :
  In k key_labels -> lookup k (analyze_chord_progressions num of_Q add segs) = None.
Proof.
  intros Hk; apply lookup_notin; intros H.
  destruct (key_labels_not_modes k Hk) as [H1 H2].
  destruct (analyze_chord_progressions_keys segs k H); contradiction.
Qed.

Lemma combined_score_some (d1 d2 d4 d5 : list (string * num)) n k :
  lookup k n = None ->
  combined_score num of_Q add mul
    [("krumhansl", Flat d1); ("temperley", Flat d2); ("chord_prog", Nested n);
     ("chroma_stats", Flat d4); ("ml", Flat d5)] k <> None.
Proof.
  intros H; unfold combined_score, KEY_WEIGHTS; simpl.
  rewrite H; simpl; discriminate.
Qed.

Lemma combine_shape (K : list string) (d1 d2 d4 d5 : list (string * num)) n (f : string -> num) :
  K <> [] -> map fst d1 = K ->
  (forall k, In k K -> combined_score num of_Q add mul
     [("krumhansl", Flat d1); ("temperley", Flat d2); ("chord_prog", Nested n);
      ("chroma_stats", Flat d4); ("ml", Flat d5)] k = Some (f k)) ->
  combine_key_scores num of_Q add mul
    [("krumhansl", Flat d1); ("temperley", Flat d2); ("chord_prog", Nested n);
     ("chroma_stats", Flat d4); ("ml", Flat d5)] = map (fun k => (k, f k)) K.
Proof.
  intros HK Hd1 Hc; unfold combine_key_scores, available_keys.
  cbn [map snd find method_keys]; rewrite Hd1.
  destruct K as [|k K']; [contradiction|].
  cbn [method_keys]; rewrite Hd1.
  rewrite (map_option_total _ (fun k => (k, f k))); [reflexivity|].
  intros x Hx; rewrite (Hc x Hx); reflexivity.
Qed.

Lemma finalize_in_labels (fs : list (string * num)) :
  map fst fs = key_labels -> In (finalize_key num of_Q mul gt fs) key_labels.
Proof.
  intros Hfs.
  destruct (py_max num gt fs) as [[k v]|] eqn:Hm.
  - assert (Hk : In k key_labels).
    { rewrite <- Hfs; exact (in_map fst _ _ (py_max_in _ _ Hm)). }
    unfold finalize_key; rewrite Hm; apply key_labels_check.
    vm_compute in Hk.
    repeat (destruct Hk as [<-|Hk];
      [cbn -[lookup key_labels];
       repeat match goal with
              | |- context [lookup ?a fs] => destruct (lookup a fs)
              | |- context [gt ?a ?b] => destruct (gt a b)
              end; reflexivity|]).
    destruct Hk.
  - destruct fs; [discriminate Hfs|discriminate Hm].
Qed.

(** Whatever the chroma and the segments, the estimate is one of the 24 key
    labels. *)
Lemma estimate_key_in_labels (chroma : list (list num)) (segs : list segment) :
  In (estimate_key num of_Q add sub mul div sqrt_ gt chroma segs) key_labels.
Proof.
  unfold estimate_key, key_methods_scores.
  set (cv := key_chroma_vector num of_Q add div gt chroma).
  set (ms := [("krumhansl", Flat (krumhansl_schmuckler num of_Q add sub mul div sqrt_ gt cv));
              ("temperley", Flat (temperley_kostka_payne num of_Q add mul cv));
              ("chord_prog", Nested (analyze_chord_progressions num of_Q add segs));
              ("chroma_stats", Flat (analyze_chroma_statistics num of_Q add sub mul div chroma));
              ("ml", Flat (ml_key_detection num of_Q add mul div gt cv segs))]).
  assert (Hd1 : map fst (krumhansl_schmuckler num of_Q add sub mul div sqrt_ gt cv)
                = key_labels) by exact (key_scores_fst _ _).
  unfold ms; rewrite (combine_shape key_labels _ _ _ _ _
             (fun k => match combined_score num of_Q add mul ms k with
                       | Some v => v | None => of_Q 0 end) key_labels_cons Hd1).
  - destruct (map _ key_labels) as [|p l] eqn:E.
    + exfalso; apply (f_equal (@length _)) in E; rewrite length_map in E;
        vm_compute in E; discriminate.
    + apply (finalize_in_labels (p :: l)); rewrite <- E, map_map; apply map_id.
  - intros k Hk.
    pose proof (combined_score_some
                  (krumhansl_schmuckler num of_Q add sub mul div sqrt_ gt cv)
                  (temperley_kostka_payne num of_Q add mul cv)
                  (analyze_chroma_statistics num of_Q add sub mul div chroma)
                  (ml_key_detection num of_Q add mul div gt cv segs) _ k
                  (analyze_chord_progressions_lookup segs k Hk)) as H.
    fold ms in H |- *; destruct (combined_score num of_Q add mul ms k); [reflexivity|].
    contradiction.
Qed.

End Generic.
End KeyFacts.

(** ** The key estimator on doubles *)

Module DoubleFacts.
Import KeyEstimation KeyFacts Double.
Open Scope R_scope.

Lemma Q2R_0' : Q2R 0 = 0.
Proof. unfold Q2R; simpl; ring. Qed.

Lemma fold_fadd_Fin (l : list R) (a : R) :
  fold_left fadd (map Fin l) (Fin a) = Fin (a + fold_right Rplus 0 l).
Proof.
  revert a; induction l as [|x l IH]; intros a; simpl.
  - f_equal; ring.
  - rewrite IH; f_equal; ring.
Qed.

Lemma nsum_Fin (l : list R) :
  nsum fl of_Q fadd (map Fin l) = Fin (fold_right Rplus 0 l).
Proof.
  unfold nsum, of_Q; rewrite fold_fadd_Fin, Q2R_0'; f_equal; ring.
Qed.

Lemma fdiv_Fin (a b : R) : b <> 0 -> fdiv (Fin a) (Fin b) = Fin (a / b).
Proof. intros H; cbn [fdiv]; destruct (Req_EM_T b 0); [contradiction|reflexivity]. Qed.

(** Values that are a zero or a NaN. *)
Lemma zn_mul_l (z t : fl) : z = Fin 0 \/ z = NaN -> fmul z t = Fin 0 \/ fmul z t = NaN.
Proof.
  intros [->| ->]; [|right; reflexivity].
  destruct t as [r| | |]; cbn [fmul]; try (right; reflexivity).
  - left; f_equal; ring.
  - destruct (Req_EM_T 0 0); [right; reflexivity|contradiction].
  - destruct (Req_EM_T 0 0); [right; reflexivity|contradiction].
Qed.

Lemma zn_mul_r (t : fl) : fmul t (Fin 0) = Fin 0 \/ fmul t (Fin 0) = NaN.
Proof.
  destruct t as [r| | |]; cbn [fmul]; try (right; reflexivity).
  - left; f_equal; ring.
  - destruct (Req_EM_T 0 0); [right; reflexivity|contradiction].
  - destruct (Req_EM_T 0 0); [right; reflexivity|contradiction].
Qed.

Lemma zn_add (a b : fl) : a = Fin 0 \/ a = NaN -> b = Fin 0 \/ b = NaN ->
  fadd a b = Fin 0 \/ fadd a b = NaN.
Proof.
  intros [->| ->] [->| ->]; cbn [fadd]; try (right; reflexivity).
  left; f_equal; ring.
Qed.

Lemma zn_fold (l : list fl) (acc : fl) :
  acc = Fin 0 \/ acc = NaN -> (forall z, In z l -> z = Fin 0 \/ z = NaN) ->
  fold_left fadd l acc = Fin 0 \/ fold_left fadd l acc = NaN.
Proof.
  revert acc; induction l as [|x l IH]; simpl; intros acc Hacc Hl; [exact Hacc|].
  apply IH; [apply zn_add; [exact Hacc|apply Hl; left; reflexivity]|].
  intros z Hz; apply Hl; right; exact Hz.
Qed.

Lemma zn_ndot (dx : list fl) (n : nat) :
  ndot fl of_Q fadd fmul dx (repeat (Fin 0) n) = Fin 0 \/
  ndot fl of_Q fadd fmul dx (repeat (Fin 0) n) = NaN.
Proof.
  unfold ndot, nsum, of_Q; rewrite Q2R_0'.
  apply zn_fold; [left; reflexivity|].
  intros z Hz; apply in_map_iff in Hz as [[a b] [<- Hab]].
  apply in_combine_r, repeat_spec in Hab; cbn [fst snd]; subst b; apply zn_mul_r.
Qed.

Lemma zn_sqrt (z : fl) : z = Fin 0 \/ z = NaN -> fsqrt z = Fin 0 \/ fsqrt z = NaN.
Proof.
  intros [->| ->]; cbn [fsqrt]; [|right; reflexivity].
  destruct (Rlt_dec 0 0); [right; reflexivity|left; rewrite sqrt_0; reflexivity].
Qed.

Lemma zn_div_l (z s : fl) : z = Fin 0 \/ z = NaN -> fdiv z s = Fin 0 \/ fdiv z s = NaN.
Proof.
  intros [->| ->]; [|right; reflexivity].
  destruct s as [b| | |]; cbn [fdiv]; try (left; reflexivity); try (right; reflexivity).
  destruct (Req_EM_T b 0); [destruct (Req_EM_T 0 0); [right; reflexivity|contradiction]|].
  left; f_equal; unfold Rdiv; ring.
Qed.

Lemma zn_div_zn (z s : fl) : z = Fin 0 \/ z = NaN -> s = Fin 0 \/ s = NaN -> fdiv z s = NaN.
Proof.
  intros [->| ->] [->| ->]; cbn [fdiv]; try reflexivity.
  destruct (Req_EM_T 0 0); [|contradiction].
  destruct (Req_EM_T 0 0); [reflexivity|contradiction].
Qed.

Lemma nmean_const (c : R) :
  nmean fl of_Q fadd fdiv (repeat (Fin c) 12) = Fin c.
Proof.
  unfold nmean, of_nat, of_Q.
  replace (repeat (Fin c) 12) with (map Fin (repeat c 12)) by apply map_repeat.
  rewrite nsum_Fin, length_map, repeat_length, fdiv_Fin.
  - f_equal; unfold Q2R; simpl; field.
  - unfold Q2R; simpl; lra.
Qed.

(** [np.corrcoef] against a constant vector is NaN. *)
Lemma corrcoef_const (x : list fl) (c : R) :
  corrcoef01 fl of_Q fadd fsub fmul fdiv fsqrt fgt x (repeat (Fin c) 12) = NaN.
Proof.
  unfold corrcoef01; cbv zeta; rewrite nmean_const.
  replace (map (fun a => fsub a (Fin c)) (repeat (Fin c) 12)) with (repeat (Fin 0) 12)
    by (rewrite map_repeat; cbn [fsub fneg fadd]; repeat f_equal; ring).
  rewrite zn_div_zn.
  - reflexivity.
  - apply zn_div_l, zn_mul_l, zn_ndot.
  - apply zn_sqrt, zn_mul_l, zn_ndot.
Qed.

Lemma krumhansl_schmuckler_const (c : R) :
  krumhansl_schmuckler fl of_Q fadd fsub fmul fdiv fsqrt fgt (repeat (Fin c) 12)
  = map (fun k => (k, NaN)) key_labels.
Proof.
  unfold krumhansl_schmuckler; apply key_scores_const; intros i; apply corrcoef_const.
Qed.

Lemma combined_score_nan (d1 d2 d4 d5 : list (string * fl)) n k :
  lookup k d1 = Some NaN -> lookup k n = None ->
  combined_score fl of_Q fadd fmul
    [("krumhansl", Flat d1); ("temperley", Flat d2); ("chord_prog", Nested n);
     ("chroma_stats", Flat d4); ("ml", Flat d5)] k = Some NaN.
Proof.
  intros H1 H2; unfold combined_score, KEY_WEIGHTS; simpl.
  rewrite H1, H2; reflexivity.
Qed.

Lemma key_chroma_vector_nonpositive (chroma : list (list R)) :
  fold_right Rplus 0 (map (fold_right Rplus 0) chroma) <= 0 ->
  exists c, key_chroma_vector fl of_Q fadd fdiv fgt (map (map Fin) chroma) = repeat (Fin c) 12.
Proof.
  intros H; unfold key_chroma_vector.
  replace (map (nsum fl of_Q fadd) (map (map Fin) chroma))
    with (map Fin (map (fold_right Rplus 0) chroma)).
  2:{ rewrite !map_map; apply map_ext; intros r; symmetry; apply nsum_Fin. }
  rewrite nsum_Fin; unfold of_Q; cbn [fgt]; rewrite Q2R_0'.
  destruct (Rlt_dec 0 _) as [Hlt|_]; [lra|].
  exists (Q2R 1 / Q2R 12); rewrite fdiv_Fin; [reflexivity|unfold Q2R; simpl; lra].
Qed.

(** On a chroma matrix of non-positive total energy, in particular a silent
    or an empty one, the estimate is ["C Major"]. *)
Lemma estimate_key_nonpositive (chroma : list (list R)) (segs : list segment) :
  fold_right Rplus 0 (map (fold_right Rplus 0) chroma) <= 0 ->
  Double.estimate_key (map (map Fin) chroma) segs = "C Major".
Proof.
  intros H; destruct (key_chroma_vector_nonpositive chroma H) as [c Hc].
  unfold Double.estimate_key, KeyEstimation.estimate_key, key_methods_scores.
  rewrite Hc, krumhansl_schmuckler_const.
  rewrite (combine_shape fl of_Q fadd fmul key_labels _ _ _ _ _ (fun _ => NaN)
             key_labels_cons).
  - reflexivity.
  - rewrite map_map; apply map_id.
  - intros k Hk; apply combined_score_nan;
      [apply lookup_map_const, Hk|apply analyze_chord_progressions_lookup, Hk].
Qed.

End DoubleFacts.

Module KeyClaims.
Import KeyEstimation KeyFacts Double DoubleFacts.
Open Scope R_scope.

Lemma Q2R_nine_tenths : Q2R (9#10) = 9 / 10.
Proof. unfold Q2R; simpl; field. Qed.

(** C8: when the winning key (the first item with the largest combined
    score) is the Major key of root [i], with score [w], and its relative
    minor (root [(i + 9) mod 12]) scores [s], the estimate is the relative
    minor exactly when [s > 0.9 * w] and the Major key when [s <= 0.9 * w];
    a Minor winning key is returned unchanged. *)
Theorem relative_minor_correction (fs : list (string * fl)) :
  (forall i w s, (i < 12)%nat ->
     Double.py_max fs = Some (key_name i "Major", Fin w) ->
     lookup (key_name ((i + 9) mod 12) "Minor") fs = Some (Fin s) ->
     (9 / 10 * w < s -> Double.finalize_key fs = key_name ((i + 9) mod 12) "Minor") /\
     (s <= 9 / 10 * w -> Double.finalize_key fs = key_name i "Major")) /\
  (forall k v, Double.py_max fs = Some (k, v) -> str_ends_with "Minor" k = true ->
     Double.finalize_key fs = k).
Proof.
  split.
  - intros i w s Hi Hm Hs.
    destruct (key_name_major i Hi) as [E1 [E2 E3]].
    assert (Hf : Double.finalize_key fs =
                 if fgt (Fin s) (fmul (Fin w) (of_Q (9#10)))
                 then key_name ((i + 9) mod 12) "Minor" else key_name i "Major").
    { unfold Double.finalize_key, KeyEstimation.finalize_key; unfold Double.py_max in Hm.
      rewrite Hm, E1; cbv beta iota; rewrite E2; cbv beta iota; rewrite E3;
        cbv beta iota zeta.
      change ((nth ((i + 9) mod 12) root_notes "" ++ " Minor")%string)
        with (key_name ((i + 9) mod 12) "Minor").
      rewrite Hs; reflexivity. }
    rewrite Hf; unfold of_Q; cbn [fmul fgt]; rewrite Q2R_nine_tenths.
    split; intros H; destruct (Rlt_dec _ _); first [reflexivity | lra].
  - intros k v Hm Hk; unfold Double.finalize_key, KeyEstimation.finalize_key;
      unfold Double.py_max in Hm.
    rewrite Hm, (ends_minor_not_major k Hk); reflexivity.
Qed.

(** C Major and A Minor tied at 1: the relative minor is chosen. *)
Lemma relative_minor_correction_witness :
  Double.finalize_key [("C Major", Fin 1); ("A Minor", Fin 1)] = "A Minor".
Proof.
  destruct (relative_minor_correction [("C Major", Fin 1); ("A Minor", Fin 1)]) as [H _].
  refine (proj1 (H 0%nat 1 1 _ _ _) _).
  - lia.
  - unfold Double.py_max, KeyEstimation.py_max; cbn.
    destruct (Rlt_dec 1 1); [lra|reflexivity].
  - reflexivity.
  - lra.
Defined.

(** A relative minor exactly 10% below a winning C Major (9 against 10),
    or tied with it at 0, is not chosen. *)
Lemma relative_minor_within_ten_percent_kept :
  Double.py_max [("C Major", Fin 10); ("A Minor", Fin 9)] = Some ("C Major", Fin 10) /\
  Double.finalize_key [("C Major", Fin 10); ("A Minor", Fin 9)] = "C Major" /\
  Double.py_max [("C Major", Fin 0); ("A Minor", Fin 0)] = Some ("C Major", Fin 0) /\
  Double.finalize_key [("C Major", Fin 0); ("A Minor", Fin 0)] = "C Major".
Proof.
  unfold Double.finalize_key, KeyEstimation.finalize_key, Double.py_max, KeyEstimation.py_max, of_Q.
  repeat split;
    repeat (cbn; match goal with |- context [Rlt_dec ?a ?b] => destruct (Rlt_dec a b) end);
    try reflexivity; rewrite ?Q2R_nine_tenths in *; exfalso; lra.
Qed.

(** C9: for a 12-row chroma matrix and any segment list the estimate is one
    of the 24 key labels, never ["Unknown Key"]; on a chroma matrix of
    non-positive total energy (silent or empty) it is ["C Major"]. *)
Theorem estimate_key_degenerate (chroma : list (list R)) (segs : list segment) :
  length chroma = 12%nat ->
  In (Double.estimate_key (map (map Fin) chroma) segs) key_labels /\
  Double.estimate_key (map (map Fin) chroma) segs <> "Unknown Key" /\
  (fold_right Rplus 0 (map (fold_right Rplus 0) chroma) <= 0 ->
   Double.estimate_key (map (map Fin) chroma) segs = "C Major").
Proof.
  intros _.
  pose proof (estimate_key_in_labels fl of_Q fadd fsub fmul fdiv fsqrt fgt
                (map (map Fin) chroma) segs) as Hin.
  split; [exact Hin|split; [|apply estimate_key_nonpositive]].
  intros E; unfold Double.estimate_key in E; rewrite E in Hin.
  vm_compute in Hin; repeat (destruct Hin as [Hin|Hin]; [discriminate Hin|]); exact Hin.
Qed.

(** The silent chroma matrix with no segments. *)
Lemma estimate_key_degenerate_witness :
  Double.estimate_key (map (map Fin) silent_chroma) [] = "C Major".
Proof.
  refine (proj2 (proj2 (estimate_key_degenerate silent_chroma [] _)) _).
  - reflexivity.
  - unfold silent_chroma; simpl; lra.
Defined.

(** A silent chroma matrix (4 frames of zeros) and an empty one (no frames),
    each with no segments, give ["C Major"], not ["Unknown Key"]. *)
Lemma silent_chroma_gives_c_major :
  Double.estimate_key (map (map Fin) silent_chroma) [] = "C Major" /\
  Double.estimate_key (map (map Fin) (repeat [] 12)) [] = "C Major".
Proof.
  split; apply estimate_key_nonpositive; [unfold silent_chroma|]; simpl; lra.
Qed.

End KeyClaims.

(** * Further properties of the pipeline *)

(** ** Rational inequalities through the reals *)

Module QFacts.

Lemma Q2R_num (n : Z) (d : positive) : Q2R (n # d) = (IZR n / IZR (Zpos d))%R.
Proof. reflexivity. Qed.

Ltac q_to_R :=
  repeat match goal with
         | H : Qle _ _ |- _ => apply Qle_Rle in H
         | H : Qeq _ _ |- _ => apply Qeq_eqR in H
         end;
  try apply Rle_Qle; try apply eqR_Qeq;
  repeat rewrite ?Q2R_plus, ?Q2R_minus, ?Q2R_num in *.

End QFacts.

(** ** Sequence simplification *)

Module SimplifyFacts.
Import Simplify QFacts.
Open Scope Q_scope.

(** The test of the loop: the entry is neither ["N"] nor shorter than
    [min_duration]. *)
Definition keep (min_duration : Q) (s : segment) : bool :=
  negb (String.eqb (chord s) "N" || Progressions.qlt (duration s) min_duration).

(** Runs of equal names collapsed to one, [prev] the last name kept. *)
Fixpoint collapse (prev : option string) (l : list string) : list string :=
  match l with
  | [] => []
  | x :: rest => if opt_str_eqb prev (Some x) then collapse prev rest
                 else x :: collapse (Some x) rest
  end.

Fixpoint no_adjacent_repeat (l : list string) : Prop :=
  match l with
  | x :: ((y :: _) as rest) => x <> y /\ no_adjacent_repeat rest
  | _ => True
  end.

(** A timeline starting no earlier than [t]: every entry has
    [start_time <= end_time] and [duration == end_time - start_time], and
    starts no earlier than the previous one ends. *)
Fixpoint timeline_from (t : Q) (l : list segment) : Prop :=
  match l with
  | [] => True
  | s :: rest =>
      t <= start_time s /\ start_time s <= end_time s /\
      duration s == end_time s - start_time s /\ timeline_from (end_time s) rest
  end.

Lemma simplify_from_chords md prev segs :
  map chord (simplify_from md prev segs) =
  match prev with
  | None => collapse None (map chord (filter (keep md) segs))
  | Some p => chord p :: collapse (Some (chord p)) (map chord (filter (keep md) segs))
  end.
Proof.
  revert prev; induction segs as [|s rest IH]; intros prev.
  - destruct prev; reflexivity.
  - cbn [simplify_from filter].
    replace (keep md s) with (negb (String.eqb (chord s) "N" ||
                                    Progressions.qlt (duration s) md)) by reflexivity.
    destruct (String.eqb (chord s) "N" || Progressions.qlt (duration s) md) eqn:E;
      cbn [negb]; [apply IH|].
    destruct prev as [p|].
    + destruct (String.eqb (chord p) (chord s)) eqn:Ep.
      * rewrite IH; cbn [map collapse chord opt_str_eqb]; rewrite Ep; reflexivity.
      * cbn [map]; rewrite IH; cbn [collapse opt_str_eqb]; rewrite Ep; reflexivity.
    + rewrite IH; reflexivity.
Qed.

Lemma collapse_in prev l x : In x (collapse prev l) -> In x l.
Proof.
  revert prev; induction l as [|y l IH]; intros prev; cbn [collapse]; [auto|].
  destruct (opt_str_eqb prev (Some y)); [intros H; right; eauto|].
  intros [<-|H]; [left; reflexivity|right; eauto].
Qed.

Lemma collapse_no_repeat l : forall prev,
  no_adjacent_repeat (collapse prev l) /\
  (forall c y r, prev = Some c -> collapse prev l = y :: r -> y <> c).
Proof.
  induction l as [|x l IH]; intros prev; cbn [collapse].
  - split; [exact I|discriminate].
  - destruct (opt_str_eqb prev (Some x)) eqn:E; [apply IH|].
    split.
    + destruct (IH (Some x)) as [H1 H2].
      destruct (collapse (Some x) l) as [|y r] eqn:Ec; [exact I|].
      split; [|exact H1].
      intros ->; exact (H2 y y r eq_refl eq_refl eq_refl).
    + intros c y r -> [= <- _] ->.
      cbn in E; rewrite String.eqb_refl in E; discriminate.
Qed.

Lemma keep_not_n md s : keep md s = true -> chord s <> "N".
Proof.
  unfold keep; intros H E; rewrite E in H; discriminate.
Qed.

Lemma keep_duration md s : keep md s = true -> md <= duration s.
Proof.
  unfold keep, Progressions.qlt; intros H.
  apply negb_true_iff, orb_false_iff in H as [_ H].
  apply negb_false_iff, Qle_bool_iff in H; exact H.
Qed.

Lemma simplify_timeline md segs : forall t prev t0,
  timeline_from t segs ->
  match prev with
  | None => t0 <= t
  | Some p => t0 <= start_time p /\ start_time p <= end_time p /\
              duration p == end_time p - start_time p /\ md <= duration p /\
              end_time p <= t
  end ->
  timeline_from t0 (simplify_from md prev segs) /\
  Forall (fun s => md <= duration s) (simplify_from md prev segs).
Proof.
  induction segs as [|s rest IH]; intros t prev t0 Ht Hp.
  - destruct prev as [p|]; cbn [simplify_from]; [|split; [exact I|constructor]].
    destruct Hp as (H1 & H2 & H3 & H4 & _).
    split; [cbn; tauto|constructor; [exact H4|constructor]].
  - destruct Ht as (Hs1 & Hs2 & Hs3 & Ht).
    cbn [simplify_from].
    destruct (String.eqb (chord s) "N" || Progressions.qlt (duration s) md) eqn:E.
    + apply (IH (end_time s)); [exact Ht|].
      destruct prev as [p|].
      * destruct Hp as (H1 & H2 & H3 & H4 & H5); repeat split; try assumption.
        q_to_R; lra.
      * q_to_R; lra.
    + assert (Hk : keep md s = true) by (unfold keep; rewrite E; reflexivity).
      pose proof (keep_duration md s Hk) as Hd.
      destruct prev as [p|].
      * destruct Hp as (H1 & H2 & H3 & H4 & H5).
        destruct (String.eqb (chord p) (chord s)).
        -- apply (IH (end_time s)); [exact Ht|]; cbn.
           repeat split; try assumption; try (q_to_R; lra); reflexivity.
        -- destruct (IH (end_time s) (Some s) (end_time p) Ht) as [IH1 IH2];
             [repeat split; try assumption; q_to_R; lra|].
           split; [cbn; repeat split; assumption|constructor; assumption].
      * apply (IH (end_time s)); [exact Ht|].
        repeat split; try assumption; try (q_to_R; lra); apply Qle_refl.
Qed.

Lemma adjacent_distinct_of_no_repeat s r :
  no_adjacent_repeat (map chord (s :: r)) -> Progressions.adjacent_distinct (chord s) r.
Proof.
  revert s; induction r as [|s' r IH]; intros s H; [exact I|].
  destruct H as [H1 H2]; split; [intros E; apply H1; symmetry; exact E|].
  apply IH; exact H2.
Qed.

Lemma simplify_fixed md l : forall p,
  Forall (fun s => keep md s = true) l -> Progressions.adjacent_distinct (chord p) l ->
  simplify_from md (Some p) l = p :: l.
Proof.
  induction l as [|s l IH]; intros p Hk Hd; [reflexivity|].
  inversion Hk as [|? ? Hs Hl]; subst; destruct Hd as [Hne Hd].
  cbn [simplify_from]; unfold keep in Hs.
  destruct (String.eqb (chord s) "N" || Progressions.qlt (duration s) md); [discriminate|].
  rewrite (proj2 (String.eqb_neq _ _) (fun E => Hne (eq_sym E))).
  rewrite IH by assumption; reflexivity.
Qed.

Lemma convert_from_timeline cs sr hop t :
  (0 < sr)%Z -> (0 < hop)%Z -> timeline_from t (convert_from cs sr hop t).
Proof.
  intros Hsr Hhop; revert t; induction cs as [|[c f] cs IH]; intros t; [exact I|].
  pose proof (ConvertFacts.frames_to_seconds_nonneg f sr hop Hsr Hhop) as Hf.
  cbn [convert_from timeline_from start_time end_time duration].
  repeat split; [apply Qle_refl| |q_to_R; lra|apply IH].
  q_to_R; lra.
Qed.

End SimplifyFacts.

Module SimplifyProps.
Import Simplify SimplifyFacts.
Open Scope Q_scope.

(** The chord names of [simplify_chord_sequence] are those of the entries
    that are neither ["N"] nor shorter than [min_duration], with runs of
    equal names collapsed: no ["N"] is left and no two neighbours share a
    name. *)
Theorem simplify_chord_sequence_chords (chord_sequence : list segment) (min_duration : Q) :
  let out := simplify_chord_sequence chord_sequence min_duration in
  map chord out = collapse None (map chord (filter (keep min_duration) chord_sequence)) /\
  ~ In "N"%string (map chord out) /\
  no_adjacent_repeat (map chord out).
Proof.
  cbv zeta; unfold simplify_chord_sequence.
  rewrite (simplify_from_chords min_duration None chord_sequence).
  split; [reflexivity|split; [|apply collapse_no_repeat]].
  intros H; apply collapse_in, in_map_iff in H as [s [Hs Hin]].
  apply filter_In in Hin as [_ Hk]; exact (keep_not_n _ _ Hk Hs).
Qed.

(** On an ordered, well-formed timeline, every entry of the output lasts at
    least [min_duration], merged entries included, and the output is again an
    ordered, well-formed timeline. *)
Theorem simplify_chord_sequence_timeline (chord_sequence : list segment) (min_duration t : Q) :
  timeline_from t chord_sequence ->
  timeline_from t (simplify_chord_sequence chord_sequence min_duration) /\
  Forall (fun s => min_duration <= duration s) (simplify_chord_sequence chord_sequence min_duration).
Proof.
  intros H; exact (simplify_timeline min_duration chord_sequence t None t H (Qle_refl t)).
Qed.

Lemma simplify_chord_sequence_timeline_witness :
  timeline_from 0 alternating_segments /\
  Forall (fun s => default_min_duration <= duration s)
         (simplify_chord_sequence alternating_segments default_min_duration).
Proof.
  assert (H : timeline_from 0 alternating_segments)
    by (vm_compute; repeat split; discriminate).
  split; [exact H|].
  exact (proj2 (simplify_chord_sequence_timeline alternating_segments default_min_duration 0 H)).
Defined.

(** Simplifying the output of [convert_frames_to_time] a second time changes
    nothing, for a positive sample rate and hop length. *)
Theorem simplify_converted_idempotent (chord_sequence : list (string * nat)) (sr hop_length : Z)
    (min_duration : Q) :
  (0 < sr)%Z -> (0 < hop_length)%Z ->
  let once := simplify_chord_sequence (convert_frames_to_time chord_sequence sr hop_length)
                                      min_duration in
  simplify_chord_sequence once min_duration = once.
Proof.
  intros Hsr Hhop; cbv zeta.
  set (once := simplify_chord_sequence (convert_frames_to_time chord_sequence sr hop_length)
                                      min_duration).
  assert (Ht : timeline_from 0 once /\ Forall (fun s => min_duration <= duration s) once).
  { apply (simplify_timeline min_duration _ 0 None 0);
      [apply convert_from_timeline; assumption|apply Qle_refl]. }
  assert (Hc : map chord once =
                collapse None (map chord (filter (keep min_duration)
                                                 (convert_frames_to_time chord_sequence sr hop_length))))
    by exact (simplify_from_chords min_duration None _).
  assert (Hn : forall s, In s once -> chord s <> "N"%string).
  { intros s Hs E; assert (Hi : In (chord s) (map chord once)) by (apply in_map; exact Hs).
    rewrite Hc in Hi; apply collapse_in, in_map_iff in Hi as [s' [Hs' Hin]].
    apply filter_In in Hin as [_ Hk]; apply (keep_not_n _ _ Hk); rewrite Hs'; exact E. }
  assert (Hr : no_adjacent_repeat (map chord once)) by (rewrite Hc; apply collapse_no_repeat).
  destruct Ht as [_ Hd].
  destruct once as [|s r] eqn:Eo; [reflexivity|].
  unfold simplify_chord_sequence at 1; cbn [simplify_from].
  assert (Hks : forall x, In x (s :: r) -> keep min_duration x = true).
  { intros x Hx; unfold keep, Progressions.qlt.
    rewrite (proj2 (String.eqb_neq _ _) (Hn x Hx)).
    rewrite Forall_forall in Hd; rewrite (proj2 (Qle_bool_iff _ _) (Hd x Hx)); reflexivity. }
  pose proof (Hks s (or_introl eq_refl)) as Hs; unfold keep in Hs.
  destruct (String.eqb (chord s) "N" || Progressions.qlt (duration s) min_duration);
    [discriminate|].
  apply simplify_fixed.
  - apply Forall_forall; intros x Hx; apply Hks; right; exact Hx.
  - apply adjacent_distinct_of_no_repeat; exact Hr.
Qed.

Lemma simplify_converted_idempotent_witness :
  (0 < 22050)%Z /\ (0 < 512)%Z /\
  simplify_chord_sequence
    (simplify_chord_sequence (convert_frames_to_time [("C:maj", 40%nat); ("C:maj", 10%nat); ("N", 5%nat); ("G:maj", 30%nat)] 22050 512)
                             default_min_duration) default_min_duration =
  simplify_chord_sequence (convert_frames_to_time [("C:maj", 40%nat); ("C:maj", 10%nat); ("N", 5%nat); ("G:maj", 30%nat)] 22050 512)
                          default_min_duration.
Proof.
  split; [reflexivity|split; [reflexivity|]].
  exact (simplify_converted_idempotent _ 22050 512 default_min_duration eq_refl eq_refl).
Defined.

End SimplifyProps.

(** ** Naming a progression *)

Module ChordFunctionFacts.
Import ChordFunction.

Lemma pattern_eqb_eq p q : Progressions.pattern_eqb p q = true <-> p = q.
Proof.
  revert q; induction p as [|x p IH]; intros [|y q]; cbn; try (split; congruence).
  rewrite andb_true_iff, String.eqb_eq, IH; split; [intros [-> ->]; reflexivity|].
  intros [= -> ->]; split; reflexivity.
Qed.

Lemma first_match_in ps ct n : first_match ps ct = Some n -> In n (map snd ps).
Proof.
  induction ps as [|[p m] ps IH]; cbn; [discriminate|].
  destruct (occurs_in p ct); [intros [= ->]; left; reflexivity|intros H; right; auto].
Qed.

Definition cadence_names : list string :=
  ["Authentic Cadence"; "Half Cadence"; "Deceptive Cadence"; "Jazz Cadence";
   "Custom Progression"].

Lemma cadence_name_in ct : In (cadence_name ct) cadence_names.
Proof.
  unfold cadence_name, cadence_names.
  destruct (2 <=? length ct)%nat; [|cbn; tauto].
  repeat match goal with |- context [if ?b then _ else _] => destruct b end; cbn; tauto.
Qed.

(** Every name the function can return. *)
Lemma analyze_chord_function_cases progression :
  (chord_types_of progression = [] /\ analyze_chord_function progression = "Unknown") \/
  (chord_types_of progression <> [] /\
   (In (analyze_chord_function progression) (map snd common_patterns) \/
    In (analyze_chord_function progression) cadence_names)).
Proof.
  unfold analyze_chord_function.
  destruct (chord_types_of progression) as [|t ts] eqn:E; [left; split; reflexivity|].
  right; split; [discriminate|].
  destruct (first_match common_patterns (t :: ts)) eqn:F.
  - left; exact (first_match_in _ _ _ F).
  - right; apply cadence_name_in.
Qed.

Lemma chord_types_of_app p q :
  chord_types_of (p ++ q) = fold_left collect_chord_type q (chord_types_of p).
Proof. unfold chord_types_of; apply fold_left_app. Qed.

Definition invalid_chord (c : string) : Prop := c = "N" \/ has_colon c = false.

Lemma invalid_chord_dec c : {invalid_chord c} + {~ invalid_chord c}.
Proof.
  unfold invalid_chord.
  destruct (string_dec c "N") as [E|E]; [left; left; exact E|].
  destruct (has_colon c) eqn:H; [right; intros [?|?]; congruence|left; right; reflexivity].
Defined.

Lemma collect_invalid acc c : invalid_chord c -> collect_chord_type acc c = [].
Proof.
  unfold collect_chord_type; intros [->|H]; [reflexivity|].
  rewrite H, andb_false_r; reflexivity.
Qed.

Lemma collect_valid acc c :
  ~ invalid_chord c -> collect_chord_type acc c = acc ++ [nth 1 (split_on ":" c) ""].
Proof.
  unfold collect_chord_type, invalid_chord; intros H.
  destruct (String.eqb c "N") eqn:E1; [apply String.eqb_eq in E1; tauto|].
  destruct (has_colon c) eqn:E2; [reflexivity|tauto].
Qed.

Lemma has_colon_app_maj r : has_colon (r ++ ":maj") = true.
Proof.
  induction r as [|c r IH]; [reflexivity|].
  unfold has_colon in *; cbn [append list_ascii_of_string existsb].
  rewrite IH, orb_true_r; reflexivity.
Qed.

Lemma split_on_app_maj r :
  has_colon r = false -> split_on ":" (r ++ ":maj") = [r; "maj"].
Proof.
  induction r as [|c r IH]; intros H; [reflexivity|].
  unfold has_colon in H; cbn [list_ascii_of_string existsb] in H.
  apply orb_false_iff in H as [Hc H].
  cbn [append split_on]; rewrite Hc, IH by exact H; reflexivity.
Qed.

Lemma chord_types_of_maj roots :
  Forall (fun r => has_colon r = false) roots ->
  chord_types_of (map (fun r => (r ++ ":maj")%string) roots) = repeat "maj" (length roots).
Proof.
  intros H; rewrite <- (rev_involutive roots) in *.
  induction (rev roots) as [|r rs IH]; [reflexivity|].
  cbn [rev] in *; apply Forall_app in H as [H1 H2]; inversion H2; subst.
  rewrite map_app, chord_types_of_app, IH by exact H1; cbn [map fold_left].
  rewrite collect_valid.
  - rewrite split_on_app_maj by assumption; cbn [nth].
    rewrite length_app, repeat_app; reflexivity.
  - unfold invalid_chord; rewrite has_colon_app_maj; intros [E|E]; [|discriminate E].
    destruct r as [|c r']; cbn in E; [discriminate E|].
    injection E as _ E; destruct r'; discriminate E.
Qed.

Lemma firstn_skipn_repeat {A} (x : A) n i k :
  firstn k (skipn i (repeat x n)) = repeat x (Nat.min k (n - i)).
Proof.
  revert n k; induction i as [|i IH]; intros n k.
  - rewrite Nat.sub_0_r; cbn [skipn]; revert n; induction k as [|k IHk]; intros [|n];
      cbn; [reflexivity..|f_equal; apply IHk].
  - destruct n as [|n]; cbn [skipn repeat]; [destruct k; reflexivity|apply IH].
Qed.

Lemma occurs_in_repeat_false p x n y :
  In y p -> y <> x -> occurs_in p (repeat x n) = false.
Proof.
  intros Hy Hne; unfold occurs_in.
  destruct (length p <=? length (repeat x n))%nat; [cbn|reflexivity].
  apply not_true_iff_false; intros H; apply existsb_exists in H as [i [_ H]].
  apply pattern_eqb_eq in H; rewrite firstn_skipn_repeat in H.
  rewrite <- H in Hy; apply repeat_spec in Hy; exact (Hne Hy).
Qed.

Lemma occurs_in_repeat_true x n k :
  (k <= n)%nat -> occurs_in (repeat x k) (repeat x n) = true.
Proof.
  intros Hk; unfold occurs_in; rewrite !repeat_length.
  apply andb_true_iff; split; [apply Nat.leb_le; exact Hk|].
  apply existsb_exists; exists 0%nat; split; [apply in_seq; lia|].
  apply pattern_eqb_eq; rewrite firstn_skipn_repeat; f_equal; lia.
Qed.

End ChordFunctionFacts.

Module ChordFunctionProps.
Import ChordFunction ChordFunctionFacts.

(** The first entry of the [common_patterns] literal,
    ["I-IV-ii-V (Major key)"], is overwritten by a later entry with the same
    key, so the function never returns that name. *)
Theorem analyze_chord_function_never_I_IV_ii_V (progression : list string) :
  analyze_chord_function progression <> "I-IV-ii-V (Major key)".
Proof.
  destruct (analyze_chord_function_cases progression) as [[_ ->]|[_ [H|H]]];
    [discriminate| |].
  - intros E; rewrite E in H; vm_compute in H.
    repeat (destruct H as [H|H]; [discriminate H|]); exact H.
  - unfold cadence_names in H; intros E; rewrite E in H.
    repeat (destruct H as [H|H]; [discriminate H|]); exact H.
Qed.

(** A chord that is ["N"] or has no colon clears the chord types collected
    so far: the name depends only on the chords after the last such chord. *)
Theorem analyze_chord_function_after_invalid (before after : list string) (bad : string) :
  invalid_chord bad ->
  analyze_chord_function (before ++ bad :: after) = analyze_chord_function after.
Proof.
  intros H; unfold analyze_chord_function.
  rewrite chord_types_of_app; cbn [fold_left]; rewrite collect_invalid by exact H.
  reflexivity.
Qed.

Lemma analyze_chord_function_after_invalid_witness :
  invalid_chord "N" /\
  analyze_chord_function (["D:min"; "G:7"] ++ "N" :: ["G:7"; "C:maj"]) = "Authentic Cadence".
Proof.
  assert (H : invalid_chord "N") by (left; reflexivity).
  split; [exact H|].
  rewrite (analyze_chord_function_after_invalid ["D:min"; "G:7"] ["G:7"; "C:maj"] "N" H).
  vm_compute; reflexivity.
Defined.

(** The function answers ["Unknown"] exactly when the progression is empty
    or its last chord is ["N"] or has no colon. *)
Theorem analyze_chord_function_unknown (progression : list string) :
  analyze_chord_function progression = "Unknown" <->
  progression = [] \/ exists before bad, progression = before ++ [bad] /\ invalid_chord bad.
Proof.
  split.
  - intros HU.
    assert (Hct : chord_types_of progression = []).
    { destruct (analyze_chord_function_cases progression) as [[H _]|[_ [H|H]]];
        [exact H| |]; rewrite HU in H; vm_compute in H;
        repeat (destruct H as [H|H]; [discriminate H|]); contradiction. }
    destruct progression as [|c cs] using rev_ind; [left; reflexivity|right].
    exists cs, c; split; [reflexivity|].
    destruct (invalid_chord_dec c) as [Hi|Hi]; [exact Hi|].
    rewrite chord_types_of_app in Hct; cbn [fold_left] in Hct.
    rewrite collect_valid in Hct by exact Hi; destruct (chord_types_of cs); discriminate.
  - intros [->|[before [bad [-> H]]]]; [reflexivity|].
    unfold analyze_chord_function; rewrite chord_types_of_app; cbn [fold_left].
    rewrite collect_invalid by exact H; reflexivity.
Qed.

(** Four or more major chords in a row (roots without colons) are named
    ["I-V-vi-IV (Major key)"]: the patterns tried before it all contain a
    minor chord. *)
Theorem analyze_chord_function_all_major (roots : list string) :
  (4 <= length roots)%nat -> Forall (fun r => has_colon r = false) roots ->
  analyze_chord_function (map (fun r => (r ++ ":maj")%string) roots) = "I-V-vi-IV (Major key)".
Proof.
  intros Hn Hr; unfold analyze_chord_function; rewrite chord_types_of_maj by exact Hr.
  revert Hn; generalize (length roots) as n; intros n Hn.
  assert (Hne : repeat "maj" n <> []) by (destruct n; [lia|discriminate]).
  destruct (repeat "maj" n) as [|t ts] eqn:Er; [contradiction|rewrite <- Er].
  let v := eval vm_compute in common_patterns in change common_patterns with v.
  cbn [first_match].
  rewrite (occurs_in_repeat_false _ _ _ "min") by (cbn; tauto || discriminate).
  rewrite (occurs_in_repeat_false _ _ _ "min") by (cbn; tauto || discriminate).
  rewrite (occurs_in_repeat_false _ _ _ "min") by (cbn; tauto || discriminate).
  rewrite (occurs_in_repeat_false _ _ _ "min") by (cbn; tauto || discriminate).
  change ["maj"; "maj"; "maj"; "maj"] with (repeat "maj" 4).
  rewrite occurs_in_repeat_true by lia; reflexivity.
Qed.

Lemma analyze_chord_function_all_major_witness :
  (4 <= length ["C"; "G"; "F"; "C"; "G"])%nat /\
  Forall (fun r => has_colon r = false) ["C"; "G"; "F"; "C"; "G"] /\
  analyze_chord_function (map (fun r => (r ++ ":maj")%string) ["C"; "G"; "F"; "C"; "G"]) =
    "I-V-vi-IV (Major key)".
Proof.
  assert (H1 : (4 <= length ["C"; "G"; "F"; "C"; "G"])%nat) by (cbn; lia).
  assert (H2 : Forall (fun r => has_colon r = false) ["C"; "G"; "F"; "C"; "G"])
    by (repeat constructor).
  split; [exact H1|split; [exact H2|]].
  exact (analyze_chord_function_all_major _ H1 H2).
Defined.

End ChordFunctionProps.

(** ** Chord statistics *)

Module FeatureFacts.
Import Features QFacts.
Open Scope Q_scope.

Definition step (counts : list (string * nat)) (item : string) : list (string * nat) :=
  KeyEstimation.dict_update item S 0%nat counts.

Definition first_step (acc : list string) (x : string) : list string :=
  if existsb (String.eqb x) acc then acc else acc ++ [x].

Lemma lookup_dict_update x k (d : list (string * nat)) :
  lookup x (KeyEstimation.dict_update k S 0%nat d) =
  if String.eqb x k then Some (S (match lookup x d with Some v => v | None => 0%nat end))
  else lookup x d.
Proof.
  induction d as [|[k' v] d IH]; cbn.
  - destruct (String.eqb x k); reflexivity.
  - destruct (String.eqb k k') eqn:E1.
    + apply String.eqb_eq in E1; subst k'; cbn.
      destruct (String.eqb x k); reflexivity.
    + cbn; destruct (String.eqb x k') eqn:E2; [|exact IH].
      apply String.eqb_eq in E2; subst x.
      rewrite String.eqb_sym, E1; reflexivity.
Qed.

Lemma count_label_cons x y l :
  count_label x (y :: l) = ((if String.eqb x y then 1 else 0) + count_label x l)%nat.
Proof. unfold count_label; cbn; destruct (String.eqb x y); reflexivity. Qed.

Lemma lookup_fold_step x items : forall d,
  lookup x (fold_left step items d) =
  match lookup x d with
  | Some v => Some (v + count_label x items)%nat
  | None => if (count_label x items =? 0)%nat then None else Some (count_label x items)
  end.
Proof.
  induction items as [|y items IH]; intros d; cbn [fold_left].
  - unfold count_label; cbn; destruct (lookup x d); [rewrite Nat.add_0_r|]; reflexivity.
  - rewrite IH; unfold step; rewrite lookup_dict_update, count_label_cons.
    destruct (String.eqb x y); cbn [Nat.add].
    + destruct (lookup x d); [f_equal; lia|reflexivity].
    + reflexivity.
Qed.

Lemma keys_dict_update k (d : list (string * nat)) :
  map fst (KeyEstimation.dict_update k S 0%nat d) = first_step (map fst d) k.
Proof.
  unfold first_step; induction d as [|[k' v] d IH]; cbn; [reflexivity|].
  destruct (String.eqb k k'); cbn; [reflexivity|].
  rewrite IH; destruct (existsb (String.eqb k) (map fst d)); reflexivity.
Qed.

Lemma keys_fold_step items : forall d,
  map fst (fold_left step items d) = fold_left first_step items (map fst d).
Proof.
  induction items as [|y items IH]; intros d; cbn [fold_left]; [reflexivity|].
  rewrite IH; unfold step; rewrite keys_dict_update; reflexivity.
Qed.

Lemma lookup_map_ratio k total (l : list (string * nat)) :
  lookup k (map (fun '(k, v) => (k, ratio v total)) l) =
  option_map (fun v => ratio v total) (lookup k l).
Proof.
  induction l as [|[k' v] l IH]; cbn; [reflexivity|].
  destruct (String.eqb k k'); [reflexivity|exact IH].
Qed.

Lemma keys_map_ratio total (l : list (string * nat)) :
  map fst (map (fun '(k, v) => (k, ratio v total)) l) = map fst l.
Proof. induction l as [|[k v] l IH]; cbn; [reflexivity|f_equal; exact IH]. Qed.

Lemma count_items_lookup items k :
  lookup k (count_items items) =
  if (count_label k items =? 0)%nat then None else Some (count_label k items).
Proof. exact (lookup_fold_step k items []). Qed.

Lemma count_label_le k items : (count_label k items <= length items)%nat.
Proof. unfold count_label; apply filter_length_le. Qed.

Lemma ratio_bounds c n : (c <= n)%nat -> 0 <= ratio c n /\ ratio c n <= 1.
Proof.
  intros H; unfold ratio.
  destruct n as [|n].
  - assert (c = 0%nat) by lia; subst; split; unfold Qle; cbn; lia.
  - assert (Hn : 0 < inject_Z (Z.of_nat (S n))) by (unfold Qlt; cbn; lia).
    split.
    + apply Qle_shift_div_l; [exact Hn|]; unfold Qle; cbn; lia.
    + apply Qle_shift_div_r; [exact Hn|]; unfold Qle; cbn; lia.
Qed.

Lemma distribution_value_bounds items k v :
  lookup k (calculate_distribution items) = Some v -> 0 <= v /\ v <= 1.
Proof.
  unfold calculate_distribution; rewrite lookup_map_ratio, count_items_lookup.
  destruct (count_label k items =? 0)%nat; [discriminate|].
  intros [= <-]; apply ratio_bounds, count_label_le.
Qed.

Lemma sum_fold_add (l : list nat) a : fold_left Nat.add l a = (a + list_sum l)%nat.
Proof.
  revert a; induction l as [|x l IH]; intros a; cbn; [lia|].
  rewrite IH; unfold list_sum; lia.
Qed.

Lemma sum_dict_update k (d : list (string * nat)) :
  list_sum (map snd (KeyEstimation.dict_update k S 0%nat d)) = S (list_sum (map snd d)).
Proof.
  induction d as [|[k' v] d IH]; cbn; [reflexivity|].
  destruct (String.eqb k k'); cbn; [reflexivity|].
  unfold list_sum in *; cbn in IH |- *; rewrite IH; lia.
Qed.

Lemma sum_fold_step items : forall d,
  list_sum (map snd (fold_left step items d)) = (list_sum (map snd d) + length items)%nat.
Proof.
  induction items as [|y items IH]; intros d; cbn [fold_left length]; [lia|].
  rewrite IH; unfold step; rewrite sum_dict_update; lia.
Qed.

Lemma count_items_nil items : count_items items = [] -> items = [].
Proof.
  intros H; destruct items as [|y items]; [reflexivity|exfalso].
  assert (Hs := sum_fold_step (y :: items) []); unfold count_items in H.
  fold step in H; rewrite H in Hs; cbn in Hs; discriminate.
Qed.

Lemma split_on_nonnil (sep : ascii) (s : string) : split_on sep s <> [].
Proof.
  destruct s as [|c s]; cbn; [discriminate|].
  destruct (Ascii.eqb c sep); [discriminate|destruct (split_on sep s); discriminate].
Qed.

Lemma split_on_single (sep : ascii) (s b : string) : split_on sep s = [b] -> s = b.
Proof.
  revert b; induction s as [|c s IH]; intros b; cbn; [intros [= <-]; reflexivity|].
  destruct (Ascii.eqb c sep); [intros H; injection H as _ H; exfalso; exact (split_on_nonnil _ _ H)|].
  destruct (split_on sep s) as [|w [|w' ws]] eqn:Es;
    [exfalso; exact (split_on_nonnil sep s Es)| |intros H; discriminate H].
  intros [= <-]; f_equal; apply IH; reflexivity.
Qed.

Lemma split_on_join (sep : ascii) (s a b : string) :
  split_on sep s = [a; b] -> s = (a ++ String sep b)%string.
Proof.
  revert a; induction s as [|c s IH]; intros a; cbn; [intros H; discriminate H|].
  destruct (Ascii.eqb c sep) eqn:E.
  - apply Ascii.eqb_eq in E; subst c; intros [= <- Hs].
    cbn; f_equal; exact (split_on_single _ _ _ Hs).
  - destruct (split_on sep s) as [|w ws] eqn:Es.
    + exfalso; exact (split_on_nonnil sep s Es).
    + intros [= <- ->]; cbn; f_equal; apply IH; reflexivity.
Qed.

Lemma split_pair_join s a b : split_pair s = Some (a, b) -> s = (a ++ ":" ++ b)%string.
Proof.
  unfold split_pair; destruct (split_on ":" s) as [|x [|y [|z l]]] eqn:E; try discriminate.
  intros [= <- <-]; exact (split_on_join ":" s x y E).
Qed.

End FeatureFacts.

Module FeatureProps.
Import Features FeatureFacts QFacts.
Open Scope Q_scope.

(** [_calculate_distribution] has one key per distinct item, in order of
    first occurrence (the order of a [Counter]), and maps an item to the
    number of its occurrences divided by the number of items; an empty list
    gives an empty dict. *)
Theorem calculate_distribution_spec (items : list string) :
  map fst (calculate_distribution items) = first_occurrences items /\
  forall k, lookup k (calculate_distribution items) =
            if (count_label k items =? 0)%nat then None
            else Some (ratio (count_label k items) (length items)).
Proof.
  unfold calculate_distribution; split.
  - rewrite keys_map_ratio; unfold count_items; fold step.
    rewrite keys_fold_step; reflexivity.
  - intros k; rewrite lookup_map_ratio, count_items_lookup.
    destruct (count_label k items =? 0)%nat; reflexivity.
Qed.

(** [_analyze_transitions] normalises by the sum of the counts, which is the
    number of transitions, so it is [_calculate_distribution] applied to the
    list of transition strings; it is empty exactly when the sequence has
    fewer than two items. *)
Theorem analyze_transitions_distribution (sequence : list string) :
  analyze_transitions sequence = calculate_distribution (transition_strings sequence) /\
  (analyze_transitions sequence = [] <-> (length sequence <= 1)%nat).
Proof.
  assert (Heq : analyze_transitions sequence =
                calculate_distribution (transition_strings sequence)).
  { unfold analyze_transitions, calculate_distribution; cbv zeta.
    rewrite sum_fold_add; unfold count_items; fold step.
    rewrite sum_fold_step; cbn [map list_sum fold_right Nat.add].
    destruct (0 <? length (transition_strings sequence))%nat eqn:E; [reflexivity|].
    apply Nat.ltb_ge in E.
    destruct (transition_strings sequence); [reflexivity|cbn in E; lia]. }
  split; [exact Heq|rewrite Heq].
  assert (Hl : length (transition_strings sequence) = (length sequence - 1)%nat)
    by (unfold transition_strings; rewrite length_map, length_seq; reflexivity).
  split.
  - intros H; unfold calculate_distribution in H; apply map_eq_nil, count_items_nil in H.
    rewrite H in Hl; cbn in Hl; lia.
  - intros H; destruct (transition_strings sequence) eqn:E; [reflexivity|].
    cbn in Hl; lia.
Qed.

(** The harmonic context score of any chord against the features of any
    chord list lies between 0 and 2: it adds at most one value of each of
    two distributions. *)
Theorem harmonic_context_bounds (chord : string) (chords : list segment) :
  0 <= calculate_harmonic_context chord (analyze_chord_progressions chords) <= 2.
Proof.
  unfold calculate_harmonic_context, analyze_chord_progressions.
  destruct chords as [|s l]; [cbn; split; unfold Qle; cbn; lia|].
  destruct (collect_parts (s :: l)) as [[types roots] durs]; cbn [get_distribution].
  cbn [chord_type_distribution root_distribution].
  destruct (lookup _ (calculate_distribution types)) as [v1|] eqn:E1;
    [apply distribution_value_bounds in E1|];
  (destruct (lookup _ (calculate_distribution roots)) as [v2|] eqn:E2;
    [apply distribution_value_bounds in E2|]);
  repeat match goal with H : _ /\ _ |- _ => destruct H end;
  split; q_to_R; lra.
Qed.

(** [_calculate_chord_error] is symmetric, and it is 0 exactly when both
    labels are the same label of the form [root:type]. *)
Theorem calculate_chord_error_sym_zero (predicted true_ : string) :
  calculate_chord_error predicted true_ = calculate_chord_error true_ predicted /\
  (calculate_chord_error predicted true_ == 0 <-> predicted = true_ /\ split_pair predicted <> None).
Proof.
  split.
  - unfold calculate_chord_error; rewrite orb_comm.
    destruct (String.eqb true_ "N" || String.eqb predicted "N"); [reflexivity|].
    destruct (split_pair predicted) as [[a b]|], (split_pair true_) as [[c d]|]; try reflexivity.
    rewrite (String.eqb_sym a c), (String.eqb_sym b d); reflexivity.
  - unfold calculate_chord_error.
    destruct (String.eqb predicted "N") eqn:Ep.
    { apply String.eqb_eq in Ep; subst; cbn [orb]; split; [intros H; discriminate H|].
      intros [_ H]; exfalso; apply H; reflexivity. }
    destruct (String.eqb true_ "N") eqn:Et.
    { apply String.eqb_eq in Et; subst; cbn [orb]; split; [intros H; discriminate H|].
      intros [-> H]; exfalso; apply H; reflexivity. }
    cbn [orb].
    destruct (split_pair predicted) as [[a b]|] eqn:Sp, (split_pair true_) as [[c d]|] eqn:St.
    + destruct (String.eqb a c) eqn:Eac, (String.eqb b d) eqn:Ebd.
      * apply String.eqb_eq in Eac, Ebd; subst c d; split; [|intros; reflexivity].
        intros _; split; [|discriminate].
        rewrite (split_pair_join _ _ _ Sp), (split_pair_join _ _ _ St); reflexivity.
      * split; [intros H; discriminate H|intros [<- _]].
        rewrite Sp in St; injection St as -> ->; rewrite String.eqb_refl in Ebd; discriminate.
      * split; [intros H; discriminate H|intros [<- _]].
        rewrite Sp in St; injection St as -> ->; rewrite String.eqb_refl in Eac; discriminate.
      * split; [intros H; discriminate H|intros [<- _]].
        rewrite Sp in St; injection St as -> ->; rewrite String.eqb_refl in Eac; discriminate.
    + split; [intros H; discriminate H|intros [<- _]]; rewrite Sp in St; discriminate.
    + split; [intros H; discriminate H|intros [<- _]]; rewrite Sp in St; discriminate.
    + split; [intros H; discriminate H|intros [_ H]; contradiction].
Qed.

End FeatureProps.

(** ** Signal features *)

Module SignalFacts.
Import Signal.
Open Scope R_scope.

Lemma fgt_asym x y : Double.fgt x y = true -> Double.fgt y x = false.
Proof.
  destruct x as [a| | |], y as [b| | |]; cbn; try congruence.
  destruct (Rlt_dec b a) as [H|H]; [|discriminate]; intros _.
  destruct (Rlt_dec a b); [lra|reflexivity].
Qed.

Lemma find_peaks_in {A} (gt : A -> A -> bool) d signal i :
  In i (find_peaks gt d signal) <->
  (1 <= i /\ i + 2 <= length signal)%nat /\
  gt (nth i signal d) (nth (i - 1) signal d) = true /\
  gt (nth i signal d) (nth (S i) signal d) = true.
Proof.
  unfold find_peaks; rewrite filter_In, in_seq, andb_true_iff; split.
  - intros [[H1 H2] H3]; split; [lia|exact H3].
  - intros [[H1 H2] H3]; split; [lia|exact H3].
Qed.

Lemma rsum_cons x l : rsum (x :: l) = x + rsum l.
Proof. reflexivity. Qed.

Lemma rsum_nonpos l : (forall x, In x l -> x <= 0) -> rsum l <= 0.
Proof.
  induction l as [|x l IH]; [intros _; unfold rsum; cbn; lra|]; rewrite rsum_cons; intros H.
  specialize (H x (or_introl eq_refl)) as Hx.
  assert (rsum l <= 0) by (apply IH; intros; apply H; right; assumption); lra.
Qed.

Lemma rsum_nonneg l : (forall x, In x l -> 0 <= x) -> 0 <= rsum l.
Proof.
  induction l as [|x l IH]; [intros _; unfold rsum; cbn; lra|]; rewrite rsum_cons; intros H.
  specialize (H x (or_introl eq_refl)) as Hx.
  assert (0 <= rsum l) by (apply IH; intros; apply H; right; assumption); lra.
Qed.

Lemma in_le_rsum l x : (forall y, In y l -> 0 <= y) -> In x l -> x <= rsum l.
Proof.
  induction l as [|y l IH]; [intros _ []|]; rewrite rsum_cons; intros H [<-|Hx].
  - assert (0 <= rsum l) by (apply rsum_nonneg; intros; apply H; right; assumption); lra.
  - assert (x <= rsum l) by (apply IH; [intros; apply H; right|]; assumption).
    specialize (H y (or_introl eq_refl)); lra.
Qed.

Lemma rsum_map_div l c : rsum (map (fun m => m / c) l) = rsum l / c.
Proof.
  induction l as [|x l IH]; [unfold rsum, Rdiv; cbn; ring|].
  cbn [map]; rewrite !rsum_cons, IH; unfold Rdiv; ring.
Qed.

Lemma div_le_one a b : 0 < b -> a <= b -> a / b <= 1.
Proof.
  intros Hb Hab; unfold Rdiv; rewrite <- (Rinv_r b) by lra.
  apply Rmult_le_compat_r; [left; apply Rinv_0_lt_compat; lra|exact Hab].
Qed.

Lemma div_nonneg a b : 0 <= a -> 0 < b -> 0 <= a / b.
Proof.
  intros Ha Hb; unfold Rdiv; apply Rmult_le_pos; [exact Ha|left; apply Rinv_0_lt_compat; exact Hb].
Qed.

Lemma plogp_nonpos p : 0 < p <= 1 -> p * log2 p <= 0.
Proof.
  intros [H0 H1]; unfold log2.
  assert (Hl : ln p <= 0).
  { destruct (Req_dec p 1) as [->|Hne]; [rewrite ln_1; lra|].
    rewrite <- ln_1; left; apply ln_increasing; lra. }
  assert (H2 : 0 < / ln 2) by (apply Rinv_0_lt_compat; pose proof ln_lt_2; lra).
  assert (H3 : 0 <= p * (- ln p * / ln 2))
    by (apply Rmult_le_pos; [lra|apply Rmult_le_pos; lra]).
  unfold Rdiv; lra.
Qed.

Lemma entropy_nonneg d : (forall p, In p d -> p <= 1) -> 0 <= calculate_entropy d.
Proof.
  intros H; unfold calculate_entropy.
  assert (rsum (map (fun p => p * log2 p) (filter positive d)) <= 0); [|lra].
  apply rsum_nonpos; intros x Hx; apply in_map_iff in Hx as [p [<- Hp]].
  apply filter_In in Hp as [Hp Hpos]; unfold positive in Hpos.
  destruct (Rlt_dec 0 p); [|discriminate].
  apply plogp_nonpos; split; [assumption|apply H; exact Hp].
Qed.

Lemma row_mean_nonneg row : (forall x, In x row -> 0 <= x) -> 0 <= row_mean row.
Proof.
  intros H; unfold row_mean, Rdiv; apply Rmult_le_pos; [apply rsum_nonneg; exact H|].
  destruct (length row); [cbn [INR]; rewrite Rinv_0; lra|left; apply Rinv_0_lt_compat, lt_0_INR; lia].
Qed.

Lemma row_var_nonneg row : 0 <= row_var row.
Proof.
  unfold row_var, Rdiv; apply Rmult_le_pos.
  - apply rsum_nonneg; intros x Hx; apply in_map_iff in Hx as [y [<- _]]; exact (Rle_0_sqr _).
  - destruct (length row); [cbn [INR]; rewrite Rinv_0; lra|left; apply Rinv_0_lt_compat, lt_0_INR; lia].
Qed.

Lemma fold_max_ge l a : a <= fold_left Rmax l a.
Proof.
  revert a; induction l as [|x l IH]; intros a; cbn; [lra|].
  eapply Rle_trans; [apply Rmax_l|apply IH].
Qed.

Lemma fold_min_le l a : fold_left Rmin l a <= a.
Proof.
  revert a; induction l as [|x l IH]; intros a; cbn; [lra|].
  eapply Rle_trans; [apply IH|apply Rmin_l].
Qed.

End SignalFacts.

Module SignalProps.
Import Signal SignalFacts.
Open Scope R_scope.

(** [_find_peaks] on doubles returns indices [i] with [1 <= i <= len - 2],
    and never two neighbouring indices: [>] on doubles is asymmetric, NaN
    included. *)
Theorem find_peaks_separated (signal : list Double.fl) (d : Double.fl) (i : nat) :
  In i (find_peaks Double.fgt d signal) ->
  (1 <= i /\ i + 2 <= length signal)%nat /\ ~ In (S i) (find_peaks Double.fgt d signal).
Proof.
  rewrite find_peaks_in; intros [Hr [_ H]]; split; [exact Hr|].
  rewrite find_peaks_in; intros [_ [H' _]].
  replace (S i - 1)%nat with i in H' by lia.
  rewrite (fgt_asym _ _ H) in H'; discriminate.
Qed.

Lemma find_peaks_separated_witness :
  In 1%nat (find_peaks Double.fgt (Double.Fin 0) (map Double.Fin [0; 2; 1; 3; 0])) /\
  (1 <= 1 /\ 1 + 2 <= 5)%nat /\
  ~ In 2%nat (find_peaks Double.fgt (Double.Fin 0) (map Double.Fin [0; 2; 1; 3; 0])).
Proof.
  assert (H : In 1%nat (find_peaks Double.fgt (Double.Fin 0) (map Double.Fin [0; 2; 1; 3; 0]))).
  { apply find_peaks_in; cbn; split; [lia|].
    destruct (Rlt_dec 0 2), (Rlt_dec 1 2); try lra; split; reflexivity. }
  split; [exact H|].
  exact (find_peaks_separated _ _ 1 H).
Defined.

(** [_calculate_entropy] is non-negative on any vector whose entries are at
    most 1 (the entries that are not positive are dropped first). *)
Theorem calculate_entropy_nonneg (distribution : list R) :
  (forall p, In p distribution -> p <= 1) -> 0 <= calculate_entropy distribution.
Proof. exact (entropy_nonneg distribution). Qed.

Lemma calculate_entropy_nonneg_witness :
  (forall p, In p [1/2; 1/4; 1/4; -1] -> p <= 1) /\ 0 <= calculate_entropy [1/2; 1/4; 1/4; -1].
Proof.
  assert (H : forall p, In p [1/2; 1/4; 1/4; -1] -> p <= 1)
    by (intros p Hp; repeat (destruct Hp as [<-|Hp]; [lra|]); contradiction).
  split; [exact H|exact (calculate_entropy_nonneg _ H)].
Defined.

(** For a chroma matrix with non-negative entries and no empty row,
    [_calculate_pitch_class_distribution] returns a [pitch_strength] that is
    a probability vector (entries in [0, 1] summing to 1), a non-negative
    [pitch_entropy], stabilities in (0, 1] and a non-negative
    [pitch_contrast]; on a silent matrix (every entry 0) the strength is the
    uniform vector of twelve 1/12.  Numbers are read as exact reals. *)
Theorem pitch_class_distribution_ranges (chroma : list (list R)) :
  Forall (fun row => row <> [] /\ forall x, In x row -> 0 <= x) chroma ->
  let f := calculate_pitch_class_distribution chroma in
  rsum (pitch_strength f) = 1 /\
  (forall p, In p (pitch_strength f) -> 0 <= p <= 1) /\
  0 <= pitch_entropy f /\
  (forall s, In s (pitch_stability f) -> 0 < s <= 1) /\
  0 <= pitch_contrast f /\
  ((forall row x, In row chroma -> In x row -> x = 0) -> pitch_strength f = repeat (1 / 12) 12).
Proof.
  intros Hc; cbv zeta; unfold calculate_pitch_class_distribution;
    cbn [pitch_strength pitch_entropy pitch_stability pitch_contrast].
  set (ms := map row_mean chroma).
  assert (Hms : forall m, In m ms -> 0 <= m).
  { intros m Hm; apply in_map_iff in Hm as [row [<- Hrow]].
    rewrite Forall_forall in Hc; apply row_mean_nonneg, (Hc row Hrow). }
  assert (Hs : rsum (if Rlt_dec 0 (rsum ms) then map (fun m => m / rsum ms) ms
                     else repeat (1 / 12) 12) = 1 /\
               forall p, In p (if Rlt_dec 0 (rsum ms) then map (fun m => m / rsum ms) ms
                              else repeat (1 / 12) 12) -> 0 <= p <= 1).
  { destruct (Rlt_dec 0 (rsum ms)) as [Hpos|Hpos].
    - split; [rewrite rsum_map_div; field; lra|].
      intros p Hp; apply in_map_iff in Hp as [m [<- Hm]].
      pose proof (Hms m Hm); pose proof (in_le_rsum ms m Hms Hm).
      split; [apply div_nonneg; lra|].
      apply div_le_one; lra.
    - split; [cbn; lra|].
      intros p Hp; apply repeat_spec in Hp; subst; lra. }
  destruct Hs as [Hs1 Hs2].
  split; [exact Hs1|split; [exact Hs2|split; [|split]]].
  - apply entropy_nonneg; intros p Hp; apply Hs2; exact Hp.
  - intros s Hs; apply in_map_iff in Hs as [v [<- Hv]].
    apply in_map_iff in Hv as [row [<- _]].
    pose proof (row_var_nonneg row).
    split; [apply Rdiv_lt_0_compat; lra|].
    apply div_le_one; lra.
  - split; [unfold contrast|].
    2:{ intros Hz.
        assert (Hr : forall l, (forall x, In x l -> x = 0) -> rsum l = 0).
        { induction l as [|a l IH]; intros Hl; [reflexivity|].
          rewrite rsum_cons, (Hl a (or_introl eq_refl)).
          rewrite IH by (intros x Hx; apply Hl; right; exact Hx); ring. }
        assert (H0 : rsum ms = 0).
        { apply Hr; intros m Hm; apply in_map_iff in Hm as [row [<- Hrow]].
          unfold row_mean; rewrite (Hr row (fun x => Hz row x Hrow)); unfold Rdiv; ring. }
        destruct (Rlt_dec 0 (rsum ms)) as [Hp|_]; [lra|reflexivity]. }
    pose proof (fold_max_ge (tl (if Rlt_dec 0 (rsum ms) then map (fun m => m / rsum ms) ms
                                 else repeat (1 / 12) 12))
                            (hd 0 (if Rlt_dec 0 (rsum ms) then map (fun m => m / rsum ms) ms
                                   else repeat (1 / 12) 12))).
    pose proof (fold_min_le (tl (if Rlt_dec 0 (rsum ms) then map (fun m => m / rsum ms) ms
                                 else repeat (1 / 12) 12))
                            (hd 0 (if Rlt_dec 0 (rsum ms) then map (fun m => m / rsum ms) ms
                                   else repeat (1 / 12) 12))).
    lra.
Qed.

Lemma pitch_class_distribution_ranges_witness :
  Forall (fun row => row <> [] /\ forall x, In x row -> 0 <= x) [[1; 3]; [0; 2]; [0]] /\
  rsum (pitch_strength (calculate_pitch_class_distribution [[1; 3]; [0; 2]; [0]])) = 1.
Proof.
  assert (H : Forall (fun row => row <> [] /\ forall x, In x row -> 0 <= x)
                     [[1; 3]; [0; 2]; [0]]).
  { repeat (apply Forall_cons;
            [split; [discriminate|intros x Hx; repeat (destruct Hx as [<-|Hx]; [lra|]);
                                  contradiction]|]).
    apply Forall_nil. }
  split; [exact H|exact (proj1 (pitch_class_distribution_ranges _ H))].
Defined.

End SignalProps.

(** ** Smoothing, progressions and keys *)

Module PipelineFacts.
Import Progressions ProgressionFacts.

Definition fo_step (acc : list string) (x : string) : list string :=
  if existsb (String.eqb x) acc then acc else acc ++ [x].

Lemma fo_fold_in l : forall acc y, In y acc \/ In y l -> In y (fold_left fo_step l acc).
Proof.
  induction l as [|x l IH]; intros acc y H; cbn [fold_left].
  - destruct H as [H|[]]; exact H.
  - apply IH; unfold fo_step.
    destruct H as [H|[->|H]]; [| |right; exact H].
    + left; destruct (existsb (String.eqb x) acc); [exact H|apply in_or_app; left; exact H].
    + left; destruct (existsb (String.eqb y) acc) eqn:E.
      * apply existsb_exists in E as [z [Hz Ez]]; apply String.eqb_eq in Ez; subst; exact Hz.
      * apply in_or_app; right; left; reflexivity.
Qed.

Lemma first_occurrences_complete l y : In y l -> In y (first_occurrences l).
Proof. intros H; apply fo_fold_in; right; exact H. Qed.

Lemma first_occurrences_nil l : first_occurrences l = [] -> l = [].
Proof.
  destruct l as [|x l]; [reflexivity|intros H].
  pose proof (first_occurrences_complete (x :: l) x (or_introl eq_refl)) as Hx.
  rewrite H in Hx; destruct Hx.
Qed.

Section Argmax.
Variable cnt : string -> nat.

Definition argmax_step : string * nat -> string -> string * nat :=
  fun '(best, bc) y => let c := cnt y in if (bc <? c)%nat then (y, c) else (best, bc).

Lemma argmax_fold xs : forall pre best,
  In best pre -> (forall y, In y pre -> cnt y <= cnt best)%nat ->
  (exists l1 l2, pre = l1 ++ best :: l2 /\ Forall (fun y => cnt y < cnt best)%nat l1) ->
  let r := fst (fold_left argmax_step xs (best, cnt best)) in
  In r (pre ++ xs) /\ (forall y, In y (pre ++ xs) -> cnt y <= cnt r)%nat /\
  exists l1 l2, pre ++ xs = l1 ++ r :: l2 /\ Forall (fun y => cnt y < cnt r)%nat l1.
Proof.
  induction xs as [|x xs IH]; intros pre best Hin Hmax Hfirst; cbn [fold_left].
  - rewrite app_nil_r; cbn [fst]; split; [exact Hin|split; [exact Hmax|exact Hfirst]].
  - replace (pre ++ x :: xs) with ((pre ++ [x]) ++ xs) by (rewrite <- app_assoc; reflexivity).
    cbn [argmax_step]; destruct (cnt best <? cnt x)%nat eqn:E.
    + apply Nat.ltb_lt in E; apply IH.
      * apply in_or_app; right; left; reflexivity.
      * intros y Hy; apply in_app_or in Hy as [Hy|[<-|[]]]; [|lia].
        specialize (Hmax y Hy); lia.
      * exists pre, []; split; [reflexivity|].
        apply Forall_forall; intros y Hy; specialize (Hmax y Hy); lia.
    + apply Nat.ltb_ge in E; apply IH.
      * apply in_or_app; left; exact Hin.
      * intros y Hy; apply in_app_or in Hy as [Hy|[<-|[]]]; [apply Hmax; exact Hy|lia].
      * destruct Hfirst as [l1 [l2 [-> Hl1]]]; exists l1, (l2 ++ [x]); split; [|exact Hl1].
        rewrite <- app_assoc; reflexivity.
Qed.

End Argmax.

Lemma bump_keys acc p q : In q (map fst (bump acc p)) -> In q (map fst acc) \/ q = p.
Proof.
  induction acc as [|[q' n] acc IH]; cbn.
  - intros [<-|[]]; right; reflexivity.
  - destruct (pattern_eqb q' p); cbn.
    + intros [<-|H]; left; [left; reflexivity|right; exact H].
    + intros [<-|H]; [left; left; reflexivity|].
      destruct (IH H); [left; right|right]; assumption.
Qed.

Lemma count_patterns_keys ws : forall acc q,
  In q (map fst (fold_left bump ws acc)) -> In q (map fst acc) \/ In q ws.
Proof.
  induction ws as [|w ws IH]; intros acc q H; cbn [fold_left] in H; [left; exact H|].
  destruct (IH _ _ H) as [H1|H1]; [|right; right; exact H1].
  destruct (bump_keys _ _ _ H1) as [H2|<-]; [left; exact H2|right; left; reflexivity].
Qed.

Lemma windows_shape filtered len p :
  (1 <= len)%nat -> In p (windows filtered len) ->
  length p = len /\ existsb is_cluster_label p = false.
Proof.
  unfold windows; intros Hl H; apply filter_In in H as [H Hc].
  apply negb_true_iff in Hc; split; [|exact Hc].
  apply in_map_iff in H as [i [<- Hi]]; apply in_seq in Hi.
  unfold pattern_at; rewrite length_map, length_firstn, length_skipn; lia.
Qed.

Lemma progressions_of_length_count analyze cfg filtered len y :
  In y (progressions_of_length analyze cfg filtered len) -> (2 <= count y)%nat.
Proof.
  unfold progressions_of_length; intros H; apply in_flat_map in H.
  destruct H as [[pat cnt] [_ Hy]].
  destruct (Nat.max 2 (length filtered / (len * 2)) <=? cnt)%nat eqn:E; [|contradiction].
  apply Nat.leb_le in E; cbv zeta in Hy; destruct (Qle_bool _ _); [|contradiction].
  destruct Hy as [<-|[]]; cbn; lia.
Qed.

End PipelineFacts.

Module PipelineProps.
Import Progressions ProgressionFacts PipelineFacts.

(** [_apply_temporal_smoothing] ([Counter(buf).most_common(1)[0][0]])
    fails exactly on an empty buffer; otherwise it returns an element of the
    buffer with the largest count, and among the elements with that count the
    one that occurs first. *)
Theorem most_common_spec (buf : list string) :
  (most_common buf = None <-> buf = []) /\
  forall x, most_common buf = Some x ->
    In x buf /\ (forall y, In y buf -> count_label y buf <= count_label x buf)%nat /\
    exists l1 l2, first_occurrences buf = l1 ++ x :: l2 /\
                  Forall (fun y => count_label y buf < count_label x buf)%nat l1.
Proof.
  unfold most_common; split.
  - destruct (first_occurrences buf) eqn:E.
    + split; [intros _; apply first_occurrences_nil; exact E|reflexivity].
    + split; [intros H; discriminate H|intros ->; cbn in E; discriminate E].
  - destruct (first_occurrences buf) as [|b xs] eqn:E; [discriminate|intros x Hx].
    injection Hx as Hx.
    assert (Hm0 : forall y, In y [b] -> (count_label y buf <= count_label b buf)%nat)
      by (intros y [<-|[]]; lia).
    assert (Hfold := argmax_fold (fun y => count_label y buf) xs [b] b (or_introl eq_refl) Hm0
                       (ex_intro _ [] (ex_intro _ [] (conj eq_refl (Forall_nil _))))).
    cbv beta zeta in Hfold.
    change (fst (fold_left (argmax_step (fun y => count_label y buf)) xs
                           (b, count_label b buf)) = x) in Hx.
    rewrite Hx in Hfold; destruct Hfold as [Hin [Hmax Hfirst]].
    cbn [app] in Hin, Hmax, Hfirst; rewrite <- E in Hin, Hmax, Hfirst.
    split; [exact (LabelFacts.first_occurrences_in (fun _ => True) _ _ Hin)|split; [|rewrite <- E; exact Hfirst]].
    intros y Hy; apply Hmax, first_occurrences_complete; exact Hy.
Qed.

(** Every progression [detect_chord_progression] returns (at most three)
    occurs at least twice, has length 2 or 4, matches its [length] field, and
    contains no cluster chord. *)
Theorem detect_chord_progression_shape (cfg : config) (simplified_sequence : list segment) :
  let r := detect_chord_progression ChordFunction.analyze_chord_function cfg simplified_sequence in
  (length r <= 3)%nat /\
  forall p, In p r ->
    (2 <= count p)%nat /\ (prog_length p = 2 \/ prog_length p = 4)%nat /\
    length (progression p) = prog_length p /\
    existsb is_cluster_label (progression p) = false.
Proof.
  cbv zeta; unfold detect_chord_progression.
  destruct simplified_sequence as [|s rest]; [split; [cbn; lia|intros p []]|].
  set (filtered := filter_from cfg None (s :: rest)).
  split; [rewrite length_firstn; lia|].
  intros p Hp; apply in_firstn_in, in_sort_prog, in_flat_map in Hp.
  destruct Hp as [len [Hlen Hp]].
  destruct (length filtered <=? len)%nat; [contradiction|].
  pose proof (progressions_of_length_count _ _ _ _ _ Hp) as Hc.
  apply in_progressions_of_length in Hp as [Hk Hl].
  apply (in_map fst) in Hk; cbn [fst] in Hk.
  unfold count_patterns in Hk; apply count_patterns_keys in Hk as [[]|Hw].
  assert (Hlen' : len = 2%nat \/ len = 4%nat) by (destruct Hlen as [<-|[<-|[]]]; auto).
  apply windows_shape in Hw as [Hw1 Hw2]; [|lia].
  rewrite Hl; split; [exact Hc|split; [exact Hlen'|split; [exact Hw1|exact Hw2]]].
Qed.

End PipelineProps.
